(** * HTTP/2 server push: link parsing, push diary and cache digest

    A shallow embedding of [modules/http2/h2_push.c].  C integers are [Z]
    with the wrap-around of their width written out, C strings are
    [string] (no NUL inside), APR arrays are lists, a pointer that may be
    NULL is an [option]; a block from [apr_pcalloc] that is written through
    a typed pointer is a list together with its size in bytes.  Functions that the file calls but that live in
    APR or OpenSSL are either taken as members of an interface class or
    written from their library documentation, and are marked as such. *)

From Stdlib Require Import ZArith String Ascii List Bool Lia ZifyNat Sorted Permutation.
Import ListNotations.
Local Open Scope Z_scope.

(* ===================================================================== *)
(** ** C integer arithmetic *)

Module CInt.

(** [unsigned char] *)
Definition u8 (z : Z) : Z := z mod 256.

(** [unsigned int] *)
Definition u32 (z : Z) : Z := z mod 2 ^ 32.

(** [apr_uint64_t] *)
Definition u64 (z : Z) : Z := z mod 2 ^ 64.

(** [apr_int32_t], two's complement wrap-around. *)
Definition s32 (z : Z) : Z := (z + 2 ^ 31) mod 2 ^ 32 - 2 ^ 31.

End CInt.

(* ===================================================================== *)
(** ** C strings *)

Module CStr.

(** The bytes of a C string, as [strlen] many unsigned chars. *)
Definition bytes (s : string) : list Z :=
  map (fun c => Z.of_nat (nat_of_ascii c)) (list_ascii_of_string s).

Definition is_upper (c : ascii) : bool :=
  let n := nat_of_ascii c in (65 <=? n)%nat && (n <=? 90)%nat.

Definition is_lower (c : ascii) : bool :=
  let n := nat_of_ascii c in (97 <=? n)%nat && (n <=? 122)%nat.

Definition is_digit (c : ascii) : bool :=
  let n := nat_of_ascii c in (48 <=? n)%nat && (n <=? 57)%nat.

(** [apr_isalnum] in the C locale. *)
Definition apr_isalnum (c : ascii) : bool :=
  is_upper c || is_lower c || is_digit c.

(** [tolower] in the C locale. *)
Definition tolower (c : ascii) : ascii :=
  if is_upper c then ascii_of_nat (nat_of_ascii c + 32) else c.

Fixpoint lower (s : string) : string :=
  match s with
  | EmptyString => EmptyString
  | String c r => String (tolower c) (lower r)
  end.

(** [strcmp(a, b) == 0] *)
Definition streq (a b : string) : bool := String.eqb a b.

(** [strcasecmp(a, b) == 0] *)
Definition strcaseeq (a b : string) : bool := String.eqb (lower a) (lower b).

(** [s[i]], with [None] for the terminating NUL and beyond. *)
Definition at_ (s : string) (i : nat) : option ascii := String.get i s.

(** The double quote character. *)
Definition dquote : ascii := "034"%char.

(** [strstr(hay, needle)]: offset of the first occurrence, [None] for a
    NULL result. *)
Fixpoint strstr (hay needle : string) : option nat :=
  if String.prefix needle hay then Some 0%nat
  else match hay with
       | EmptyString => None
       | String _ rest => option_map S (strstr rest needle)
       end.

End CStr.

(* ===================================================================== *)
(** ** APR tables

    [apr_table_t] belongs to the APR library.  Its keys are compared with
    [strcasecmp]; [apr_table_setn] overwrites the value of the first entry
    with that key, removes any further entries with that key, and appends
    a new entry when there is none; [apr_table_get] returns the value of
    the first entry with that key.  Entries keep their insertion order. *)

Module AprTable.

Definition apr_table_t : Type := list (string * string).

Definition apr_table_make : apr_table_t := [].

Definition apr_table_clear (t : apr_table_t) : apr_table_t := [].

Definition remove_key (key : string) (t : apr_table_t) : apr_table_t :=
  filter (fun kv => negb (CStr.strcaseeq (fst kv) key)) t.

Fixpoint apr_table_setn (t : apr_table_t) (key val : string) : apr_table_t :=
  match t with
  | [] => [(key, val)]
  | (k, v) :: rest =>
      if CStr.strcaseeq k key then (k, val) :: remove_key key rest
      else (k, v) :: apr_table_setn rest key val
  end.

Fixpoint apr_table_get (t : apr_table_t) (key : string) : option string :=
  match t with
  | [] => None
  | (k, v) :: rest =>
      if CStr.strcaseeq k key then Some v else apr_table_get rest key
  end.

(** [apr_table_do(f, rec, t, NULL)]: run [f] over every entry in order,
    threading [rec]; stop when [f] returns 0. *)
Fixpoint apr_table_do {A : Type} (f : A -> string -> string -> bool * A)
         (rec : A) (t : apr_table_t) : A :=
  match t with
  | [] => rec
  | (k, v) :: rest =>
      let '(go, rec') := f rec k v in
      if go then apr_table_do f rec' rest else rec'
  end.

End AprTable.

(* ===================================================================== *)
(** ** Requests, pushes and URIs *)

Inductive h2_push_policy : Type :=
| H2_PUSH_NONE | H2_PUSH_DEFAULT | H2_PUSH_HEAD | H2_PUSH_FAST_LOAD.

Inductive h2_dependency : Type :=
| H2_DEPENDANT_AFTER | H2_DEPENDANT_INTERLEAVED | H2_DEPENDANT_BEFORE.

Record h2_priority : Type := mk_h2_priority {
  dependency : h2_dependency;
  weight : Z
}.

Module h2_request.
Record t : Type := mk {
  method : string;
  scheme : string;
  authority : string;
  path : string;
  headers : AprTable.apr_table_t;
  eoh : bool;
  push : bool
}.
End h2_request.

Module h2_push.
Record t : Type := mk {
  req : h2_request.t;
  priority : option h2_priority
}.
End h2_push.

Module apr_uri_t.
Record t : Type := mk {
  scheme : option string;
  hostinfo : option string;
  path : option string;
  query : option string;
  fragment : option string
}.
End apr_uri_t.

(** The APR-util URI routines the push code calls. [apr_uri_parse] gives
    [None] when it does not return [APR_SUCCESS]. *)
Class AprUri : Type := {
  apr_uri_parse : string -> option apr_uri_t.t;
  apr_uri_unparse : apr_uri_t.t -> Z -> string
}.

Definition APR_URI_UNP_OMITSITEPART : Z := 1.

(** APR's string hash, [apr_hashfunc_default], as used by [val_apr_hash]. *)
Class AprHash : Type := {
  apr_hashfunc_default : string -> Z
}.

(** Modelled from the spec: [h2_request_create] (h2_request.c, not in src/)
    builds the synthetic request from method, scheme, authority, path and
    headers. *)
Definition h2_request_create (method scheme authority path : string)
           (headers : AprTable.apr_table_t) : h2_request.t :=
  h2_request.mk method scheme authority path headers false false.

(** Modelled from the spec: [h2_request_end_headers] (h2_request.c, not in
    src/) closes the header block and records whether the request may
    itself trigger pushes. *)
Definition h2_request_end_headers (r : h2_request.t) (eos push : bool)
  : h2_request.t :=
  h2_request.mk (h2_request.method r) (h2_request.scheme r)
                (h2_request.authority r) (h2_request.path r)
                (h2_request.headers r) true push.

(** Modelled from the spec: [H2_HD_MATCH_LIT] (h2_util.h, not in src/)
    compares a header name with a literal, ignoring case, whole name only. *)
Definition H2_HD_MATCH_LIT (lit key : string) : bool := CStr.strcaseeq lit key.

(* ===================================================================== *)
(** ** Link header handling *)

Module Link.
Import AprTable.
Local Open Scope string_scope.

(** [link_ctx]; [pool] and the scratch buffer [b] carry no data.  [link]
    is read only after [read_link] has stored it. *)
Record link_ctx : Type := mk_link_ctx {
  req : h2_request.t;
  push_policy : h2_push_policy;
  pushes : option (list h2_push.t);
  s : string;
  slen : nat;
  i : nat;
  link : string;
  params : option apr_table_t
}.

Definition set_i (ctx : link_ctx) (v : nat) : link_ctx :=
  mk_link_ctx (req ctx) (push_policy ctx) (pushes ctx) (s ctx) (slen ctx)
              v (link ctx) (params ctx).

Definition set_link (ctx : link_ctx) (v : string) : link_ctx :=
  mk_link_ctx (req ctx) (push_policy ctx) (pushes ctx) (s ctx) (slen ctx)
              (i ctx) v (params ctx).

Definition set_params (ctx : link_ctx) (v : option apr_table_t) : link_ctx :=
  mk_link_ctx (req ctx) (push_policy ctx) (pushes ctx) (s ctx) (slen ctx)
              (i ctx) (link ctx) v.

Definition set_pushes (ctx : link_ctx) (v : option (list h2_push.t))
  : link_ctx :=
  mk_link_ctx (req ctx) (push_policy ctx) v (s ctx) (slen ctx)
              (i ctx) (link ctx) (params ctx).

Definition set_input (ctx : link_ctx) (str : string) (n : nat) : link_ctx :=
  mk_link_ctx (req ctx) (push_policy ctx) (pushes ctx) str n
              0%nat (link ctx) (params ctx).

(** [ctx->s[k]]; the byte after the last character is the NUL. *)
Definition chr (str : string) (k : nat) : ascii :=
  match CStr.at_ str k with Some c => c | None => Ascii.zero end.

Definition one_of (c : ascii) (set : string) : bool :=
  existsb (Ascii.eqb c) (list_ascii_of_string set).

Definition attr_char (c : ascii) : bool :=
  if one_of c "!#$&+-.^_`|~" then true else CStr.apr_isalnum c.

Definition ptoken_char (c : ascii) : bool :=
  if one_of c "!#$&'()*+-./:<=>?@[]^_`{|}~" then true
  else CStr.apr_isalnum c.

(** The scanning loops advance an index while it is below [slen] and the
    character there satisfies a test; [fuel] is the distance to [slen]. *)
Fixpoint scan_while (test : ascii -> bool) (str : string) (n : nat)
         (fuel : nat) (k : nat) : nat :=
  match fuel with
  | O => k
  | S fuel' =>
      if (k <? n)%nat && test (chr str k)
      then scan_while test str n fuel' (S k)
      else k
  end.

Definition is_wsp (c : ascii) : bool :=
  Ascii.eqb c " " || Ascii.eqb c "009".

Definition skip_ws (ctx : link_ctx) : bool * link_ctx :=
  let k := scan_while is_wsp (s ctx) (slen ctx) (slen ctx - i ctx) (i ctx) in
  ((k <? slen ctx)%nat, set_i ctx k).

Fixpoint find_chr_from (str : string) (n : nat) (c : ascii)
         (fuel : nat) (j : nat) : option nat :=
  match fuel with
  | O => None
  | S fuel' =>
      if (j <? n)%nat then
        if Ascii.eqb (chr str j) c then Some j
        else find_chr_from str n c fuel' (S j)
      else None
  end.

(** [find_chr]: [Some j] for return 1 with [*pidx = j]. *)
Definition find_chr (ctx : link_ctx) (c : ascii) : option nat :=
  find_chr_from (s ctx) (slen ctx) c (slen ctx - i ctx) (i ctx).

Definition read_chr (ctx : link_ctx) (c : ascii) : bool * link_ctx :=
  if (i ctx <? slen ctx)%nat && Ascii.eqb (chr (s ctx) (i ctx)) c
  then (true, set_i ctx (S (i ctx)))
  else (false, ctx).

Definition mk_str (ctx : link_ctx) (e : nat) : string :=
  if (i ctx <? e)%nat then String.substring (i ctx) (e - i ctx) (s ctx)
  else "".

(** The readers with an out-parameter [*ps] take its old value and give
    back its value on return. *)
Definition read_qstring (ctx : link_ctx) (ps : string)
  : bool * link_ctx * string :=
  let '(more, ctx1) := skip_ws ctx in
  if more then
    let '(got, ctx2) := read_chr ctx1 CStr.dquote in
    if got then
      match find_chr ctx2 CStr.dquote with
      | Some e => (true, set_i ctx2 (S e), mk_str ctx2 e)
      | None => (false, ctx2, ps)
      end
    else (false, ctx2, ps)
  else (false, ctx1, ps).

Definition read_ptoken (ctx : link_ctx) (ps : string)
  : bool * link_ctx * string :=
  let '(more, ctx1) := skip_ws ctx in
  if more then
    let k := scan_while ptoken_char (s ctx1) (slen ctx1)
                        (slen ctx1 - i ctx1) (i ctx1) in
    if (i ctx1 <? k)%nat then (true, set_i ctx1 k, mk_str ctx1 k)
    else (false, ctx1, ps)
  else (false, ctx1, ps).

Definition read_link (ctx : link_ctx) : bool * link_ctx :=
  let '(more, ctx1) := skip_ws ctx in
  if more then
    let '(got, ctx2) := read_chr ctx1 "<" in
    if got then
      match find_chr ctx2 ">" with
      | Some e => (true, set_i (set_link ctx2 (mk_str ctx2 e)) (S e))
      | None => (false, ctx2)
      end
    else (false, ctx2)
  else (false, ctx1).

Definition read_pname (ctx : link_ctx) (pname : string)
  : bool * link_ctx * string :=
  let '(more, ctx1) := skip_ws ctx in
  if more then
    let k := scan_while attr_char (s ctx1) (slen ctx1)
                        (slen ctx1 - i ctx1) (i ctx1) in
    if (i ctx1 <? k)%nat then (true, set_i ctx1 k, mk_str ctx1 k)
    else (false, ctx1, pname)
  else (false, ctx1, pname).

Definition read_pvalue (ctx : link_ctx) (pvalue : string)
  : bool * link_ctx * string :=
  let '(more, ctx1) := skip_ws ctx in
  if more then
    let '(got, ctx2) := read_chr ctx1 "=" in
    if got then
      let '(okq, ctx3, v3) := read_qstring ctx2 pvalue in
      if okq then (true, ctx3, v3)
      else
        let '(okt, ctx4, v4) := read_ptoken ctx3 v3 in
        if okt then (true, ctx4, v4) else (false, ctx4, v4)
    else (false, ctx2, pvalue)
  else (false, ctx1, pvalue).

(** The table behind [ctx->params]. *)
Definition table_of (ctx : link_ctx) : apr_table_t :=
  match params ctx with Some t => t | None => [] end.

Definition read_param (ctx : link_ctx) : bool * link_ctx :=
  let '(more, ctx1) := skip_ws ctx in
  if more then
    let '(got, ctx2) := read_chr ctx1 ";" in
    if got then
      let '(okn, ctx3, name) := read_pname ctx2 "" in
      if okn then
        let '(_, ctx4, value) := read_pvalue ctx3 "" in
        (true, set_params ctx4 (Some (apr_table_setn (table_of ctx4) name value)))
      else (false, ctx3)
    else (false, ctx2)
  else (false, ctx1).

Definition read_sep (ctx : link_ctx) : bool * link_ctx :=
  let '(more, ctx1) := skip_ws ctx in
  if more then read_chr ctx1 "," else (false, ctx1).

Definition init_params (ctx : link_ctx) : link_ctx :=
  match params ctx with
  | None => set_params ctx (Some apr_table_make)
  | Some t => set_params ctx (Some (apr_table_clear t))
  end.

Definition same_authority (r : h2_request.t) (uri : apr_uri_t.t) : bool :=
  match apr_uri_t.scheme uri with
  | Some sch => CStr.streq sch (h2_request.scheme r)
  | None => true
  end
  &&
  match apr_uri_t.hostinfo uri with
  | Some h => CStr.streq h (h2_request.authority r)
  | None => true
  end.

Definition set_push_header (hd : apr_table_t) (key value : string)
  : bool * apr_table_t :=
  if H2_HD_MATCH_LIT "User-Agent" key
     || H2_HD_MATCH_LIT "Accept" key
     || H2_HD_MATCH_LIT "Accept-Encoding" key
     || H2_HD_MATCH_LIT "Accept-Language" key
     || H2_HD_MATCH_LIT "Cache-Control" key
  then (true, apr_table_setn hd key value)
  else (true, hd).

Definition has_param (ctx : link_ctx) (param : string) : bool :=
  match apr_table_get (table_of ctx) param with
  | Some _ => true
  | None => false
  end.

Definition has_relation (ctx : link_ctx) (rel : string) : bool :=
  match apr_table_get (table_of ctx) "rel" with
  | Some val =>
      if CStr.streq rel val then true
      else
        match CStr.strstr val rel with
        | Some k =>
            if (k =? 0)%nat || Ascii.eqb (chr val (k - 1)) " " then
              let e := (k + String.length rel)%nat in
              Ascii.eqb (chr val e) Ascii.zero || Ascii.eqb (chr val e) " "
            else false
        | None => false
        end
  | None => false
  end.

Section WithUri.
Context {U : AprUri}.

Definition add_push (ctx : link_ctx) : Z * link_ctx :=
  if has_relation ctx "preload" && negb (has_param ctx "nopush") then
    match apr_uri_parse (link ctx) with
    | Some uri =>
        match apr_uri_t.path uri with
        | Some _ =>
            if same_authority (req ctx) uri then
              let path := apr_uri_unparse uri APR_URI_UNP_OMITSITEPART in
              let method :=
                match push_policy ctx with
                | H2_PUSH_HEAD => "HEAD"
                | _ => "GET"
                end in
              let headers :=
                apr_table_do set_push_header apr_table_make
                             (h2_request.headers (req ctx)) in
              let r := h2_request_create method
                         (h2_request.scheme (req ctx))
                         (h2_request.authority (req ctx)) path headers in
              (* atm, we do not push on pushes *)
              let r := h2_request_end_headers r true false in
              let prio :=
                if has_param ctx "critical"
                then Some (mk_h2_priority H2_DEPENDANT_BEFORE 0)
                else None in
              let push := h2_push.mk r prio in
              let old := match pushes ctx with Some l => l | None => [] end in
              (0, set_pushes ctx (Some (old ++ [push])%list))
            else (0, ctx)
        | None => (0, ctx)
        end
    | None => (0, ctx)
    end
  else (0, ctx).

(** [while (read_param(ctx)) {}]; every successful turn consumes a
    [;], so [fuel] = characters left bounds the turns. *)
Fixpoint read_params (fuel : nat) (ctx : link_ctx) : link_ctx :=
  let '(ok, ctx') := read_param ctx in
  if ok then
    match fuel with
    | O => ctx'
    | S fuel' => read_params fuel' ctx'
    end
  else ctx'.

(** The [while (read_link(ctx))] loop of [inspect_link]. *)
Fixpoint inspect_links (fuel : nat) (ctx : link_ctx) : link_ctx :=
  let '(ok, ctx1) := read_link ctx in
  if ok then
    let ctx2 := init_params ctx1 in
    let ctx3 := read_params (slen ctx2) ctx2 in
    let '(_, ctx4) := add_push ctx3 in
    let '(sep, ctx5) := read_sep ctx4 in
    if sep then
      match fuel with
      | O => ctx5
      | S fuel' => inspect_links fuel' ctx5
      end
    else ctx5
  else ctx1.

Definition inspect_link (ctx : link_ctx) (str : string) (n : nat)
  : link_ctx :=
  inspect_links n (set_input ctx str n).

(** On header names, which hold neither blanks nor digits,
    [apr_strnatcasecmp] is equality up to letter case. *)
Definition head_iter (ctx : link_ctx) (key value : string)
  : bool * link_ctx :=
  if CStr.strcaseeq "link" key
  then (true, inspect_link ctx value (String.length value))
  else (true, ctx).

Definition policy_str (policy : h2_push_policy) : string :=
  match policy with
  | H2_PUSH_NONE => "none"
  | H2_PUSH_FAST_LOAD => "fast-load"
  | H2_PUSH_HEAD => "head"
  | _ => "default"
  end.

(** [h2_push_collect]; [req] and [res->headers] may be NULL.  The
    result is the pushes array (NULL when nothing was collected) and
    the response headers, which gain [push-policy] when pushes exist. *)
Definition h2_push_collect (r : option h2_request.t)
           (policy : h2_push_policy) (res_headers : option apr_table_t)
  : option (list h2_push.t) * option apr_table_t :=
  match r, policy with
  | None, _ | _, H2_PUSH_NONE => (None, res_headers)
  | Some rq, _ =>
      match res_headers with
      | Some hd =>
          let ctx0 := mk_link_ctx rq policy None "" 0%nat 0%nat "" None in
          let ctx := apr_table_do head_iter ctx0 hd in
          match pushes ctx with
          | Some l =>
              (Some l, Some (apr_table_setn hd "push-policy" (policy_str policy)))
          | None => (None, res_headers)
          end
      | None => (None, res_headers)
      end
  end.

End WithUri.

End Link.

(* ===================================================================== *)
(** ** SHA-256 (FIPS 180-4) and the OpenSSL EVP calls

    [calc_sha256_hash] feeds OpenSSL's [EVP_sha256].  The digest is
    written out here after FIPS 180-4 on 32-bit words held in [Z], so that
    the hash of a concrete push can be evaluated. *)

Module SHA256.

Definition add32 (a b : Z) : Z := CInt.u32 (a + b).

Definition rotr (n x : Z) : Z :=
  Z.lor (Z.shiftr x n) (CInt.u32 (Z.shiftl x (32 - n))).

Definition Ch (x y z : Z) : Z :=
  Z.lxor (Z.land x y) (Z.land (Z.lxor x 0xffffffff) z).

Definition Maj (x y z : Z) : Z :=
  Z.lxor (Z.lxor (Z.land x y) (Z.land x z)) (Z.land y z).

Definition Sigma0 (x : Z) : Z :=
  Z.lxor (Z.lxor (rotr 2 x) (rotr 13 x)) (rotr 22 x).

Definition Sigma1 (x : Z) : Z :=
  Z.lxor (Z.lxor (rotr 6 x) (rotr 11 x)) (rotr 25 x).

Definition sigma0 (x : Z) : Z :=
  Z.lxor (Z.lxor (rotr 7 x) (rotr 18 x)) (Z.shiftr x 3).

Definition sigma1 (x : Z) : Z :=
  Z.lxor (Z.lxor (rotr 17 x) (rotr 19 x)) (Z.shiftr x 10).

(** The round constants are the first 32 bits of the fractional parts of
    the cube roots of the first 64 primes, the initial hash value those of
    the square roots of the first 8. *)
Definition is_prime (n : nat) : bool :=
  (2 <=? n)%nat
  && forallb (fun d => negb (n mod d =? 0)%nat) (seq 2 (n - 2)).

Definition primes64 : list Z :=
  Eval vm_compute in map Z.of_nat (filter is_prime (seq 2 310)).

(** The largest [r] below [2^k] with [r^e <= n], found bit by bit. *)
Fixpoint int_root (k : nat) (e n r : Z) : Z :=
  match k with
  | O => r
  | S k' =>
      let r' := r + 2 ^ Z.of_nat k' in
      if r' ^ e <=? n then int_root k' e n r' else int_root k' e n r
  end.

Definition frac_root (e p : Z) : Z :=
  CInt.u32 (int_root 40 e (p * 2 ^ (32 * e)) 0).

Definition K : list Z := Eval vm_compute in map (frac_root 3) primes64.

Definition H0 : list Z :=
  Eval vm_compute in map (frac_root 2) (firstn 8 primes64).

(** Big-endian value of a byte sequence. *)
Definition be_int (bs : list Z) : Z :=
  fold_left (fun acc b => acc * 256 + b) bs 0.

(** The [n] low bytes of [v], most significant first. *)
Fixpoint be_bytes (n : nat) (v : Z) : list Z :=
  match n with
  | O => []
  | S n' => (Z.shiftr v (8 * Z.of_nat n')) mod 256 :: be_bytes n' v
  end.

(** Padding: a one bit, zeros up to 56 mod 64, the bit length on 8 bytes. *)
Definition pad (msg : list Z) : list Z :=
  let len := Z.of_nat (List.length msg) in
  msg ++ [0x80] ++ repeat 0 (Z.to_nat ((55 - len) mod 64))
      ++ be_bytes 8 (8 * len).

Fixpoint words (n : nat) (bs : list Z) : list Z :=
  match n with
  | O => []
  | S n' => be_int (firstn 4 bs) :: words n' (skipn 4 bs)
  end.

(** The message schedule, most recent word first: [rw] holds
    [W(t-1), W(t-2), ...]. *)
Fixpoint schedule (n : nat) (rw : list Z) : list Z :=
  match n with
  | O => rw
  | S n' =>
      let w := add32 (add32 (sigma1 (nth 1 rw 0)) (nth 6 rw 0))
                     (add32 (sigma0 (nth 14 rw 0)) (nth 15 rw 0)) in
      schedule n' (w :: rw)
  end.

Definition round (st : list Z) (kw : Z * Z) : list Z :=
  match st with
  | [a; b; c; d; e; f; g; h] =>
      let t1 := add32 (add32 (add32 h (Sigma1 e)) (add32 (Ch e f g) (fst kw)))
                      (snd kw) in
      let t2 := add32 (Sigma0 a) (Maj a b c) in
      [add32 t1 t2; a; b; c; add32 d t1; e; f; g]
  | _ => st
  end.

Definition compress (hs : list Z) (block : list Z) : list Z :=
  let w := rev (schedule 48 (rev (words 16 block))) in
  let st := fold_left round (combine K w) hs in
  map (fun p => add32 (fst p) (snd p)) (combine hs st).

Fixpoint blocks (n : nat) (hs : list Z) (bs : list Z) : list Z :=
  match n with
  | O => hs
  | S n' => blocks n' (compress hs (firstn 64 bs)) (skipn 64 bs)
  end.

Definition sha256 (msg : list Z) : list Z :=
  let p := pad msg in
  flat_map (be_bytes 4) (blocks (List.length p / 64) H0 p).

(** The EVP digest context: the bytes fed so far. *)
Definition EVP_MD_CTX : Type := list Z.
Definition EVP_DigestInit_ex : EVP_MD_CTX := [].
Definition EVP_DigestUpdate (md : EVP_MD_CTX) (data : list Z) : EVP_MD_CTX :=
  md ++ data.
Definition EVP_DigestFinal (md : EVP_MD_CTX) : list Z := sha256 md.

End SHA256.

(* ===================================================================== *)
(** ** The push diary *)

Definition apr_status_t : Type := Z.
Definition APR_SUCCESS : apr_status_t := 0.
Definition APR_ENOMEM : apr_status_t := 12.

Module Diary.

Inductive h2_push_digest_type : Type :=
| H2_PUSH_DIGEST_APR_HASH
| H2_PUSH_DIGEST_SHA256.

Record h2_push_diary_entry : Type := mk_entry { hash : Z }.

(** [h2_push_diary] (declared in h2_push.h).  [entries] is the APR array,
    oldest entry first, [nelts] its length.  The [dcalc] function pointer
    is fixed by [dtype] in [diary_create]; it is not stored apart. *)
Record h2_push_diary : Type := mk_diary {
  entries : list h2_push_diary_entry;
  NMax : Z;
  N : Z;
  mask_bits : Z;
  authority : option string;
  dtype : h2_push_digest_type
}.

Definition nelts (d : h2_push_diary) : Z := Z.of_nat (List.length (entries d)).

Definition set_entries (d : h2_push_diary) (es : list h2_push_diary_entry)
  : h2_push_diary :=
  mk_diary es (NMax d) (N d) (mask_bits d) (authority d) (dtype d).

Record h2_session : Type := mk_session {
  push_diary : option h2_push_diary
}.

(** The string the SHA-256 hash is taken of. *)
Definition sha256_input (push : h2_push.t) : list Z :=
  let r := h2_push.req push in
  let md := SHA256.EVP_DigestInit_ex in
  let md := SHA256.EVP_DigestUpdate md (CStr.bytes (h2_request.scheme r)) in
  let md := SHA256.EVP_DigestUpdate md (CStr.bytes "://") in
  let md := SHA256.EVP_DigestUpdate md (CStr.bytes (h2_request.authority r)) in
  let md := SHA256.EVP_DigestUpdate md (CStr.bytes (h2_request.path r)) in
  md.

Definition calc_sha256_hash (diary : h2_push_diary) (push : h2_push.t) : Z :=
  let hash := SHA256.EVP_DigestFinal (sha256_input push) in
  let val := fold_left (fun val b => CInt.u64 (val * 256 + b)) hash 0 in
  Z.shiftr val (64 - mask_bits diary).

Section WithHash.
Context {H : AprHash}.

Definition val_apr_hash (str : string) : Z :=
  CInt.u32 (apr_hashfunc_default str).

Definition calc_apr_hash (diary : h2_push_diary) (push : h2_push.t) : Z :=
  let r := h2_push.req push in
  let val := CInt.u64 (Z.shiftl (val_apr_hash (h2_request.scheme r)) 32) in
  let val := Z.lxor val
               (CInt.u64 (Z.shiftl (val_apr_hash (h2_request.authority r)) 16)) in
  let val := Z.lxor val (val_apr_hash (h2_request.path r)) in
  val.

(** [diary->dcalc(diary, &hash, push)] *)
Definition dcalc (diary : h2_push_diary) (push : h2_push.t) : Z :=
  match dtype diary with
  | H2_PUSH_DIGEST_SHA256 => calc_sha256_hash diary push
  | H2_PUSH_DIGEST_APR_HASH => calc_apr_hash diary push
  end.
End WithHash.

Definition ceil_power_of_2 (n : Z) : Z :=
  if n <=? 2 then 2
  else
    let n := n - 1 in
    let n := Z.lor n (Z.shiftr n 1) in
    let n := Z.lor n (Z.shiftr n 2) in
    let n := Z.lor n (Z.shiftr n 4) in
    let n := Z.lor n (Z.shiftr n 8) in
    let n := Z.lor n (Z.shiftr n 16) in
    CInt.s32 (n + 1).

(** [diary_create], built with [H2_OPENSSL]; [None] is the NULL result. *)
Definition diary_create (dt : h2_push_digest_type) (n : Z)
  : option h2_push_diary :=
  if 0 <? n then
    let nmax := ceil_power_of_2 n in
    Some (mk_diary [] nmax nmax 64 None
                   (match dt with
                    | H2_PUSH_DIGEST_SHA256 => H2_PUSH_DIGEST_SHA256
                    | _ => H2_PUSH_DIGEST_APR_HASH
                    end))
  else None.

Definition h2_push_diary_create (n : Z) : option h2_push_diary :=
  diary_create H2_PUSH_DIGEST_SHA256 n.

(** The downward scan of [h2_push_diary_find]: [k] entries are left to
    look at, the next one is at index [k - 1]. *)
Fixpoint find_down (es : list h2_push_diary_entry) (k : nat) (h : Z) : Z :=
  match k with
  | O => -1
  | S j =>
      match nth_error es j with
      | Some e => if hash e =? h then Z.of_nat j else find_down es j h
      | None => find_down es j h
      end
  end.

Definition h2_push_diary_find (diary : option h2_push_diary) (h : Z) : Z :=
  match diary with
  | Some d => find_down (entries d) (List.length (entries d)) h
  | None => -1
  end.

Definition move_to_last (diary : h2_push_diary) (idx : Z) : h2_push_diary :=
  if nelts diary <=? 0 then diary
  else
    let lastidx := nelts diary - 1 in
    if idx <? lastidx then
      let k := Z.to_nat idx in
      match nth_error (entries diary) k with
      | Some e =>
          set_entries diary
            (firstn k (entries diary) ++ skipn (S k) (entries diary) ++ [e])
      | None => diary
      end
    else diary.

Definition remove_first (diary : h2_push_diary) : h2_push_diary :=
  let lastidx := nelts diary - 1 in
  if 0 <? lastidx then set_entries diary (tl (entries diary))
  else diary.

(** [while (nelts >= N) remove_first(diary);].  A turn either shortens
    the array or leaves it as it is, and then every later turn does the
    same; [None] stands for the loop that never exits. *)
Fixpoint evict_loop (fuel : nat) (diary : h2_push_diary)
  : option h2_push_diary :=
  if N diary <=? nelts diary then
    match fuel with
    | O => None
    | S fuel' => evict_loop fuel' (remove_first diary)
    end
  else Some diary.

Definition h2_push_diary_append (diary : h2_push_diary)
           (e : h2_push_diary_entry) : option h2_push_diary :=
  match evict_loop (S (List.length (entries diary))) diary with
  | Some d => Some (set_entries d (entries d ++ [e]))
  | None => None
  end.

Section WithHash.
Context {H : AprHash}.

(** The [for] loop of [h2_push_diary_update] over the candidates. *)
Fixpoint update_loop (diary : h2_push_diary)
         (npushes : option (list h2_push.t)) (pushes : list h2_push.t)
  : option (h2_push_diary * option (list h2_push.t)) :=
  match pushes with
  | [] => Some (diary, npushes)
  | push :: rest =>
      let e := mk_entry (dcalc diary push) in
      let idx := h2_push_diary_find (Some diary) (hash e) in
      if 0 <=? idx then
        update_loop (move_to_last diary idx) npushes rest
      else
        let np := match npushes with Some l => l | None => [] end in
        match h2_push_diary_append diary e with
        | Some d => update_loop d (Some (np ++ [push])) rest
        | None => None
        end
  end.

(** [h2_push_diary_update]: the session after the call and the array
    returned ([None] for NULL); the outer [None] is a call that does
    not return. *)
Definition h2_push_diary_update (session : h2_session)
           (pushes : option (list h2_push.t))
  : option (h2_session * option (list h2_push.t)) :=
  match push_diary session, pushes with
  | Some d, Some ps =>
      match update_loop d None ps with
      | Some (d', np) => Some (mk_session (Some d'), np)
      | None => None
      end
  | _, _ => Some (session, pushes)
  end.
End WithHash.

End Diary.

(* ===================================================================== *)
(** ** The cache digest encoder *)

Module Gset.
Import Diary.

(** Modelled from the spec: [h2_log2] (h2_util.c, not in src/) is the
    base-2 logarithm of section 4.4, returned as an [unsigned char].  It
    is taken of the 32 bits of its [int] argument: the position of the
    highest bit set, so that the [INT_MIN] to which [ceil_power_of_2]
    wraps for a size above 2^30 has logarithm 31, and 0 has 0. *)
Definition h2_log2 (n : Z) : Z := CInt.u8 (Z.log2 (CInt.u32 n)).

(** Modelled from the spec: [H2MIN] (h2.h, not in src/) is the minimum. *)
Definition H2MIN (a b : Z) : Z := Z.min a b.

(** [gset_encoder]; [data] is the buffer of [datalen] bytes. *)
Record gset_encoder : Type := mk_encoder {
  diary : h2_push_diary;
  log2p : Z;
  mask_bits : Z;
  delta_bits : Z;
  fixed_bits : Z;
  fixed_mask : Z;
  data : list Z;
  datalen : Z;
  offset : Z;
  bit : Z;
  last : Z
}.

Definition set_buf (enc : gset_encoder) (dat : list Z) (len off b : Z)
  : gset_encoder :=
  mk_encoder (diary enc) (log2p enc) (mask_bits enc) (delta_bits enc)
             (fixed_bits enc) (fixed_mask enc) dat len off b (last enc).

Definition set_last (enc : gset_encoder) (v : Z) : gset_encoder :=
  mk_encoder (diary enc) (log2p enc) (mask_bits enc) (delta_bits enc)
             (fixed_bits enc) (fixed_mask enc) (data enc) (datalen enc)
             (offset enc) (bit enc) v.

(** [a[k] = v] on a buffer; nothing is stored outside it. *)
Fixpoint array_set (a : list Z) (k : nat) (v : Z) : list Z :=
  match a, k with
  | [], _ => []
  | _ :: r, O => v :: r
  | x :: r, S k' => x :: array_set r k' v
  end.

Definition array_get (a : list Z) (k : nat) : Z := nth k a 0.

Definition cmp_puint64 (u1 u2 : Z) : Z :=
  if u2 <? u1 then 1 else if u1 =? u2 then 0 else -1.

Definition cbit_mask : list Z :=
  [0x80; 0x40; 0x20; 0x10; 0x08; 0x04; 0x02; 0x01].

(** [apr_pcalloc] is taken to succeed, so the [APR_ENOMEM] return is
    never taken. *)
Definition gset_encode_bit (enc : gset_encoder) (b : Z)
  : apr_status_t * gset_encoder :=
  let bit1 := CInt.u32 (bit enc + 1) in
  let enc1 :=
    if 8 <=? bit1 then
      let off := offset enc + 1 in
      let '(dat, len) :=
        if datalen enc <=? off then
          let nlen := datalen enc * 2 in
          (firstn (Z.to_nat (datalen enc)) (data enc)
             ++ repeat 0 (Z.to_nat (nlen - datalen enc)), nlen)
        else (data enc, datalen enc) in
      set_buf enc (array_set dat (Z.to_nat off) 0xff) len off 0
    else set_buf enc (data enc) (datalen enc) (offset enc) bit1 in
  let enc2 :=
    if b =? 0 then
      let k := Z.to_nat (offset enc1) in
      let m := nth (Z.to_nat (bit enc1)) cbit_mask 0 in
      set_buf enc1
        (array_set (data enc1) k
           (CInt.u8 (Z.land (array_get (data enc1) k) (Z.lnot m))))
        (datalen enc1) (offset enc1) (bit enc1)
    else enc1 in
  (APR_SUCCESS, enc2).

(** [for (; flex_bits != 0; --flex_bits)] *)
Fixpoint encode_flex (flex_bits : nat) (enc : gset_encoder)
  : apr_status_t * gset_encoder :=
  match flex_bits with
  | O => (APR_SUCCESS, enc)
  | S n =>
      let '(status, enc') := gset_encode_bit enc 1 in
      if status =? APR_SUCCESS then encode_flex n enc' else (status, enc')
  end.

(** [for (i = fixed_bits-1; i >= 0; --i)], with [n = i + 1]. *)
Fixpoint encode_fixed (n : nat) (delta : Z) (enc : gset_encoder)
  : apr_status_t * gset_encoder :=
  match n with
  | O => (APR_SUCCESS, enc)
  | S i =>
      let '(status, enc') :=
        gset_encode_bit enc (Z.land (Z.shiftr delta (Z.of_nat i)) 1) in
      if status =? APR_SUCCESS then encode_fixed i delta enc'
      else (status, enc')
  end.

Definition gset_encode_next (enc : gset_encoder) (pval : Z)
  : apr_status_t * gset_encoder :=
  let delta := CInt.u64 (pval - last enc) in
  let enc := set_last enc pval in
  let flex_bits := Z.shiftr delta (fixed_bits enc) in
  let '(status, enc) := encode_flex (Z.to_nat flex_bits) enc in
  if negb (status =? APR_SUCCESS) then (status, enc)
  else
    let '(status, enc) := gset_encode_bit enc 0 in
    if negb (status =? APR_SUCCESS) then (status, enc)
    else
      let '(status, enc) := encode_fixed (Z.to_nat (fixed_bits enc)) delta enc in
      if negb (status =? APR_SUCCESS) then (status, enc)
      else (APR_SUCCESS, enc).

(** [qsort(hashes, hash_count, sizeof(apr_uint64_t), cmp_puint64)]: the
    C library sorts the array into ascending order under the comparison;
    this is the insertion sort doing so. *)
Fixpoint qsort_insert (x : Z) (l : list Z) : list Z :=
  match l with
  | [] => [x]
  | y :: r => if cmp_puint64 x y <=? 0 then x :: y :: r
              else y :: qsort_insert x r
  end.

Fixpoint qsort (l : list Z) : list Z :=
  match l with
  | [] => []
  | x :: r => qsort_insert x (qsort r)
  end.

(** The encoding loop over the sorted array: [prev] is [hashes[i-1]],
    absent for [i = 0]. *)
Fixpoint encode_hashes (enc : gset_encoder) (prev : option Z)
         (hashes : list Z) : gset_encoder :=
  match hashes with
  | [] => enc
  | h :: r =>
      let fresh := match prev with
                   | None => true
                   | Some p => negb (h =? p)
                   end in
      let enc' := if fresh then snd (gset_encode_next enc h) else enc in
      encode_hashes enc' (Some h) r
  end.

Definition authority_matches (d : h2_push_diary) (auth : option string)
  : bool :=
  match auth, Diary.authority d with
  | None, _ => true
  | _, None => true
  | Some a, Some da => CStr.streq "*" a || CStr.streq da a
  end.

(** [apr_pcalloc(pool, size)] (APR): a zeroed block; APR hands out
    memory in whole units of 8 bytes ([APR_ALIGN_DEFAULT]), and this is
    the number of bytes of the block. *)
Definition apr_pcalloc_size (size : Z) : Z := 8 * ((size + 7) / 8).

(** [hashes[i] = v], for the values in order from index [i] on: each
    store takes the 8 bytes from byte [8 * i] of a block of [size] bytes.
    [None] when a store does not lie inside the block; the array as
    stored otherwise. *)
Fixpoint store_hashes (size : Z) (i : Z) (vals : list Z)
  : option (list Z) :=
  match vals with
  | [] => Some []
  | v :: rest =>
      if 8 * i + 8 <=? size then
        match store_hashes size (i + 1) rest with
        | Some l => Some (v :: l)
        | None => None
        end
      else None
  end.

(** [h2_push_diary_digest_get]: the status, the diary after the call,
    and [*pdata], [*plen].  The [hashes] scratch array is the block
    [apr_pcalloc(encoder.pool, hash_count)], of [hash_count] bytes and
    not of [hash_count] 64-bit values; [None] stands for a call that
    stores outside that block, after which the C program has no defined
    behaviour. *)
Definition h2_push_diary_digest_get (d : h2_push_diary) (maxP : Z)
           (auth : option string)
  : option (apr_status_t * h2_push_diary * list Z * Z) :=
  let nelts := Diary.nelts d in
  let n := ceil_power_of_2 nelts in
  let log2n := h2_log2 n in
  let log2pmax := h2_log2 (ceil_power_of_2 maxP) in
  let lp := CInt.u8 (H2MIN (Diary.mask_bits d - log2n) log2pmax) in
  let mb := log2n + lp in
  let db := Diary.mask_bits d - mb in
  let fmask := CInt.u64 (CInt.u64 (Z.shiftl 1 lp) - 1) in
  let dat := array_set (array_set (repeat 0 512) 0 log2n) 1 lp in
  let encoder := mk_encoder d lp mb db lp fmask dat 512 1 8 0 in
  if authority_matches d auth then
    let hash_count := Diary.nelts d in
    let size := apr_pcalloc_size hash_count in
    match store_hashes size 0
            (map (fun e => Z.shiftr (hash e) (delta_bits encoder))
                 (entries d)) with
    | Some hashes =>
        let encoder := encode_hashes encoder None (qsort hashes) in
        Some (APR_SUCCESS, d, data encoder, offset encoder + 1)
    | None => None
    end
  else Some (APR_SUCCESS, d, data encoder, offset encoder + 1).

(** The [*plen] bytes at [*pdata]. *)
Definition digest_bytes (r : apr_status_t * h2_push_diary * list Z * Z)
  : list Z :=
  let '(_, _, dat, len) := r in firstn (Z.to_nat len) dat.

End Gset.

(* ===================================================================== *)
(** ** The digest as the specification words it

    A second, independent description of the header bytes and of the
    coding of the bytes after them: drop adjacent duplicates, take first
    differences, Golomb-Rice code them, pack the bits from the high end of
    each byte.  The export of [Gset] is compared with it below. *)

Module GolombRice.

(** Adjacent equal values collapse to one. *)
Fixpoint dedup_adjacent (l : list Z) : list Z :=
  match l with
  | [] => []
  | x :: r =>
      match r with
      | [] => [x]
      | y :: _ => if x =? y then dedup_adjacent r else x :: dedup_adjacent r
      end
  end.

(** First differences, the first one relative to [prev]. *)
Fixpoint deltas (prev : Z) (l : list Z) : list Z :=
  match l with
  | [] => []
  | x :: r => (x - prev) :: deltas x r
  end.

(** Quotient in unary (ones, then a zero), remainder on [log2p] bits,
    most significant first. *)
Definition code (log2p : Z) (delta : Z) : list bool :=
  repeat true (Z.to_nat (Z.shiftr delta log2p))
    ++ [false]
    ++ map (fun k => Z.testbit delta (Z.of_nat k)) (rev (seq 0 (Z.to_nat log2p))).

Definition b2z (b : bool) : Z := if b then 1 else 0.

(** Byte [k] of the packed stream: bit [8k] is its highest bit; positions
    past the end of the stream read as one. *)
Definition byte_at (bits : list bool) (k : nat) : Z :=
  let b j := b2z (nth (8 * k + j) bits true) in
  128 * b 0%nat + 64 * b 1%nat + 32 * b 2%nat + 16 * b 3%nat
  + 8 * b 4%nat + 4 * b 5%nat + 2 * b 6%nat + b 7%nat.

Definition nbytes (nbits : nat) : nat := (nbits + 7) / 8.

Definition pack (bits : list bool) : list Z :=
  map (byte_at bits) (seq 0 (nbytes (List.length bits))).

(** The smallest power of two that is at least [n] and at least 2. *)
Definition ceil_pow2 (n : Z) : Z := 2 ^ Z.log2_up (Z.max 2 n).

(** The two header bytes of a digest for [n] entries of [mask_bits] bits
    and the chosen [maxP]: [log2(ceil_pow2(n))] and
    [min(mask_bits - log2n, log2(ceil_pow2(maxP)))]. *)
Definition header_log2n (n : Z) : Z := Z.log2 (ceil_pow2 n).

Definition header_log2p (mask_bits n maxP : Z) : Z :=
  Z.min (mask_bits - header_log2n n) (Z.log2 (ceil_pow2 maxP)).

End GolombRice.

(* ===================================================================== *)
(** ** Reachable diaries and runs of updates *)

Module Run.
Import Diary.

Section WithHash.
Context {H : AprHash}.

(** The diaries a session can hold: created with a size that
    [ceil_power_of_2] rounds without leaving the [int] range, then
    changed by [h2_push_diary_update] and read by the digest export. *)
Inductive reachable : h2_push_diary -> Prop :=
| reach_create : forall dt n d,
    0 < n <= 2 ^ 30 ->
    diary_create dt n = Some d ->
    reachable d
| reach_update : forall d pushes d' r,
    reachable d ->
    h2_push_diary_update (mk_session (Some d)) pushes
      = Some (mk_session (Some d'), r) ->
    reachable d'
| reach_digest : forall d maxP auth st d' dat len,
    reachable d ->
    Gset.h2_push_diary_digest_get d maxP auth = Some (st, d', dat, len) ->
    reachable d'.

(** [h2_push_collect_update]: the stream gives its push policy and its
    session; the response headers after the call come back as well. *)
Definition h2_push_collect_update {U : AprUri} (session : h2_session)
           (policy : h2_push_policy) (r : option h2_request.t)
           (res_headers : option AprTable.apr_table_t)
  : option (h2_session * option (list h2_push.t))
    * option AprTable.apr_table_t :=
  let '(pushes, hd) := Link.h2_push_collect r policy res_headers in
  (h2_push_diary_update session pushes, hd).

(** Successive [h2_push_diary_update] calls on one session, one per
    batch of candidates. *)
Fixpoint update_all (session : h2_session) (batches : list (list h2_push.t))
  : option h2_session :=
  match batches with
  | [] => Some session
  | b :: rest =>
      match h2_push_diary_update session (Some b) with
      | Some (session', _) => update_all session' rest
      | None => None
      end
  end.
End WithHash.

(** What the diary maintains. *)
Definition diary_inv (d : h2_push_diary) : Prop :=
  2 <= N d <= 2 ^ 30
  /\ nelts d <= N d
  /\ Diary.mask_bits d = 64
  /\ Forall (fun e => 0 <= hash e < 2 ^ 64) (entries d).

(** The array a call returns, NULL read as no candidates. *)
Definition returned (r : option (list h2_push.t)) : list h2_push.t :=
  match r with Some l => l | None => [] end.

Definition same_triple (a b : h2_push.t) : Prop :=
  h2_request.scheme (h2_push.req a) = h2_request.scheme (h2_push.req b)
  /\ h2_request.authority (h2_push.req a) = h2_request.authority (h2_push.req b)
  /\ h2_request.path (h2_push.req a) = h2_request.path (h2_push.req b).

(** Entries of a diary that carry hash [h]. *)
Definition count_hash (d : h2_push_diary) (h : Z) : nat :=
  List.length (filter (fun e => hash e =? h) (entries d)).

End Run.

(* ===================================================================== *)
(** ** Library instances used in the examples *)

Module Sample.
Local Open Scope string_scope.

(** APR's default string hash: [hash = hash * 33 + c] over the bytes. *)
Definition times33 (str : string) : Z :=
  fold_left (fun h c => CInt.u32 (h * 33 + c)) (CStr.bytes str) 0.

#[export] Instance hash33 : AprHash := {| apr_hashfunc_default := times33 |}.

(** A URI splitter for references of the shapes [scheme://hostinfo/path]
    and [/path], which is all the examples need of [apr_uri_parse]. *)
Definition split_uri (u : string) : option apr_uri_t.t :=
  match CStr.strstr u "://" with
  | Some k =>
      let rest := String.substring (k + 3) (String.length u) u in
      match CStr.strstr rest "/" with
      | Some j =>
          Some (apr_uri_t.mk (Some (String.substring 0 k u))
                             (Some (String.substring 0 j rest))
                             (Some (String.substring j (String.length rest) rest))
                             None None)
      | None =>
          Some (apr_uri_t.mk (Some (String.substring 0 k u)) (Some rest)
                             None None None)
      end
  | None => Some (apr_uri_t.mk None None (Some u) None None)
  end.

Definition unparse_path (uri : apr_uri_t.t) (flags : Z) : string :=
  match apr_uri_t.path uri with Some p => p | None => "" end.

#[export] Instance uri_split : AprUri :=
  {| apr_uri_parse := split_uri; apr_uri_unparse := unparse_path |}.

Definition request (sch auth pth : string) : h2_request.t :=
  h2_request.mk "GET" sch auth pth [] true false.

Definition candidate (pth : string) : h2_push.t :=
  h2_push.mk (request "https" "example.com" pth) None.

Definition link_ctx0 (str : string) : Link.link_ctx :=
  Link.mk_link_ctx (request "https" "example.com" "/index.html")
                   H2_PUSH_DEFAULT None str (String.length str) 0%nat ""
                   (Some []).

End Sample.

(* ===================================================================== *)
(** ** Relation tokens, as the specification words them *)

Module RelTokens.
Local Open Scope string_scope.

(** [rel] occurs in [val] as a whole token: it starts at the beginning
    of [val] or after a space, and ends at the end of [val] or before a
    space. *)
Definition whole_token (rel val : string) : Prop :=
  exists pre post,
    val = pre ++ rel ++ post
    /\ (pre = "" \/ exists p, pre = p ++ " ")
    /\ (post = "" \/ exists q, post = " " ++ q).

End RelTokens.

(* ===================================================================== *)
(** ** Concrete inputs *)

Module Cases.
Import Diary Link.
Local Open Scope string_scope.

(** The name and the value [read_param] reads at the cursor: the run of
    attr-chars after the [;] and the value after the [=], empty when
    there is none. *)
Definition param_at (ctx : link_ctx) : string * string :=
  let ctx1 := snd (skip_ws ctx) in
  let ctx2 := snd (read_chr ctx1 ";") in
  let '(_, ctx3, name) := read_pname ctx2 "" in
  let '(_, _, value) := read_pvalue ctx3 "" in
  (name, value).

(** A string between double quotes. *)
Definition quoted (str : string) : string :=
  String CStr.dquote (str ++ String CStr.dquote "").

(** The context after the parameters of a link-value have been read. *)
Definition params_read (str : string) : link_ctx :=
  read_params (String.length str) (Sample.link_ctx0 str).

(** The context after [read_link], [init_params] and the parameters. *)
Definition link_read (str : string) : link_ctx :=
  let ctx := init_params (snd (read_link (Sample.link_ctx0 str))) in
  read_params (String.length str) ctx.

Definition other_host : link_ctx :=
  link_read "<https://other.com/x>; rel=preload".

Definition other_host_uri : apr_uri_t.t :=
  apr_uri_t.mk (Some "https") (Some "other.com") (Some "/x") None None.

Definition rel_twice_1 : link_ctx :=
  snd (read_param (Sample.link_ctx0 "; rel=prefetch; REL=preload")).

Definition rel_twice_2 : link_ctx := snd (read_param rel_twice_1).

Definition empty4 (dt : h2_push_digest_type) : h2_push_diary :=
  mk_diary [] 4 4 64 None dt.

Definition full4 : h2_push_diary :=
  mk_diary [mk_entry 548140559631976048; mk_entry 548140559631976049;
            mk_entry 548140559631976050; mk_entry 548140559631976051]
           4 4 64 None H2_PUSH_DIGEST_APR_HASH.

Definition abcd : list h2_push.t :=
  [Sample.candidate "/a"; Sample.candidate "/b";
   Sample.candidate "/c"; Sample.candidate "/d"].

Definition style_head : h2_push.t :=
  h2_push.mk (h2_request.mk "HEAD" "https" "example.com" "/style.css"
                            [("accept", "*/*")] true false)
             None.

Definition empty2 : h2_push_diary :=
  mk_diary [] 2 2 64 None H2_PUSH_DIGEST_APR_HASH.

Definition three_batches : list (list h2_push.t) :=
  [[Sample.candidate "/a"; Sample.candidate "/b"]; [Sample.candidate "/c"]].

Definition sha_diary (bits : Z) : h2_push_diary :=
  mk_diary [] 4 4 bits None H2_PUSH_DIGEST_SHA256.

(** A diary bound to an authority, as a digest received for that
    authority would leave it. *)
Definition bound4 : h2_push_diary :=
  mk_diary (entries full4) 4 4 64 (Some "example.com") H2_PUSH_DIGEST_APR_HASH.

(** Three entries under a bound authority. *)
Definition bound3 : h2_push_diary :=
  mk_diary (firstn 3 (entries full4)) 4 4 64 (Some "example.com")
           H2_PUSH_DIGEST_APR_HASH.

(** One entry, no authority bound. *)
Definition single4 : h2_push_diary :=
  mk_diary [mk_entry 548140559631976049] 4 4 64 None H2_PUSH_DIGEST_APR_HASH.

End Cases.

(** Diaries that agree on what [h2_push_diary_update] never changes. *)
Definition same_config (d d' : Diary.h2_push_diary) : Prop :=
  Diary.N d' = Diary.N d /\ Diary.mask_bits d' = Diary.mask_bits d
  /\ Diary.dtype d' = Diary.dtype d.

(** The string whose bytes the SHA-256 hash is taken of. *)
Definition triple_string (push : h2_push.t) : string :=
  let r := h2_push.req push in
  (h2_request.scheme r ++ "://" ++ h2_request.authority r
     ++ h2_request.path r)%string.

(* ===================================================================== *)
(** ** What an encoder state stands for *)

Module EncoderState.
Import Gset GolombRice.

(** The encoder holds the two header bytes [h0], [h1] and, packed after
    them, the bits written so far: [offset] is the index of the last
    byte in use and [bit] the place of the last bit written in it (8
    before the first bit). *)
Definition holds (h0 h1 : Z) (bits : list bool) (enc : gset_encoder) : Prop :=
  let n := List.length bits in
  datalen enc = Z.of_nat (List.length (data enc))
  /\ offset enc = Z.of_nat (1 + nbytes n)
  /\ offset enc < datalen enc
  /\ bit enc = (if (n =? 0)%nat then 8 else Z.of_nat ((n - 1) mod 8))
  /\ firstn (2 + nbytes n) (data enc) = h0 :: h1 :: pack bits.

(** The bits [encode_hashes] writes for a sorted array: each value that
    differs from its predecessor is coded as its 64-bit difference from
    the value coded last. *)
Fixpoint written (fb : Z) (lst : Z) (prev : option Z) (l : list Z)
  : list bool :=
  match l with
  | [] => []
  | h :: r =>
      let fresh := match prev with
                   | None => true
                   | Some p => negb (h =? p)
                   end in
      if fresh then code fb (CInt.u64 (h - lst)) ++ written fb h (Some h) r
      else written fb lst (Some h) r
  end.

(** The bits the export writes after the header. *)
Definition export_bits (d : Diary.h2_push_diary) (log2p delta_bits : Z)
           (auth : option string) : list bool :=
  if authority_matches d auth then
    written log2p 0 None
            (qsort (map (fun e => Z.shiftr (Diary.hash e) delta_bits) (Diary.entries d)))
  else [].

End EncoderState.

(* ===================================================================== *)
(** ** Notions used to state further properties *)

Module Notions.

(** [a] is [b] with some elements left out, the rest in their order. *)
Inductive subseq {A : Type} : list A -> list A -> Prop :=
| subseq_nil : subseq [] []
| subseq_skip : forall x a b, subseq a b -> subseq a (x :: b)
| subseq_keep : forall x a b, subseq a b -> subseq (x :: a) (x :: b).

(** The value of the last entry of [t] whose key is [key] up to case. *)
Fixpoint last_value (t : AprTable.apr_table_t) (key : string) : option string :=
  match t with
  | [] => None
  | (k, v) :: rest =>
      match last_value rest key with
      | Some w => Some w
      | None => if CStr.strcaseeq k key then Some v else None
      end
  end.

(** The request header names a push inherits. *)
Definition push_header_names : list string :=
  ["User-Agent"; "Accept"; "Accept-Encoding"; "Accept-Language";
   "Cache-Control"]%string.

Definition push_header_name (key : string) : bool :=
  existsb (fun lit => CStr.strcaseeq lit key) push_header_names.

(** No NUL character inside, as in every C string. *)
Definition nul_free (str : string) : Prop :=
  forall k, CStr.at_ str k <> Some Ascii.zero.

(** Bits [t - w + 1 .. t] of [x] are set and none above [t]. *)
Definition smeared (t w x : Z) : Prop :=
  forall j, 0 <= j ->
    (t - w < j <= t -> Z.testbit x j = true)
    /\ (t < j -> Z.testbit x j = false).

(** What every reader of the link parser leaves alone: the request, the
    policy, the pushes and the text; the cursor only moves forward and,
    once inside the text, stays inside. *)
Definition moves_on (ctx ctx' : Link.link_ctx) : Prop :=
  Link.req ctx' = Link.req ctx
  /\ Link.push_policy ctx' = Link.push_policy ctx
  /\ Link.pushes ctx' = Link.pushes ctx
  /\ Link.s ctx' = Link.s ctx
  /\ Link.slen ctx' = Link.slen ctx
  /\ (Link.i ctx <= Link.i ctx')%nat
  /\ (Link.i ctx <= Link.slen ctx -> Link.i ctx' <= Link.slen ctx)%nat.

(** A push made for request [rq] under [policy]: same scheme and
    authority, GET unless the policy asks for HEAD, not itself a source of
    pushes, and no header beyond the inherited names. *)
Definition push_of (rq : h2_request.t) (policy : h2_push_policy)
           (p : h2_push.t) : Prop :=
  let r := h2_push.req p in
  h2_request.scheme r = h2_request.scheme rq
  /\ h2_request.authority r = h2_request.authority rq
  /\ h2_request.method r
     = match policy with H2_PUSH_HEAD => "HEAD" | _ => "GET" end%string
  /\ h2_request.push r = false
  /\ (forall k, push_header_name k = false ->
                AprTable.apr_table_get (h2_request.headers r) k = None)
  /\ (forall k, push_header_name k = true ->
                AprTable.apr_table_get (h2_request.headers r) k
                = last_value (h2_request.headers rq) k).

(** The pushes array is absent or not empty, and every push in it is one
    made for the request of the context. *)
Definition pushes_ok (ctx : Link.link_ctx) : Prop :=
  Link.pushes ctx <> Some []
  /\ Forall (push_of (Link.req ctx) (Link.push_policy ctx)) (Run.returned (Link.pushes ctx)).

(** The text of [ctx] is [a] followed by [b], and the cursor stands
    between the two. *)
Definition cursor_at (ctx : Link.link_ctx) (a b : string) : Prop :=
  Link.s ctx = (a ++ b)%string
  /\ Link.slen ctx = String.length (a ++ b)
  /\ Link.i ctx = String.length a.

(** Every character of [str] passes [test]. *)
Definition all_chars (test : ascii -> bool) (str : string) : bool :=
  forallb test (list_ascii_of_string str).

(** A scan for [test] stops in front of [b]: [b] is empty or starts with
    a character that fails [test]. *)
Definition stops (test : ascii -> bool) (b : string) : bool :=
  match b with
  | EmptyString => true
  | String c _ => negb (test c)
  end.

(** Not the character [c]. *)
Definition other_than (c : ascii) : ascii -> bool :=
  fun x => negb (Ascii.eqb x c).

(** [n] turns of a loop whose body [step] answered that the loop goes
    on lead from [ctx] to [ctx']. *)
Inductive turns (step : Link.link_ctx -> bool * Link.link_ctx)
  : nat -> Link.link_ctx -> Link.link_ctx -> Prop :=
| turns_none : forall ctx, turns step 0 ctx ctx
| turns_more : forall n ctx ctx1 ctx',
    step ctx = (true, ctx1) -> turns step n ctx1 ctx' ->
    turns step (S n) ctx ctx'.

(** One turn of the [while (read_link(ctx))] loop of [inspect_link]:
    whether the loop goes on, and the context the turn leaves. *)
Definition link_turn {U : AprUri} (ctx : Link.link_ctx)
  : bool * Link.link_ctx :=
  let '(ok, ctx1) := Link.read_link ctx in
  if ok then
    let ctx2 := Link.init_params ctx1 in
    let ctx3 := Link.read_params (Link.slen ctx2) ctx2 in
    let '(_, ctx4) := Link.add_push ctx3 in
    Link.read_sep ctx4
  else (false, ctx1).

End Notions.

(* ===================================================================== *)
(** ** Properties of the push diary *)

Module DiaryProps.
Import Diary Run.

Lemma set_entries_same (d : h2_push_diary) : set_entries d (entries d) = d.
Proof. destruct d; reflexivity. Qed.

Lemma nelts_set_entries (d : h2_push_diary) es :
  nelts (set_entries d es) = Z.of_nat (List.length es).
Proof. reflexivity. Qed.

(** *** [h2_push_diary_find] *)

Lemma find_down_range es k h :
  find_down es k h = -1 \/ 0 <= find_down es k h < Z.of_nat k.
Proof.
  induction k as [|j IH]; simpl; [now left|].
  destruct (nth_error es j) as [e|]; [destruct (hash e =? h)|]; lia.
Qed.

Lemma find_down_miss es k h :
  ~ In h (map hash es) -> find_down es k h = -1.
Proof.
  intros Hn; induction k as [|j IH]; simpl; [reflexivity|].
  destruct (nth_error es j) as [e|] eqn:E; [|exact IH].
  destruct (hash e =? h) eqn:Q; [|exact IH].
  exfalso; apply Hn. apply Z.eqb_eq in Q; subst h.
  apply in_map, (nth_error_In _ _ E).
Qed.

Lemma find_down_hit es k h :
  In h (map hash (firstn k es)) -> 0 <= find_down es k h.
Proof.
  induction k as [|j IH]; [intros []|].
  intros Hin. cbn [find_down].
  destruct (nth_error es j) as [e|] eqn:E.
  - destruct (hash e =? h) eqn:Q; [lia|].
    apply IH. apply Z.eqb_neq in Q.
    assert (Hs : firstn (S j) es = firstn j es ++ [e]).
    { clear -E. revert es E; induction j; intros [|x es] E; simpl in *;
        try discriminate; [now inversion E|]. now rewrite (IHj _ E). }
    rewrite Hs, map_app, in_app_iff in Hin.
    destruct Hin as [?|[?|[]]]; [assumption|contradiction].
  - apply IH. apply nth_error_None in E.
    rewrite firstn_all2 in Hin by lia. now rewrite firstn_all2 by lia.
Qed.

Lemma find_miss d h :
  ~ In h (map hash (entries d)) -> h2_push_diary_find (Some d) h = -1.
Proof. apply find_down_miss. Qed.

Lemma find_hit d h :
  In h (map hash (entries d)) -> 0 <= h2_push_diary_find (Some d) h < nelts d.
Proof.
  intros Hin; unfold h2_push_diary_find, nelts.
  assert (0 <= find_down (entries d) (List.length (entries d)) h).
  { apply find_down_hit. now rewrite firstn_all. }
  destruct (find_down_range (entries d) (List.length (entries d)) h); lia.
Qed.

(** *** [move_to_last] *)

Lemma move_to_last_fields d idx :
  N (move_to_last d idx) = N d
  /\ Diary.mask_bits (move_to_last d idx) = Diary.mask_bits d
  /\ dtype (move_to_last d idx) = dtype d
  /\ nelts (move_to_last d idx) = nelts d
  /\ Permutation (entries (move_to_last d idx)) (entries d).
Proof.
  unfold move_to_last.
  destruct (nelts d <=? 0); [now auto|].
  destruct (idx <? nelts d - 1); [|now auto].
  destruct (nth_error (entries d) (Z.to_nat idx)) as [e|] eqn:E; [|now auto].
  assert (Hsplit : entries d
            = firstn (Z.to_nat idx) (entries d)
                ++ e :: skipn (S (Z.to_nat idx)) (entries d)).
  { clear -E. revert E. generalize (Z.to_nat idx) as k, (entries d) as l.
    induction k; intros [|x l] E; simpl in *; try discriminate.
    - now inversion E.
    - f_equal. now apply IHk. }
  assert (Hperm : Permutation
            (firstn (Z.to_nat idx) (entries d)
               ++ skipn (S (Z.to_nat idx)) (entries d) ++ [e])
            (entries d)).
  { rewrite Hsplit at 3. apply Permutation_app_head.
    symmetry. apply Permutation_cons_append. }
  repeat split; try reflexivity; [|exact Hperm].
  unfold nelts. cbn [entries set_entries].
  now rewrite (Permutation_length Hperm).
Qed.

(** *** [remove_first] and the eviction loop *)

Lemma evict_loop_keeps fuel : forall d,
  2 <= N d ->
  (List.length (entries d) < fuel)%nat ->
  evict_loop fuel d
    = Some (set_entries d
              (skipn (List.length (entries d) - Z.to_nat (N d - 1)) (entries d))).
Proof.
  induction fuel as [|fuel IH]; intros d HN Hf; [lia|].
  simpl. destruct (N d <=? nelts d) eqn:Q.
  - apply Z.leb_le in Q. unfold nelts in Q.
    unfold remove_first. unfold nelts at 1.
    destruct (0 <? Z.of_nat (List.length (entries d)) - 1) eqn:Q2;
      [|apply Z.ltb_ge in Q2; lia].
    destruct (entries d) as [|e es] eqn:E; [simpl in Q; lia|].
    cbn [tl]. rewrite IH; cbn [N entries set_entries];
      [|lia|simpl in Hf; lia].
    cbn [List.length] in Q |- *.
    replace (S (List.length es) - Z.to_nat (N d - 1))%nat
      with (S (List.length es - Z.to_nat (N d - 1)))%nat by lia.
    reflexivity.
  - apply Z.leb_gt in Q. unfold nelts in Q.
    replace (List.length (entries d) - Z.to_nat (N d - 1))%nat with O by lia.
    simpl. now rewrite set_entries_same.
Qed.

Lemma append_keeps d e :
  2 <= N d ->
  h2_push_diary_append d e
    = Some (set_entries d
              (skipn (List.length (entries d) - Z.to_nat (N d - 1)) (entries d)
                 ++ [e])).
Proof.
  intros HN. unfold h2_push_diary_append.
  rewrite evict_loop_keeps by (auto; lia). reflexivity.
Qed.

(** A diary of capacity below 2 that is full never leaves the loop,
    whatever the fuel: the [None] of the model is a real divergence. *)
Lemma evict_loop_stuck fuel d :
  N d <= nelts d -> nelts d <= 1 -> evict_loop fuel d = None.
Proof.
  intros H1 H2. induction fuel as [|fuel IH]; simpl.
  - apply Z.leb_le in H1. now rewrite H1.
  - assert (Q := H1). apply Z.leb_le in Q. rewrite Q.
    unfold remove_first.
    destruct (0 <? nelts d - 1) eqn:Q2; [apply Z.ltb_lt in Q2; lia|].
    exact IH.
Qed.

Lemma append_full d e :
  2 <= N d -> nelts d = N d ->
  h2_push_diary_append d e = Some (set_entries d (tl (entries d) ++ [e])).
Proof.
  intros HN Hfull. rewrite append_keeps by assumption.
  unfold nelts in Hfull.
  replace (List.length (entries d) - Z.to_nat (N d - 1))%nat with 1%nat by lia.
  destruct (entries d); reflexivity.
Qed.

Lemma append_room d e :
  2 <= N d -> nelts d < N d ->
  h2_push_diary_append d e = Some (set_entries d (entries d ++ [e])).
Proof.
  intros HN Hroom. rewrite append_keeps by assumption.
  unfold nelts in Hroom.
  replace (List.length (entries d) - Z.to_nat (N d - 1))%nat with 0%nat by lia.
  reflexivity.
Qed.

End DiaryProps.

(* ===================================================================== *)
(** ** Sizes, hashes and the update loop *)

Module DiaryUpdate.
Import Diary Run DiaryProps.

(** *** [ceil_power_of_2] *)

Lemma lor_shiftr_log2 a k :
  0 < a -> 0 <= k ->
  0 < Z.lor a (Z.shiftr a k) /\ Z.log2 (Z.lor a (Z.shiftr a k)) = Z.log2 a.
Proof.
  intros Ha Hk.
  assert (Hs : 0 <= Z.shiftr a k) by (apply Z.shiftr_nonneg; lia).
  assert (Hl : Z.log2 (Z.lor a (Z.shiftr a k)) = Z.log2 a).
  { rewrite Z.log2_lor by lia. rewrite Z.log2_shiftr by lia.
    pose proof (Z.log2_nonneg a). lia. }
  split; [|exact Hl].
  assert (0 <= Z.lor a (Z.shiftr a k)) by (apply Z.lor_nonneg; lia).
  destruct (Z.eq_dec (Z.lor a (Z.shiftr a k)) 0) as [E|]; [|lia].
  apply Z.lor_eq_0_l in E. lia.
Qed.

Lemma ceil_power_of_2_range n :
  0 < n <= 2 ^ 30 -> 2 <= ceil_power_of_2 n <= 2 ^ 30.
Proof.
  intros Hn. unfold ceil_power_of_2.
  destruct (n <=? 2) eqn:Q; [lia|]. apply Z.leb_gt in Q.
  set (m := n - 1). assert (Hm : 0 < m) by (unfold m; lia).
  destruct (lor_shiftr_log2 m 1 Hm ltac:(lia)) as [P1 L1].
  destruct (lor_shiftr_log2 _ 2 P1 ltac:(lia)) as [P2 L2].
  destruct (lor_shiftr_log2 _ 4 P2 ltac:(lia)) as [P3 L3].
  destruct (lor_shiftr_log2 _ 8 P3 ltac:(lia)) as [P4 L4].
  destruct (lor_shiftr_log2 _ 16 P4 ltac:(lia)) as [P5 L5].
  cbv zeta. set (x := Z.lor _ (Z.shiftr _ 16)) in *.
  assert (HL : Z.log2 x = Z.log2 m) by congruence.
  assert (Hlo : 1 <= Z.log2 m).
  { change 1 with (Z.log2 2). apply Z.log2_le_mono. unfold m; lia. }
  assert (Hhi : Z.log2 m < 30).
  { apply Z.log2_lt_pow2; unfold m; lia. }
  assert (x < 2 ^ 30) by (apply Z.log2_lt_pow2; lia).
  assert (2 ^ 1 <= x) by (apply Z.log2_le_pow2; lia).
  unfold CInt.s32.
  rewrite Z.mod_small by lia. lia.
Qed.

Lemma smear_step t w x :
  0 < w -> Notions.smeared t w x -> Notions.smeared t (2 * w) (Z.lor x (Z.shiftr x w)).
Proof.
  intros Hw Hs j Hj. rewrite Z.lor_spec, Z.shiftr_spec by lia.
  destruct (Hs j Hj) as [A B]. destruct (Hs (j + w) ltac:(lia)) as [C D].
  split; intros Hr.
  - destruct (Z.le_gt_cases j (t - w)).
    + rewrite C by lia. apply orb_true_r.
    + rewrite A by lia. reflexivity.
  - rewrite B, D by lia. reflexivity.
Qed.

Lemma smeared_all t x :
  0 <= t < 32 -> Notions.smeared t 32 x -> x = Z.ones (t + 1).
Proof.
  intros Ht Hs. apply Z.bits_inj'. intros j Hj.
  destruct (Hs j Hj) as [A B].
  destruct (Z.le_gt_cases j t).
  - rewrite A, Z.ones_spec_low by lia. reflexivity.
  - rewrite B, Z.ones_spec_high by lia. reflexivity.
Qed.

Lemma u32_s32 z : CInt.u32 (CInt.s32 z) = z mod 2 ^ 32.
Proof.
  unfold CInt.u32, CInt.s32. rewrite Zminus_mod_idemp_l. f_equal. lia.
Qed.

(** The 32 bits [ceil_power_of_2] returns for a size above 2, also where
    the increment leaves the [int] range. *)
Lemma ceil_power_of_2_bits n :
  2 < n < 2 ^ 31 ->
  CInt.u32 (ceil_power_of_2 n) = 2 ^ (Z.log2 (n - 1) + 1).
Proof.
  intros Hn. unfold ceil_power_of_2.
  destruct (n <=? 2) eqn:Q; [apply Z.leb_le in Q; lia|]. cbv zeta.
  set (m := n - 1). assert (Hm : 0 < m) by (unfold m; lia).
  set (t := Z.log2 m).
  assert (Ht : 0 <= t < 31).
  { split; [apply Z.log2_nonneg|]. apply Z.log2_lt_pow2; unfold m; lia. }
  assert (H1 : Notions.smeared t 1 m).
  { intros j Hj. split; intros Hr.
    - replace j with t by lia. apply Z.bit_log2. exact Hm.
    - apply Z.bits_above_log2; [lia|exact Hr]. }
  pose proof (smear_step t 1 _ ltac:(lia) H1) as H2.
  pose proof (smear_step t 2 _ ltac:(lia) H2) as H4.
  pose proof (smear_step t 4 _ ltac:(lia) H4) as H8.
  pose proof (smear_step t 8 _ ltac:(lia) H8) as H16.
  pose proof (smear_step t 16 _ ltac:(lia) H16) as H32.
  cbn [Z.mul Pos.mul] in *.
  rewrite (smeared_all t _ ltac:(lia) H32).
  rewrite Z.ones_equiv, u32_s32.
  replace (Z.pred (2 ^ (t + 1)) + 1) with (2 ^ (t + 1)) by lia.
  assert (Hp : 2 ^ (t + 1) <= 2 ^ 31) by (apply Z.pow_le_mono_r; lia).
  assert (0 < 2 ^ (t + 1)) by (apply Z.pow_pos_nonneg; lia).
  apply Z.mod_small. lia.
Qed.

(** Rounding leaves a power of two at least 2 as it is, and sends 0 and
    1 to 2. *)
Lemma ceil_power_of_2_small : ceil_power_of_2 0 = 2 /\ ceil_power_of_2 1 = 2.
Proof. split; reflexivity. Qed.

(** *** The hash functions *)

Lemma sha256_fold_range (bs : list Z) : forall v,
  0 <= v < 2 ^ 64 ->
  0 <= fold_left (fun val b => CInt.u64 (val * 256 + b)) bs v < 2 ^ 64.
Proof.
  induction bs as [|b bs IH]; intros v Hv; simpl; [exact Hv|].
  apply IH. unfold CInt.u64. apply Z.mod_pos_bound. lia.
Qed.

Lemma lxor_range a b n :
  0 < n -> 0 <= a < 2 ^ n -> 0 <= b < 2 ^ n -> 0 <= Z.lxor a b < 2 ^ n.
Proof.
  intros Hn Ha Hb.
  assert (H0 : 0 <= Z.lxor a b) by (apply Z.lxor_nonneg; lia).
  split; [exact H0|].
  destruct (Z.eq_dec (Z.lxor a b) 0) as [E|NE]; [rewrite E; lia|].
  apply Z.log2_lt_pow2; [lia|].
  pose proof (Z.log2_lxor a b ltac:(lia) ltac:(lia)) as Hx.
  assert (La : Z.log2 a < n).
  { destruct (Z.eq_dec a 0) as [->|]; [simpl|apply Z.log2_lt_pow2]; lia. }
  assert (Lb : Z.log2 b < n).
  { destruct (Z.eq_dec b 0) as [->|]; [simpl|apply Z.log2_lt_pow2]; lia. }
  lia.
Qed.

Section WithHash.
Context {H : AprHash}.

Lemma dcalc_range d p :
  Diary.mask_bits d = 64 -> 0 <= dcalc d p < 2 ^ 64.
Proof.
  intros Hm. unfold dcalc. destruct (dtype d).
  - unfold calc_apr_hash, val_apr_hash, CInt.u64, CInt.u32.
    pose proof (Z.mod_pos_bound (apr_hashfunc_default
                  (h2_request.path (h2_push.req p))) (2 ^ 32)).
    repeat apply lxor_range; try lia;
      try (apply Z.mod_pos_bound; lia).
  - unfold calc_sha256_hash. rewrite Hm. change (64 - 64) with 0.
    rewrite Z.shiftr_0_r. apply sha256_fold_range. lia.
Qed.

Lemma dcalc_ext d d' a b :
  Diary.mask_bits d = Diary.mask_bits d' -> dtype d = dtype d' ->
  same_triple a b -> dcalc d a = dcalc d' b.
Proof.
  intros Hm Ht (Hs & Ha & Hp). unfold dcalc. rewrite <- Ht.
  destruct (dtype d).
  - unfold calc_apr_hash. now rewrite Hs, Ha, Hp.
  - unfold calc_sha256_hash, sha256_input. now rewrite Hs, Ha, Hp, Hm.
Qed.

(** *** [h2_push_diary_update] *)

Lemma same_config_dcalc d d' p : same_config d d' -> dcalc d' p = dcalc d p.
Proof.
  intros (_ & Hm & Ht). apply dcalc_ext; try easy.
Qed.

Lemma Forall_skipn {A} (P : A -> Prop) k (l : list A) :
  Forall P l -> Forall P (skipn k l).
Proof.
  intros Hl. rewrite <- (firstn_skipn k l) in Hl.
  now apply Forall_app in Hl.
Qed.

Lemma update_loop_total ps : forall d np,
  2 <= N d ->
  exists d' np',
    update_loop d np ps = Some (d', np')
    /\ same_config d d'
    /\ (nelts d <= N d -> nelts d' <= N d')
    /\ (Diary.mask_bits d = 64 ->
        Forall (fun e => 0 <= hash e < 2 ^ 64) (entries d) ->
        Forall (fun e => 0 <= hash e < 2 ^ 64) (entries d')).
Proof.
  induction ps as [|p ps IH]; intros d np HN; cbn [update_loop].
  - exists d, np. unfold same_config. auto.
  - cbn [hash].
    destruct (0 <=? h2_push_diary_find (Some d) (dcalc d p)) eqn:Q.
    + destruct (move_to_last_fields d
                  (h2_push_diary_find (Some d) (dcalc d p)))
        as (F1 & F2 & F3 & F4 & F5).
      set (idx := h2_push_diary_find (Some d) (dcalc d p)) in *.
      assert (HN' : 2 <= N (move_to_last d idx)) by (rewrite F1; exact HN).
      destruct (IH (move_to_last d idx) np HN')
        as (d' & np' & E & (C1 & C2 & C3) & I1 & I2).
      exists d', np'. split; [exact E|].
      split; [unfold same_config; repeat split; congruence|].
      split; [intros; apply I1; lia|].
      intros Hm Hf. apply I2; [congruence|].
      eapply Permutation_Forall; [symmetry; exact F5|exact Hf].
    + rewrite append_keeps by assumption.
      set (d1 := set_entries d _).
      destruct (IH d1 (Some (match np with Some l => l | None => [] end ++ [p]))
                   HN) as (d' & np' & E & (C1 & C2 & C3) & I1 & I2).
      exists d', np'. split; [exact E|].
      split; [unfold same_config; repeat split; assumption|].
      split.
      * intros Hle. apply I1. unfold d1, nelts in *. cbn [entries set_entries N].
        rewrite length_app, length_skipn. cbn [List.length]. lia.
      * intros Hm Hf. apply I2; [exact Hm|].
        unfold d1. cbn [entries set_entries].
        apply Forall_app. split; [now apply Forall_skipn|].
        constructor; [|constructor]. cbn [hash]. now apply dcalc_range.
Qed.

(** Candidates that all miss: the diary ends with the last [N] of the
    old entries followed by the new hashes, and every candidate is
    returned. *)
Lemma update_loop_misses ps : forall d np,
  2 <= N d -> nelts d <= N d ->
  NoDup (map (dcalc d) ps) ->
  (forall p, In p ps -> ~ In (dcalc d p) (map hash (entries d))) ->
  exists d',
    update_loop d np ps
      = Some (d', match ps with
                  | [] => np
                  | _ => Some (match np with Some l => l | None => [] end ++ ps)
                  end)
    /\ same_config d d'
    /\ entries d'
       = skipn (List.length (entries d) + List.length ps - Z.to_nat (N d))
               (entries d ++ map (fun p => mk_entry (dcalc d p)) ps).
Proof.
  induction ps as [|p ps IH]; intros d np HN Hle Hnd Hfresh;
    cbn [update_loop].
  - exists d. split; [reflexivity|]. split; [unfold same_config; auto|].
    unfold nelts in Hle. rewrite app_nil_r. cbn [List.length].
    replace (List.length (entries d) + 0 - Z.to_nat (N d))%nat with O by lia.
    reflexivity.
  - cbn [hash]. rewrite find_miss by (apply Hfresh; now left).
    change (0 <=? -1) with false. cbv iota.
    rewrite append_keeps by assumption.
    set (kept := skipn _ (entries d)).
    set (d1 := set_entries d (kept ++ [mk_entry (dcalc d p)])).
    assert (C1 : same_config d d1) by (unfold same_config; auto).
    assert (Hd1 : forall q, dcalc d1 q = dcalc d q)
      by (intro; now apply same_config_dcalc).
    cbn [map] in Hnd. inversion Hnd as [|? ? Hp Hnd']; subst.
    unfold nelts in Hle.
    assert (Hlen1 : List.length (entries d1)
                    = Nat.min (S (List.length (entries d))) (Z.to_nat (N d))).
    { unfold d1, kept. cbn [entries set_entries].
      rewrite length_app, length_skipn. cbn [List.length]. lia. }
    destruct (IH d1 (Some (match np with Some l => l | None => [] end ++ [p])))
      as (d' & E & C2 & Hent).
    + exact HN.
    + unfold nelts. rewrite Hlen1. change (N d1) with (N d). lia.
    + erewrite map_ext; [exact Hnd'|exact Hd1].
    + intros q Hq. rewrite Hd1. unfold d1. cbn [entries set_entries].
      rewrite map_app, in_app_iff. cbn [map hash In].
      intros [Hin|[Heq|[]]].
      * apply (Hfresh q (or_intror Hq)).
        unfold kept in Hin. rewrite <- skipn_map in Hin.
        rewrite <- (firstn_skipn
                      (List.length (entries d) - Z.to_nat (N d - 1))
                      (map hash (entries d))).
        apply in_or_app. right. exact Hin.
      * apply Hp. rewrite Heq. now apply in_map.
    + exists d'. split.
      { rewrite E. f_equal. f_equal.
        destruct ps; cbn [app]; rewrite <- ?app_assoc; reflexivity. }
      split.
      { destruct C1 as (?&?&?), C2 as (?&?&?).
        unfold same_config; repeat split; congruence. }
      rewrite Hent. rewrite Hlen1.
      erewrite (map_ext (fun p0 => mk_entry (dcalc d1 p0)));
        [|intro; now rewrite Hd1].
      change (N d1) with (N d).
      change (entries d1) with (kept ++ [mk_entry (dcalc d p)]).
      cbn [List.length map]. unfold kept.
      destruct (Z.to_nat (N d) - List.length (entries d))%nat eqn:Hfull.
      * (* the diary was full: its first entry went *)
        assert (Hl : List.length (entries d) = Z.to_nat (N d)) by lia.
        replace (List.length (entries d) - Z.to_nat (N d - 1))%nat
          with 1%nat by lia.
        destruct (entries d) as [|e0 es] eqn:Ees; [simpl in Hl; lia|].
        cbn [skipn List.length app] in *.
        rewrite <- app_assoc. cbn [app].
        replace (Nat.min (S (S (List.length es))) (Z.to_nat (N d))
                 + List.length ps - Z.to_nat (N d))%nat
          with (List.length ps) by lia.
        replace (S (List.length es) + S (List.length ps) - Z.to_nat (N d))%nat
          with (S (List.length ps)) by lia.
        reflexivity.
      * replace (List.length (entries d) - Z.to_nat (N d - 1))%nat
          with 0%nat by lia.
        cbn [skipn]. rewrite <- app_assoc. cbn [app].
        f_equal. lia.
Qed.

End WithHash.

End DiaryUpdate.

(* ===================================================================== *)
(** ** The diary: what the specification states *)

Module DiaryTheorems.
Import Diary Run DiaryProps DiaryUpdate Cases.

(** *** The scratch block of the export *)

Lemma store_hashes_fits size vals : forall i,
  8 * (i + Z.of_nat (List.length vals)) <= size ->
  Gset.store_hashes size i vals = Some vals.
Proof.
  induction vals as [|v vals IH]; intros i Hs; cbn [Gset.store_hashes];
    [reflexivity|].
  cbn [List.length] in Hs.
  replace (8 * i + 8 <=? size) with true by (symmetry; apply Z.leb_le; lia).
  rewrite IH by lia. reflexivity.
Qed.

Lemma store_hashes_overrun size vals : forall i,
  8 * i <= size -> size < 8 * (i + Z.of_nat (List.length vals)) ->
  Gset.store_hashes size i vals = None.
Proof.
  induction vals as [|v vals IH]; intros i Hi Hs; cbn [Gset.store_hashes].
  - cbn [List.length] in Hs. lia.
  - cbn [List.length] in Hs.
    destruct (8 * i + 8 <=? size) eqn:Q; [|reflexivity].
    apply Z.leb_le in Q. rewrite IH by lia. reflexivity.
Qed.

(** The block of [n] bytes holds [n] values of 8 bytes only for [n] up
    to 1. *)
Lemma pcalloc_holds n :
  0 <= n -> (8 * n <= Gset.apr_pcalloc_size n <-> n <= 1).
Proof.
  intros Hn. unfold Gset.apr_pcalloc_size.
  pose proof (Z.mul_div_le (n + 7) 8 ltac:(lia)).
  pose proof (Z.mul_succ_div_gt (n + 7) 8 ltac:(lia)).
  lia.
Qed.

Lemma digest_get_overrun d maxP auth :
  Gset.authority_matches d auth = true -> 2 <= nelts d ->
  Gset.h2_push_diary_digest_get d maxP auth = None.
Proof.
  intros Ha Hn. unfold Gset.h2_push_diary_digest_get. rewrite Ha. cbv zeta.
  rewrite store_hashes_overrun; [reflexivity| |].
  - unfold Gset.apr_pcalloc_size.
    pose proof (Z.mul_div_le (nelts d + 7) 8 ltac:(lia)). lia.
  - rewrite length_map. fold (nelts d).
    pose proof (pcalloc_holds (nelts d) ltac:(lia)). lia.
Qed.

Lemma digest_get_diary d maxP auth st d' dat len :
  Gset.h2_push_diary_digest_get d maxP auth = Some (st, d', dat, len) ->
  d' = d.
Proof.
  unfold Gset.h2_push_diary_digest_get.
  destruct (Gset.authority_matches d auth); cbv zeta.
  - destruct (Gset.store_hashes _ _ _); [|discriminate].
    intros E. now inversion E.
  - intros E. now inversion E.
Qed.

Lemma digest_get_returns d maxP auth :
  Gset.authority_matches d auth = false \/ nelts d <= 1 ->
  exists dat len,
    Gset.h2_push_diary_digest_get d maxP auth
    = Some (APR_SUCCESS, d, dat, len).
Proof.
  intros Hin. unfold Gset.h2_push_diary_digest_get.
  destruct (Gset.authority_matches d auth) eqn:Ha; cbv zeta; [|eauto].
  destruct Hin as [Hf|Hn]; [discriminate|].
  rewrite store_hashes_fits; [eauto|].
  rewrite length_map. fold (nelts d).
  pose proof (pcalloc_holds (nelts d) ltac:(unfold nelts; lia)). lia.
Qed.

(** The export either returns, and then with the diary it was given, or
    stores outside its scratch block, which happens exactly for a
    matching authority and two or more entries. *)
Lemma digest_get_cases d maxP auth :
  match Gset.h2_push_diary_digest_get d maxP auth with
  | Some (st, d', dat, len) => st = APR_SUCCESS /\ d' = d
  | None => Gset.authority_matches d auth = true /\ 2 <= nelts d
  end.
Proof.
  destruct (Gset.authority_matches d auth) eqn:Ha.
  - destruct (Z_le_gt_dec (nelts d) 1) as [Hn|Hn].
    + destruct (digest_get_returns d maxP auth (or_intror Hn))
        as (dat & len & E).
      rewrite E. auto.
    + rewrite digest_get_overrun by (auto; lia). split; [reflexivity|lia].
  - destruct (digest_get_returns d maxP auth (or_introl Ha))
      as (dat & len & E).
    rewrite E. auto.
Qed.

Section WithHash.
Context {H : AprHash}.

Lemma update_returns d pushes :
  2 <= N d ->
  exists d' r,
    h2_push_diary_update (mk_session (Some d)) pushes
      = Some (mk_session (Some d'), r)
    /\ same_config d d'
    /\ (nelts d <= N d -> nelts d' <= N d')
    /\ (Diary.mask_bits d = 64 ->
        Forall (fun e => 0 <= hash e < 2 ^ 64) (entries d) ->
        Forall (fun e => 0 <= hash e < 2 ^ 64) (entries d')).
Proof.
  intros HN. unfold h2_push_diary_update. cbn [push_diary].
  destruct pushes as [ps|].
  - destruct (update_loop_total ps d None HN) as (d' & np & E & C & I1 & I2).
    exists d', np. rewrite E. auto.
  - exists d, None. unfold same_config. auto.
Qed.

Lemma reachable_inv d : reachable d -> diary_inv d.
Proof.
  induction 1 as [dt n d Hn Hc | d pushes d' r _ IH Hu
                  | d maxP auth st d' dat len _ IH Hg].
  - unfold diary_create in Hc.
    destruct (0 <? n); [|discriminate]. inversion Hc; subst; clear Hc.
    unfold diary_inv, nelts. cbn [N entries Diary.mask_bits List.length].
    pose proof (ceil_power_of_2_range n Hn).
    repeat split; try lia. constructor.
  - destruct IH as (HN & Hle & Hm & Hf).
    destruct (update_returns d pushes ltac:(lia))
      as (d2 & r2 & E & (C1 & C2 & C3) & I1 & I2).
    rewrite E in Hu. inversion Hu; subst.
    specialize (I1 Hle). specialize (I2 Hm Hf).
    unfold diary_inv. rewrite C1, C2 in *. repeat split; auto; lia.
  - apply digest_get_diary in Hg. now subst.
Qed.

(** C3: a reachable diary never holds more than [N] entries; an update
    with any candidates returns and keeps the bound; the digest export
    returns with success and the diary as it was, unless it stores
    outside its scratch block, which it does only for a matching
    authority and two or more entries; and appending to a full diary
    drops the entry at index 0 before storing the new one at the end. *)
Theorem diary_size_bounded (d : h2_push_diary) :
  reachable d ->
  nelts d <= N d
  /\ (forall pushes, exists d' r,
        h2_push_diary_update (mk_session (Some d)) pushes
          = Some (mk_session (Some d'), r)
        /\ nelts d' <= N d')
  /\ (forall maxP auth,
        match Gset.h2_push_diary_digest_get d maxP auth with
        | Some (st, d', dat, len) => st = APR_SUCCESS /\ d' = d
        | None => Gset.authority_matches d auth = true /\ 2 <= nelts d
        end)
  /\ (forall e, nelts d = N d ->
        h2_push_diary_append d e
          = Some (set_entries d (tl (entries d) ++ [e]))).
Proof.
  intros Hr. destruct (reachable_inv d Hr) as (HN & Hle & _ & _).
  split; [exact Hle|]. split; [|split].
  - intros pushes.
    destruct (update_returns d pushes ltac:(lia)) as (d' & r & E & _ & I & _).
    exists d', r. auto.
  - intros maxP auth. apply digest_get_cases.
  - intros e Hfull. apply append_full; lia.
Qed.

(** C1: the same triple pushed twice into a diary that starts empty is
    stored once, and the second call does not return the candidate. *)
Theorem same_triple_pushed_once (d : h2_push_diary) (c1 c2 : h2_push.t) :
  entries d = [] -> 2 <= N d -> same_triple c1 c2 ->
  exists d1 d2 r1 r2,
    h2_push_diary_update (mk_session (Some d)) (Some [c1])
      = Some (mk_session (Some d1), r1)
    /\ h2_push_diary_update (mk_session (Some d1)) (Some [c2])
      = Some (mk_session (Some d2), r2)
    /\ r1 = Some [c1]
    /\ count_hash d2 (dcalc d c1) = 1%nat
    /\ ~ In c2 (returned r2).
Proof.
  intros He HN Hsame.
  set (h := dcalc d c1).
  set (d1 := set_entries d [mk_entry h]).
  exists d1, d1, (Some [c1]), None.
  assert (E1 : h2_push_diary_update (mk_session (Some d)) (Some [c1])
               = Some (mk_session (Some d1), Some [c1])).
  { unfold h2_push_diary_update. cbn [push_diary update_loop hash].
    rewrite find_miss by (rewrite He; intros []).
    change (0 <=? -1) with false. cbv iota.
    rewrite append_room by (unfold nelts; rewrite ?He; simpl; lia).
    rewrite He. reflexivity. }
  assert (Hh : dcalc d1 c2 = h).
  { symmetry. apply dcalc_ext; try reflexivity. exact Hsame. }
  assert (E2 : h2_push_diary_update (mk_session (Some d1)) (Some [c2])
               = Some (mk_session (Some d1), None)).
  { unfold h2_push_diary_update. cbn [push_diary update_loop hash].
    rewrite Hh. unfold h2_push_diary_find.
    change (entries d1) with [mk_entry h].
    cbn [List.length find_down nth_error hash].
    rewrite Z.eqb_refl. change (0 <=? Z.of_nat 0) with true. cbv iota.
    unfold move_to_last, nelts. change (entries d1) with [mk_entry h].
    reflexivity. }
  repeat split; try assumption.
  - unfold count_hash. change (entries d1) with [mk_entry h].
    cbn [filter hash]. now rewrite Z.eqb_refl.
  - intros [].
Qed.

(** *** Runs of update calls *)

Lemma update_loop_app a : forall d np b,
  update_loop d np (a ++ b)
  = match update_loop d np a with
    | Some (d1, np1) => update_loop d1 np1 b
    | None => None
    end.
Proof.
  induction a as [|p a IH]; intros d np b; cbn [app update_loop];
    [reflexivity|].
  destruct (0 <=? _); [apply IH|].
  destruct (h2_push_diary_append d _); [apply IH|reflexivity].
Qed.

Lemma update_loop_diary ps : forall d np np',
  option_map fst (update_loop d np ps) = option_map fst (update_loop d np' ps).
Proof.
  induction ps as [|p ps IH]; intros d np np'; cbn [update_loop];
    [reflexivity|].
  destruct (0 <=? _); [apply IH|].
  destruct (h2_push_diary_append d _); [apply IH|reflexivity].
Qed.

Lemma update_all_concat batches : forall d d' np,
  update_loop d None (concat batches) = Some (d', np) ->
  update_all (mk_session (Some d)) batches = Some (mk_session (Some d')).
Proof.
  induction batches as [|b rest IH]; intros d d' np E.
  - cbn in E |- *. now inversion E.
  - cbn [concat] in E. rewrite update_loop_app in E.
    cbn [update_all]. unfold h2_push_diary_update. cbn [push_diary].
    destruct (update_loop d None b) as [[d1 np1]|]; [|discriminate].
    pose proof (update_loop_diary (concat rest) d1 np1 None) as Hi.
    rewrite E in Hi. cbn in Hi.
    destruct (update_loop d1 None (concat rest)) as [[d2 np2]|] eqn:E2;
      [|discriminate].
    cbn in Hi. inversion Hi; subst. eapply IH. exact E2.
Qed.

(** C2: [N + 1] candidates with distinct hashes, none of them in the
    diary, given to update in any number of calls, leave [N] entries:
    the hashes of all but the first candidate. *)
Theorem oldest_entry_evicted (d : h2_push_diary)
        (batches : list (list h2_push.t)) (first : h2_push.t) :
  2 <= N d -> nelts d <= N d ->
  Z.of_nat (List.length (concat batches)) = N d + 1 ->
  hd_error (concat batches) = Some first ->
  NoDup (map (dcalc d) (concat batches)) ->
  (forall c, In c (concat batches) ->
             ~ In (dcalc d c) (map hash (entries d))) ->
  exists d',
    update_all (mk_session (Some d)) batches = Some (mk_session (Some d'))
    /\ nelts d' = N d
    /\ ~ In (dcalc d first) (map hash (entries d'))
    /\ map hash (entries d') = tl (map (dcalc d) (concat batches)).
Proof.
  intros HN Hle Hlen Hfirst Hnd Hfresh.
  destruct (update_loop_misses (concat batches) d None HN Hle Hnd Hfresh)
    as (d' & E & _ & Hent).
  exists d'. split; [eapply update_all_concat; exact E|].
  assert (Hm : map hash (entries d') = tl (map (dcalc d) (concat batches))).
  { rewrite Hent. unfold nelts in Hle.
    replace (List.length (entries d) + List.length (concat batches)
             - Z.to_nat (N d))%nat
      with (List.length (entries d) + 1)%nat by lia.
    rewrite skipn_app, skipn_all2 by lia.
    replace (List.length (entries d) + 1 - List.length (entries d))%nat
      with 1%nat by lia.
    cbn [app]. rewrite skipn_map, map_map. cbn [hash].
    destruct (concat batches); reflexivity. }
  split; [|split; [|exact Hm]].
  - unfold nelts. rewrite <- (length_map hash), Hm.
    destruct (concat batches) as [|c cs]; cbn [List.length] in Hlen; [lia|].
    cbn [map tl]. rewrite length_map. lia.
  - rewrite Hm. destruct (concat batches) as [|c cs]; [discriminate|].
    cbn in Hfirst. inversion Hfirst; subst.
    cbn [map tl] in *. now inversion Hnd.
Qed.

End WithHash.

(** *** The theorems at concrete diaries *)

Lemma full4_reachable : @reachable Sample.hash33 full4.
Proof.
  apply (@reach_update Sample.hash33 (empty4 H2_PUSH_DIGEST_APR_HASH)
           (Some abcd) full4 (Some abcd)).
  - apply (@reach_create Sample.hash33 H2_PUSH_DIGEST_APR_HASH 3); [lia|].
    reflexivity.
  - vm_compute. reflexivity.
Defined.

Lemma diary_size_bounded_witness :
  @reachable Sample.hash33 full4
  /\ (nelts full4 <= N full4
      /\ (forall pushes, exists d' r,
            @h2_push_diary_update Sample.hash33 (mk_session (Some full4)) pushes
              = Some (mk_session (Some d'), r)
            /\ nelts d' <= N d')
      /\ (forall maxP auth,
            match Gset.h2_push_diary_digest_get full4 maxP auth with
            | Some (st, d', dat, len) => st = APR_SUCCESS /\ d' = full4
            | None => Gset.authority_matches full4 auth = true
                      /\ 2 <= nelts full4
            end)
      /\ (forall e, nelts full4 = N full4 ->
            h2_push_diary_append full4 e
              = Some (set_entries full4 (tl (entries full4) ++ [e])))).
Proof.
  split; [exact full4_reachable|].
  exact (@diary_size_bounded Sample.hash33 full4 full4_reachable).
Defined.

Lemma same_triple_pushed_once_witness :
  let d := empty4 H2_PUSH_DIGEST_SHA256 in
  let c1 := Sample.candidate "/style.css" in
  let c2 := style_head in
  (entries d = [] /\ 2 <= N d /\ same_triple c1 c2)
  /\ exists d1 d2 r1 r2,
      @h2_push_diary_update Sample.hash33 (mk_session (Some d)) (Some [c1])
        = Some (mk_session (Some d1), r1)
      /\ @h2_push_diary_update Sample.hash33 (mk_session (Some d1)) (Some [c2])
        = Some (mk_session (Some d2), r2)
      /\ r1 = Some [c1]
      /\ count_hash d2 (@dcalc Sample.hash33 d c1) = 1%nat
      /\ ~ In c2 (returned r2).
Proof.
  intros d c1 c2.
  assert (H1 : entries d = []) by reflexivity.
  assert (H2 : 2 <= N d) by (unfold d; simpl; lia).
  assert (H3 : same_triple c1 c2) by (repeat split; reflexivity).
  split; [auto|].
  exact (@same_triple_pushed_once Sample.hash33 d c1 c2 H1 H2 H3).
Defined.

Lemma oldest_entry_evicted_witness :
  let d := empty2 in
  let first := Sample.candidate "/a" in
  (2 <= N d /\ nelts d <= N d
   /\ Z.of_nat (List.length (concat three_batches)) = N d + 1
   /\ hd_error (concat three_batches) = Some first
   /\ NoDup (map (@dcalc Sample.hash33 d) (concat three_batches))
   /\ (forall c, In c (concat three_batches) ->
                 ~ In (@dcalc Sample.hash33 d c) (map hash (entries d))))
  /\ exists d',
      @update_all Sample.hash33 (mk_session (Some d)) three_batches
        = Some (mk_session (Some d'))
      /\ nelts d' = N d
      /\ ~ In (@dcalc Sample.hash33 d first) (map hash (entries d'))
      /\ map hash (entries d')
         = tl (map (@dcalc Sample.hash33 d) (concat three_batches)).
Proof.
  intros d first.
  assert (H1 : 2 <= N d) by (unfold d; simpl; lia).
  assert (H2 : nelts d <= N d) by (unfold d, nelts; simpl; lia).
  assert (H3 : Z.of_nat (List.length (concat three_batches)) = N d + 1)
    by reflexivity.
  assert (H4 : hd_error (concat three_batches) = Some first) by reflexivity.
  assert (H5 : NoDup (map (@dcalc Sample.hash33 d) (concat three_batches))).
  { vm_compute.
    repeat (constructor; [simpl; intuition discriminate|]). constructor. }
  assert (H6 : forall c, In c (concat three_batches) ->
                 ~ In (@dcalc Sample.hash33 d c) (map hash (entries d)))
    by (intros c _ []).
  split; [auto 10|].
  exact (@oldest_entry_evicted Sample.hash33 d three_batches first
           H1 H2 H3 H4 H5 H6).
Defined.

(** Two responses with the same preload link on one session: the first
    call returns the candidate, the second returns NULL. *)
Example same_link_twice :
  let res := Some [("Link", "</style.css>; rel=preload")%string] in
  let rq := Some (Sample.request "https" "example.com" "/index.html") in
  let s0 := mk_session (Some (empty4 H2_PUSH_DIGEST_SHA256)) in
  match fst (@h2_push_collect_update Sample.hash33 Sample.uri_split
                                     s0 H2_PUSH_DEFAULT rq res) with
  | Some (s1, r1) =>
      option_map (map (fun p => h2_request.path (h2_push.req p))) r1
      = Some ["/style.css"%string]
      /\ option_map snd
           (fst (@h2_push_collect_update Sample.hash33 Sample.uri_split
                                         s1 H2_PUSH_DEFAULT rq res))
         = Some None
  | None => False
  end.
Proof. vm_compute. split; reflexivity. Qed.

End DiaryTheorems.

(* ===================================================================== *)
(** ** The SHA-256 based diary hash *)

Module Sha256Props.
Import Diary Cases.

(** The tables start and end as FIPS 180-4 prints them. *)
Example sha256_tables :
  List.length SHA256.K = 64%nat
  /\ hd 0 SHA256.K = 0x428a2f98 /\ List.last SHA256.K 0 = 0xc67178f2
  /\ hd 0 SHA256.H0 = 0x6a09e667 /\ List.last SHA256.H0 0 = 0x5be0cd19.
Proof. repeat split. Qed.

(** Known digests: the empty string and "abc" (FIPS 180-4 examples). *)
Example sha256_empty :
  SHA256.be_int (SHA256.sha256 [])
  = 0xe3b0c44298fc1c149afbf4c8996fb92427ae41e4649b934ca495991b7852b855.
Proof. vm_compute. reflexivity. Qed.

Example sha256_abc :
  SHA256.be_int (SHA256.sha256 (CStr.bytes "abc"))
  = 0xba7816bf8f01cfea414140de5dae2223b00361a396177a9cb410ff61f20015ad.
Proof. vm_compute. reflexivity. Qed.

(** Two blocks: 56 bytes of input push the length into a second block. *)
Example sha256_two_blocks :
  SHA256.be_int (SHA256.sha256 (repeat 97 56))
  = 0xb35439a4ac6f0948b6d6f9e3c6af0f5f590ce20f1bde7090ef7970686ec6738a.
Proof. vm_compute. reflexivity. Qed.

(** *** The digest is 32 bytes *)

Lemma round_length st kw : List.length st = 8%nat ->
  List.length (SHA256.round st kw) = 8%nat.
Proof.
  intros Hl. do 9 (destruct st as [|? st]; try discriminate). reflexivity.
Qed.

Lemma rounds_length kws : forall st, List.length st = 8%nat ->
  List.length (fold_left SHA256.round kws st) = 8%nat.
Proof.
  induction kws as [|kw kws IH]; intros st Hl; simpl; [exact Hl|].
  apply IH, round_length, Hl.
Qed.

Lemma compress_length hs block : List.length hs = 8%nat ->
  List.length (SHA256.compress hs block) = 8%nat.
Proof.
  intros Hl. unfold SHA256.compress.
  rewrite length_map, length_combine, rounds_length by exact Hl.
  rewrite Hl. reflexivity.
Qed.

Lemma blocks_length n : forall hs bs, List.length hs = 8%nat ->
  List.length (SHA256.blocks n hs bs) = 8%nat.
Proof.
  induction n as [|n IH]; intros hs bs Hl; simpl; [exact Hl|].
  apply IH, compress_length, Hl.
Qed.

Lemma be_bytes_length n v : List.length (SHA256.be_bytes n v) = n.
Proof. induction n; simpl; congruence. Qed.

Lemma be_bytes_range n v :
  Forall (fun b => 0 <= b < 256) (SHA256.be_bytes n v).
Proof.
  induction n; simpl; constructor; [apply Z.mod_pos_bound; lia|assumption].
Qed.

Lemma sha256_length msg : List.length (SHA256.sha256 msg) = 32%nat.
Proof.
  unfold SHA256.sha256.
  pose proof (blocks_length (List.length (SHA256.pad msg) / 64) SHA256.H0
                            (SHA256.pad msg) eq_refl) as Hl.
  set (hs := SHA256.blocks _ _ _) in *. clearbody hs.
  do 9 (destruct hs as [|? hs]; try discriminate). reflexivity.
Qed.

Lemma sha256_range msg : Forall (fun b => 0 <= b < 256) (SHA256.sha256 msg).
Proof.
  unfold SHA256.sha256. generalize (SHA256.blocks
    (List.length (SHA256.pad msg) / 64) SHA256.H0 (SHA256.pad msg)).
  induction l as [|w l IH]; cbn [flat_map]; [constructor|].
  apply Forall_app. split; [apply be_bytes_range|exact IH].
Qed.

(** *** Folding 32 bytes into 64 bits keeps the low 64 bits *)

Lemma fold_be_acc bs : forall v,
  fold_left (fun acc b => acc * 256 + b) bs v
  = v * 256 ^ Z.of_nat (List.length bs) + SHA256.be_int bs.
Proof.
  unfold SHA256.be_int.
  induction bs as [|b bs IH]; intros v; cbn [fold_left List.length].
  - simpl. lia.
  - rewrite IH, (IH (0 * 256 + b)).
    rewrite Nat2Z.inj_succ, Z.pow_succ_r by lia. ring.
Qed.

Lemma be_int_app a b :
  SHA256.be_int (a ++ b)
  = SHA256.be_int a * 256 ^ Z.of_nat (List.length b) + SHA256.be_int b.
Proof.
  unfold SHA256.be_int at 1. rewrite fold_left_app.
  fold (SHA256.be_int a). apply fold_be_acc.
Qed.

Lemma be_int_range bs :
  Forall (fun b => 0 <= b < 256) bs ->
  0 <= SHA256.be_int bs < 256 ^ Z.of_nat (List.length bs).
Proof.
  induction bs as [|b bs IH] using rev_ind; intros Hf.
  - simpl. unfold SHA256.be_int. simpl. lia.
  - apply Forall_app in Hf. destruct Hf as [Hf Hb]. inversion Hb; subst.
    specialize (IH Hf). rewrite be_int_app, length_app.
    cbn [List.length]. change (SHA256.be_int [b]) with (0 * 256 + b).
    rewrite Nat2Z.inj_add, Z.pow_add_r by lia.
    change (256 ^ Z.of_nat 1) with 256. nia.
Qed.

Lemma fold_u64 bs : forall v,
  fold_left (fun val b => CInt.u64 (val * 256 + b)) bs (CInt.u64 v)
  = CInt.u64 (fold_left (fun acc b => acc * 256 + b) bs v).
Proof.
  induction bs as [|b bs IH]; intros v; cbn [fold_left]; [reflexivity|].
  rewrite <- IH. f_equal. unfold CInt.u64.
  rewrite Z.add_mod, Z.mul_mod_idemp_l, <- Z.add_mod by lia. reflexivity.
Qed.

Lemma fold_u64_low bs :
  fold_left (fun val b => CInt.u64 (val * 256 + b)) bs 0
  = SHA256.be_int bs mod 2 ^ 64.
Proof. exact (fold_u64 bs 0). Qed.

Lemma be_int_low64 bs :
  List.length bs = 32%nat -> Forall (fun b => 0 <= b < 256) bs ->
  SHA256.be_int bs mod 2 ^ 64 = SHA256.be_int (skipn 24 bs).
Proof.
  intros Hl Hf. rewrite <- (firstn_skipn 24 bs) at 1.
  rewrite be_int_app.
  assert (Hs : List.length (skipn 24 bs) = 8%nat)
    by (rewrite length_skipn; lia).
  pose proof (be_int_range (skipn 24 bs)
                (proj2 (proj1 (Forall_app _ _ _)
                   (eq_ind_r (Forall _) Hf (firstn_skipn 24 bs))))) as Hr.
  rewrite Hs in *. change (256 ^ Z.of_nat 8) with (2 ^ 64) in *.
  rewrite Z.add_comm, Z.mod_add by lia. apply Z.mod_small. exact Hr.
Qed.

Lemma bytes_app a b : CStr.bytes (a ++ b) = CStr.bytes a ++ CStr.bytes b.
Proof.
  unfold CStr.bytes. rewrite <- map_app. f_equal.
  induction a as [|c a IH]; simpl; [reflexivity|]. now rewrite IH.
Qed.

Lemma sha256_input_bytes push :
  sha256_input push = CStr.bytes (triple_string push).
Proof.
  unfold sha256_input, triple_string, SHA256.EVP_DigestUpdate,
    SHA256.EVP_DigestInit_ex.
  rewrite !bytes_app. cbn [app]. now rewrite <- !app_assoc.
Qed.

(** C4, as the code has it: with the SHA-256 algorithm the stored hash
    is the top [mask_bits] bits of the low 64 bits of the digest of
    scheme, "://", authority, path: the digest read as a big-endian
    number modulo 2^64, which is its last 8 bytes. *)
Theorem sha256_hash_low64 {H : AprHash} (d : h2_push_diary) (push : h2_push.t) :
  dtype d = H2_PUSH_DIGEST_SHA256 ->
  0 < Diary.mask_bits d <= 64 ->
  let digest := SHA256.sha256 (CStr.bytes (triple_string push)) in
  dcalc d push
  = Z.shiftr (SHA256.be_int digest mod 2 ^ 64) (64 - Diary.mask_bits d)
  /\ dcalc d push
     = Z.shiftr (SHA256.be_int (skipn 24 digest)) (64 - Diary.mask_bits d).
Proof.
  intros Ht Hm digest.
  assert (E : dcalc d push
              = Z.shiftr (SHA256.be_int digest mod 2 ^ 64)
                         (64 - Diary.mask_bits d)).
  { unfold dcalc. rewrite Ht. unfold calc_sha256_hash.
    unfold SHA256.EVP_DigestFinal. rewrite sha256_input_bytes.
    fold digest. now rewrite fold_u64_low. }
  split; [exact E|]. rewrite E. f_equal.
  apply be_int_low64; [apply sha256_length|apply sha256_range].
Qed.

Lemma sha256_hash_low64_witness :
  let d := sha_diary 64 in
  let push := Sample.candidate "/style.css" in
  let digest := SHA256.sha256 (CStr.bytes (triple_string push)) in
  (dtype d = H2_PUSH_DIGEST_SHA256 /\ 0 < Diary.mask_bits d <= 64)
  /\ (@dcalc Sample.hash33 d push
      = Z.shiftr (SHA256.be_int digest mod 2 ^ 64) (64 - Diary.mask_bits d)
      /\ @dcalc Sample.hash33 d push
         = Z.shiftr (SHA256.be_int (skipn 24 digest)) (64 - Diary.mask_bits d)).
Proof.
  intros d push digest.
  assert (H1 : dtype d = H2_PUSH_DIGEST_SHA256) by reflexivity.
  assert (H2 : 0 < Diary.mask_bits d <= 64) by (unfold d; simpl; lia).
  split; [auto|].
  exact (@sha256_hash_low64 Sample.hash33 d push H1 H2).
Defined.

(** The hash of https://example.com/style.css in a fresh diary is the
    last 8 bytes of the digest, not its first 8. *)
Example style_css_hash :
  @dcalc Sample.hash33 (sha_diary 64) (Sample.candidate "/style.css")
  = 0x05d425d64668ab6b
  /\ SHA256.be_int (SHA256.sha256 (CStr.bytes "https://example.com/style.css"))
     = 0xbaf9e86f033308601719bb61f7b9b62824a6610dd3b805f105d425d64668ab6b.
Proof. split; vm_compute; reflexivity. Qed.

(** C4 as stated fails: the stored hash is not the highest-order
    [mask_bits] bits of the 256-bit digest. *)
Lemma sha256_hash_not_top_bits :
  let d := sha_diary 64 in
  let push := Sample.candidate "/style.css" in
  dtype d = H2_PUSH_DIGEST_SHA256
  /\ @dcalc Sample.hash33 d push
     <> Z.shiftr (SHA256.be_int (SHA256.sha256 (CStr.bytes (triple_string push))))
                 (256 - Diary.mask_bits d).
Proof. split; [reflexivity|]. vm_compute. discriminate. Qed.

End Sha256Props.

(* ===================================================================== *)
(** ** Link parameters and the push decision *)

Module LinkProps.
Import AprTable Link Cases.
Local Open Scope string_scope.

(** *** Keys of an APR table *)

Lemma strcaseeq_refl a : CStr.strcaseeq a a = true.
Proof. apply String.eqb_refl. Qed.

Lemma strcaseeq_sym a b : CStr.strcaseeq a b = CStr.strcaseeq b a.
Proof. apply String.eqb_sym. Qed.

Lemma strcaseeq_trans a b c :
  CStr.strcaseeq a b = true -> CStr.strcaseeq a c = CStr.strcaseeq b c.
Proof.
  unfold CStr.strcaseeq. intros E. apply String.eqb_eq in E. now rewrite E.
Qed.

Lemma get_remove_other t key k :
  CStr.strcaseeq key k = false ->
  apr_table_get (remove_key key t) k = apr_table_get t k.
Proof.
  intros Hk. induction t as [|[k0 v0] t IH]; cbn [remove_key filter fst];
    [reflexivity|].
  fold (remove_key key t).
  destruct (CStr.strcaseeq k0 key) eqn:E; cbn [negb apr_table_get].
  - rewrite (strcaseeq_trans _ _ k E), Hk. exact IH.
  - destruct (CStr.strcaseeq k0 k); [reflexivity|exact IH].
Qed.

(** A key reads back the value last set under any spelling of it; other
    keys are not disturbed. *)
Lemma get_setn t key val k :
  apr_table_get (apr_table_setn t key val) k
  = if CStr.strcaseeq key k then Some val else apr_table_get t k.
Proof.
  induction t as [|[k0 v0] t IH]; cbn [apr_table_setn apr_table_get].
  - destruct (CStr.strcaseeq key k); reflexivity.
  - destruct (CStr.strcaseeq k0 key) eqn:E; cbn [apr_table_get].
    + rewrite (strcaseeq_trans _ _ k E).
      destruct (CStr.strcaseeq key k) eqn:Ek; [reflexivity|].
      now apply get_remove_other.
    + rewrite IH. destruct (CStr.strcaseeq k0 k) eqn:E0; [|reflexivity].
      destruct (CStr.strcaseeq key k) eqn:Ek; [|reflexivity].
      pose proof (strcaseeq_trans _ _ k0 Ek) as T.
      rewrite (strcaseeq_sym key k0), (strcaseeq_sym k k0) in T. congruence.
Qed.

(** *** [read_param] *)

Lemma skip_ws_table ctx : table_of (snd (skip_ws ctx)) = table_of ctx.
Proof. reflexivity. Qed.

Lemma read_chr_table ctx c : table_of (snd (read_chr ctx c)) = table_of ctx.
Proof. unfold read_chr. destruct (_ && _); reflexivity. Qed.

Lemma read_qstring_table ctx ps :
  table_of (snd (fst (read_qstring ctx ps))) = table_of ctx.
Proof.
  unfold read_qstring. destruct (skip_ws ctx) as [more c1] eqn:E1.
  pose proof (skip_ws_table ctx) as T1. rewrite E1 in T1. cbn in T1.
  destruct more; [|exact T1].
  destruct (read_chr c1 _) as [got c2] eqn:E2.
  pose proof (read_chr_table c1 CStr.dquote) as T2. rewrite E2 in T2. cbn in T2.
  destruct got; [|unfold table_of in *; cbn in *; congruence].
  destruct (find_chr c2 _); unfold table_of in *; cbn in *; congruence.
Qed.

Lemma read_ptoken_table ctx ps :
  table_of (snd (fst (read_ptoken ctx ps))) = table_of ctx.
Proof.
  unfold read_ptoken. destruct (skip_ws ctx) as [more c1] eqn:E1.
  pose proof (skip_ws_table ctx) as T1. rewrite E1 in T1. cbn in T1.
  destruct more; [|exact T1].
  destruct (_ <? _)%nat; unfold table_of in *; cbn in *; congruence.
Qed.

Lemma read_pname_table ctx ps :
  table_of (snd (fst (read_pname ctx ps))) = table_of ctx.
Proof.
  unfold read_pname. destruct (skip_ws ctx) as [more c1] eqn:E1.
  pose proof (skip_ws_table ctx) as T1. rewrite E1 in T1. cbn in T1.
  destruct more; [|exact T1].
  destruct (_ <? _)%nat; unfold table_of in *; cbn in *; congruence.
Qed.

Lemma read_pvalue_table ctx ps :
  table_of (snd (fst (read_pvalue ctx ps))) = table_of ctx.
Proof.
  unfold read_pvalue. destruct (skip_ws ctx) as [more c1] eqn:E1.
  pose proof (skip_ws_table ctx) as T1. rewrite E1 in T1. cbn in T1.
  destruct more; [|exact T1].
  destruct (read_chr c1 _) as [got c2] eqn:E2.
  pose proof (read_chr_table c1 "="%char) as T2. rewrite E2 in T2. cbn in T2.
  destruct got; [|unfold table_of in *; cbn in *; congruence].
  destruct (read_qstring c2 ps) as [[okq c3] v3] eqn:E3.
  pose proof (read_qstring_table c2 ps) as T3. rewrite E3 in T3. cbn in T3.
  destruct okq; [unfold table_of in *; cbn in *; congruence|].
  destruct (read_ptoken c3 v3) as [[okt c4] v4] eqn:E4.
  pose proof (read_ptoken_table c3 v3) as T4. rewrite E4 in T4. cbn in T4.
  destruct okt; unfold table_of in *; cbn in *; congruence.
Qed.

(** A parameter that is read is stored with [apr_table_setn] under the
    name as written, with an empty value when none is given. *)
Lemma read_param_stores ctx ctx' :
  read_param ctx = (true, ctx') ->
  table_of ctx'
  = apr_table_setn (table_of ctx) (fst (param_at ctx)) (snd (param_at ctx)).
Proof.
  unfold read_param, param_at.
  destruct (skip_ws ctx) as [more c1] eqn:E1.
  pose proof (skip_ws_table ctx) as T1. rewrite E1 in T1. cbn in T1.
  destruct more; [|discriminate]. cbn [snd].
  destruct (read_chr c1 _) as [got c2] eqn:E2.
  pose proof (read_chr_table c1 ";"%char) as T2. rewrite E2 in T2. cbn in T2.
  destruct got; [|discriminate]. cbn [snd].
  destruct (read_pname c2 "") as [[okn c3] name] eqn:E3.
  pose proof (read_pname_table c2 "") as T3. rewrite E3 in T3. cbn in T3.
  destruct okn; [|discriminate].
  destruct (read_pvalue c3 "") as [[okv c4] value] eqn:E4.
  pose proof (read_pvalue_table c3 "") as T4. rewrite E4 in T4. cbn in T4.
  intros E. inversion E; subst ctx'; clear E.
  unfold table_of in *; cbn in *; congruence.
Qed.

Lemma has_param_get ctx k :
  has_param ctx k = match apr_table_get (table_of ctx) k with
                    | Some _ => true
                    | None => false
                    end.
Proof. reflexivity. Qed.

(** C10, as the code has it: a parameter that is read is stored under
    its name with [apr_table_setn]; from then on a lookup of that name in
    any letter case gives the value just read, also when the name was
    there before in whatever case, and lookups of other names are as
    before. *)
Theorem param_names_fold_case (ctx ctx' : link_ctx) :
  read_param ctx = (true, ctx') ->
  let name := fst (param_at ctx) in
  let value := snd (param_at ctx) in
  table_of ctx' = apr_table_setn (table_of ctx) name value
  /\ (forall k, CStr.strcaseeq name k = true ->
        apr_table_get (table_of ctx') k = Some value
        /\ has_param ctx' k = true)
  /\ (forall k, CStr.strcaseeq name k = false ->
        apr_table_get (table_of ctx') k = apr_table_get (table_of ctx) k
        /\ has_param ctx' k = has_param ctx k).
Proof.
  intros E name value. pose proof (read_param_stores ctx ctx' E) as T.
  fold name value in T. split; [exact T|].
  split; intros k Hk; rewrite !has_param_get, T, get_setn, Hk; auto.
Qed.

Lemma param_names_fold_case_witness :
  read_param rel_twice_1 = (true, rel_twice_2)
  /\ (let name := fst (param_at rel_twice_1) in
      let value := snd (param_at rel_twice_1) in
      table_of rel_twice_2 = apr_table_setn (table_of rel_twice_1) name value
      /\ (forall k, CStr.strcaseeq name k = true ->
            apr_table_get (table_of rel_twice_2) k = Some value
            /\ has_param rel_twice_2 k = true)
      /\ (forall k, CStr.strcaseeq name k = false ->
            apr_table_get (table_of rel_twice_2) k
            = apr_table_get (table_of rel_twice_1) k
            /\ has_param rel_twice_2 k = has_param rel_twice_1 k)).
Proof.
  assert (H1 : read_param rel_twice_1 = (true, rel_twice_2))
    by (vm_compute; reflexivity).
  split; [exact H1|].
  exact (param_names_fold_case rel_twice_1 rel_twice_2 H1).
Defined.

(** What is read the second time is [REL] with value [preload]. *)
Example rel_twice_param_at :
  param_at (Sample.link_ctx0 "; rel=prefetch; REL=preload") = ("rel", "prefetch")
  /\ param_at rel_twice_1 = ("REL", "preload").
Proof. split; vm_compute; reflexivity. Qed.

(** The second [rel], written in capitals, replaces the value of the
    first; the table keeps the first spelling of the name. *)
Example rel_twice_table :
  table_of rel_twice_1 = [("rel", "prefetch")]
  /\ table_of rel_twice_2 = [("rel", "preload")]
  /\ has_relation rel_twice_2 "preload" = true.
Proof. repeat split; vm_compute; reflexivity. Qed.

(** C10 as stated fails: [NoPush] is found by the lookup of [nopush],
    which is not a name in the table, and [Rel] serves as [rel]. *)
Lemma param_lookup_ignores_case :
  let ctx := params_read "; Rel=preload; NoPush" in
  map fst (table_of ctx) = ["Rel"; "NoPush"]
  /\ has_param ctx "nopush" = true
  /\ ~ In "nopush" (map fst (table_of ctx))
  /\ has_relation ctx "preload" = true
  /\ ~ In "rel" (map fst (table_of ctx)).
Proof.
  cbv zeta. repeat split; vm_compute; try reflexivity;
    intros [E|[E|[]]]; discriminate E.
Qed.

(** *** The relation test *)

(** The two values the specification names. *)
Example preload_something_accepted :
  has_relation (params_read ("; rel=" ++ quoted "preload something")) "preload" = true.
Proof. vm_compute. reflexivity. Qed.

Example preloaded_rejected :
  has_relation (params_read "; rel=preloaded") "preload" = false.
Proof. vm_compute. reflexivity. Qed.

Example something_preload_accepted :
  has_relation (params_read ("; rel=" ++ quoted "something preload")) "preload" = true.
Proof. vm_compute. reflexivity. Qed.

(** C9 at its failing input: [preload] is a whole token of
    ["preloaded preload"], but [strstr] finds the occurrence inside
    [preloaded] first and the test stops there. *)
Lemma has_relation_first_occurrence_only :
  let ctx := params_read ("; rel=" ++ quoted "preloaded preload") in
  apr_table_get (table_of ctx) "rel" = Some "preloaded preload"
  /\ RelTokens.whole_token "preload" "preloaded preload"
  /\ has_relation ctx "preload" = false.
Proof.
  cbv zeta. split; [vm_compute; reflexivity|].
  split; [|vm_compute; reflexivity].
  exists "preloaded ", "". repeat split; [right; now exists "preloaded"|now left].
Qed.

(** *** The push decision *)

Lemma streq_false a b : a <> b -> CStr.streq a b = false.
Proof. intros Hn. now apply String.eqb_neq. Qed.

Section WithUri.
Context {U : AprUri}.

(** C8: a link target that names another scheme, or another host and
    port, than the request adds no push, whichever of the two parts
    it has. *)
Theorem cross_authority_never_pushed (ctx : link_ctx) (uri : apr_uri_t.t) :
  apr_uri_parse (link ctx) = Some uri ->
  (exists sch, apr_uri_t.scheme uri = Some sch
               /\ sch <> h2_request.scheme (req ctx))
  \/ (exists host, apr_uri_t.hostinfo uri = Some host
                   /\ host <> h2_request.authority (req ctx)) ->
  same_authority (req ctx) uri = false
  /\ add_push ctx = (0, ctx)
  /\ pushes (snd (add_push ctx)) = pushes ctx.
Proof.
  intros Hp Hd.
  assert (Hs : same_authority (req ctx) uri = false).
  { unfold same_authority.
    destruct Hd as [(sch & E & Hn)|(host & E & Hn)]; rewrite E.
    - now rewrite (streq_false _ _ Hn).
    - rewrite (streq_false _ _ Hn). apply andb_false_r. }
  assert (Ha : add_push ctx = (0, ctx)).
  { unfold add_push. destruct (_ && _); [|reflexivity].
    rewrite Hp. destruct (apr_uri_t.path uri); [|reflexivity].
    now rewrite Hs. }
  split; [exact Hs|]. split; [exact Ha|]. now rewrite Ha.
Qed.

(** Failure to parse the target adds no push either. *)
Lemma unparsed_target_never_pushed ctx :
  apr_uri_parse (link ctx) = None -> add_push ctx = (0, ctx).
Proof.
  intros Hp. unfold add_push. destruct (_ && _); [|reflexivity].
  now rewrite Hp.
Qed.

End WithUri.

Lemma cross_authority_never_pushed_witness :
  (@apr_uri_parse Sample.uri_split (link other_host) = Some other_host_uri
   /\ ((exists sch, apr_uri_t.scheme other_host_uri = Some sch
                    /\ sch <> h2_request.scheme (req other_host))
       \/ (exists host, apr_uri_t.hostinfo other_host_uri = Some host
                        /\ host <> h2_request.authority (req other_host))))
  /\ (same_authority (req other_host) other_host_uri = false
      /\ @add_push Sample.uri_split other_host = (0, other_host)
      /\ pushes (snd (@add_push Sample.uri_split other_host))
         = pushes other_host).
Proof.
  assert (H1 : @apr_uri_parse Sample.uri_split (link other_host)
               = Some other_host_uri) by (vm_compute; reflexivity).
  assert (H2 : (exists sch, apr_uri_t.scheme other_host_uri = Some sch
                    /\ sch <> h2_request.scheme (req other_host))
               \/ (exists host, apr_uri_t.hostinfo other_host_uri = Some host
                        /\ host <> h2_request.authority (req other_host))).
  { right. exists "other.com". split; [reflexivity|].
    vm_compute. discriminate. }
  split; [auto|].
  exact (@cross_authority_never_pushed Sample.uri_split other_host
           other_host_uri H1 H2).
Defined.

(** The scenario of the specification: three link-values, of which the
    second carries [nopush] and the third another host. *)
Example three_links_one_push :
  let hdr := "</style.css>; rel=preload, </app.js>; rel=preload; nopush, <https://other.com/x>; rel=preload" in
  option_map (map (fun p => (h2_request.method (h2_push.req p),
                             h2_request.path (h2_push.req p))))
    (pushes (@inspect_link Sample.uri_split (Sample.link_ctx0 "") hdr
                           (String.length hdr)))
  = Some [("GET", "/style.css")].
Proof. vm_compute. reflexivity. Qed.

End LinkProps.

(* ===================================================================== *)
(** ** The bit packer *)

Module PackProps.
Import Gset GolombRice.

(** *** Buffers *)

Lemma array_set_length a : forall k v,
  List.length (array_set a k v) = List.length a.
Proof.
  induction a as [|x a IH]; intros [|k] v; simpl; auto.
Qed.

Lemma array_set_firstn_below a : forall k v n,
  (n <= k)%nat -> firstn n (array_set a k v) = firstn n a.
Proof.
  induction a as [|x a IH]; intros [|k] v [|n] Hn; simpl; auto; try lia.
  f_equal. apply IH. lia.
Qed.

Lemma array_set_firstn_at a : forall k v,
  (k < List.length a)%nat ->
  firstn (S k) (array_set a k v) = firstn k a ++ [v].
Proof.
  induction a as [|x a IH]; intros [|k] v Hk; simpl in *; try lia.
  - reflexivity.
  - f_equal. apply IH. lia.
Qed.

Lemma array_set_twice a : forall k v w,
  array_set (array_set a k v) k w = array_set a k w.
Proof.
  induction a as [|x a IH]; intros [|k] v w; simpl; auto. now rewrite IH.
Qed.

Lemma array_get_set a : forall k v,
  (k < List.length a)%nat -> array_get (array_set a k v) k = v.
Proof.
  unfold array_get.
  induction a as [|x a IH]; intros [|k] v Hk; simpl in *; try lia; auto.
  apply IH. lia.
Qed.

Lemma array_get_firstn a k n :
  (k < n)%nat -> array_get a k = array_get (firstn n a) k.
Proof.
  unfold array_get. revert k n.
  induction a as [|x a IH]; intros [|k] [|n] Hk; simpl; auto; try lia.
  apply IH. lia.
Qed.

(** *** Byte counts *)

Lemma nbytes_full q : nbytes (8 * q) = q.
Proof.
  unfold nbytes. replace (8 * q + 7)%nat with (7 + q * 8)%nat by lia.
  rewrite Nat.div_add by lia. reflexivity.
Qed.

Lemma nbytes_part q r : (1 <= r <= 8)%nat -> nbytes (8 * q + r) = S q.
Proof.
  intros Hr. unfold nbytes.
  replace (8 * q + r + 7)%nat with ((r - 1) + (S q) * 8)%nat by lia.
  rewrite Nat.div_add by lia. rewrite Nat.div_small by lia. reflexivity.
Qed.

(** *** Appending one bit to the stream *)

Lemma byte_at_prefix bits b k :
  (8 * k + 7 < List.length bits)%nat ->
  byte_at (bits ++ [b]) k = byte_at bits k.
Proof.
  intros Hk. unfold byte_at. rewrite !app_nth1 by lia. reflexivity.
Qed.

Lemma pack_prefix bits b q :
  (8 * q <= List.length bits)%nat ->
  map (byte_at (bits ++ [b])) (seq 0 q) = map (byte_at bits) (seq 0 q).
Proof.
  intros Hq. apply map_ext_in. intros k Hk. apply in_seq in Hk.
  apply byte_at_prefix. lia.
Qed.

Ltac nth_past bits :=
  repeat match goal with
  | |- context [nth ?j (bits ++ [?b]) true] =>
      first [ rewrite (app_nth1 bits [b] true (n := j)) by lia
            | rewrite (nth_overflow (bits ++ [b]) true (n := j))
                by (rewrite length_app; cbn [List.length]; lia)
            | replace (nth j (bits ++ [b]) true) with b
                by (rewrite app_nth2 by lia;
                    replace (j - List.length bits)%nat with 0%nat by lia;
                    reflexivity) ]
  | |- context [nth ?j bits true] =>
      rewrite (nth_overflow bits true (n := j)) by lia
  end.

Ltac all_bits bits :=
  repeat match goal with
  | |- context [nth ?j bits true] => destruct (nth j bits true)
  end.

(** A stream that ends on a byte boundary gets a new byte: the bit on
    top, ones below. *)
Lemma pack_snoc_new bits b q :
  List.length bits = (8 * q)%nat ->
  pack (bits ++ [b]) = pack bits ++ [if b then 255 else 127].
Proof.
  intros Hn. unfold pack. rewrite length_app. cbn [List.length].
  rewrite Hn, nbytes_full, (nbytes_part q 1) by lia.
  rewrite seq_S, map_app, pack_prefix by lia. cbn [map Nat.add].
  f_equal. f_equal. unfold byte_at. nth_past bits.
  destruct b; reflexivity.
Qed.

(** Otherwise the bit goes into the last byte, at the place of mask
    [r]: a one leaves the padding as it is, a zero clears it. *)
Lemma pack_snoc_same bits b q r :
  List.length bits = (8 * q + r)%nat -> (1 <= r <= 7)%nat ->
  pack bits = map (byte_at bits) (seq 0 q) ++ [byte_at bits q]
  /\ pack (bits ++ [b])
     = map (byte_at bits) (seq 0 q)
         ++ [if b then byte_at bits q
             else CInt.u8 (Z.land (byte_at bits q)
                                  (Z.lnot (nth r cbit_mask 0)))].
Proof.
  intros Hn Hr. unfold pack. rewrite length_app. cbn [List.length].
  rewrite Hn.
  replace (8 * q + r + 1)%nat with (8 * q + S r)%nat by lia.
  rewrite !nbytes_part by lia.
  rewrite seq_S, !map_app, pack_prefix by lia. cbn [map Nat.add].
  split; [reflexivity|]. f_equal. f_equal.
  unfold byte_at.
  destruct r as [|[|[|[|[|[|[|[|r]]]]]]]]; try lia;
    nth_past bits; all_bits bits; destruct b; reflexivity.
Qed.

End PackProps.

(* ===================================================================== *)
(** ** The encoder writes the packed stream *)

Module EncoderProps.
Import Gset GolombRice PackProps EncoderState.

Ltac Zify.zify_post_hook ::= Z.to_euclidean_division_equations.

Lemma bit_is_testbit delta k :
  negb (Z.land (Z.shiftr delta k) 1 =? 0) = Z.testbit delta k.
Proof.
  rewrite Z.testbit_odd. change 1 with (Z.ones 1).
  rewrite Z.land_ones by lia. change (2 ^ 1) with 2.
  rewrite Zmod_odd. destruct (Z.odd (Z.shiftr delta k)); reflexivity.
Qed.

Lemma encode_bit_holds h0 h1 bits enc b :
  holds h0 h1 bits enc ->
  fst (gset_encode_bit enc b) = APR_SUCCESS
  /\ holds h0 h1 (bits ++ [negb (b =? 0)]) (snd (gset_encode_bit enc b))
  /\ last (snd (gset_encode_bit enc b)) = last enc
  /\ fixed_bits (snd (gset_encode_bit enc b)) = fixed_bits enc.
Proof.
  intros (Hlen & Hoff & Hlt & Hbit & Hdata).
  split; [reflexivity|].
  set (n := List.length bits) in *.
  assert (Hn : n = (8 * (n / 8) + n mod 8)%nat) by (apply Nat.div_mod; lia).
  set (q := (n / 8)%nat) in *. set (r := (n mod 8)%nat) in *.
  assert (Hr : (r < 8)%nat) by (apply Nat.mod_upper_bound; lia).
  assert (Hbit' : bit enc = if (r =? 0)%nat then (if (n =? 0)%nat then 8 else 7)
                            else Z.of_nat r - 1).
  { rewrite Hbit. destruct (n =? 0)%nat eqn:Qn.
    - apply Nat.eqb_eq in Qn.
      replace r with 0%nat by (unfold r; rewrite Qn; reflexivity). reflexivity.
    - apply Nat.eqb_neq in Qn. destruct (r =? 0)%nat eqn:Qr.
      + apply Nat.eqb_eq in Qr. unfold r in Qr. lia.
      + apply Nat.eqb_neq in Qr. unfold r in *. lia. }
  unfold holds. rewrite length_app. cbn [List.length]. fold n.
  replace (n + 1 =? 0)%nat with false by (symmetry; apply Nat.eqb_neq; lia).
  replace ((n + 1 - 1) mod 8)%nat with r by (unfold r; f_equal; lia).
  unfold gset_encode_bit.
  destruct (r =? 0)%nat eqn:Qr.
  - (* a new byte *)
    apply Nat.eqb_eq in Qr. rewrite Qr, Nat.add_0_r in Hn.
    assert (Hb1 : (8 <=? CInt.u32 (bit enc + 1)) = true).
    { apply Z.leb_le. unfold CInt.u32. rewrite Z.mod_small;
        destruct (n =? 0)%nat; lia. }
    rewrite Hb1.
    rewrite (pack_snoc_new bits _ q Hn).
    assert (Hnb : nbytes n = q) by (rewrite Hn; apply nbytes_full).
    assert (Hnb1 : nbytes (n + 1) = S q)
      by (rewrite Hn; apply (nbytes_part q 1); lia).
    rewrite Hnb in *. rewrite Hnb1.
    set (K := (2 + q)%nat).
    assert (HK : Z.to_nat (offset enc + 1) = K) by (unfold K; lia).
    (* the buffer after growth, if any *)
    set (grown := if datalen enc <=? offset enc + 1
                  then (firstn (Z.to_nat (datalen enc)) (data enc)
                          ++ repeat 0 (Z.to_nat (datalen enc * 2 - datalen enc)),
                        datalen enc * 2)
                  else (data enc, datalen enc)).
    assert (Hg : snd grown = Z.of_nat (List.length (fst grown))
                 /\ (K < List.length (fst grown))%nat
                 /\ firstn K (fst grown) = h0 :: h1 :: pack bits).
    { unfold grown. destruct (datalen enc <=? offset enc + 1) eqn:Qg;
        cbn [fst snd].
      - apply Z.leb_le in Qg.
        rewrite firstn_all2 by lia.
        rewrite length_app, repeat_length.
        split; [lia|]. split; [lia|].
        rewrite firstn_app.
        replace (K - List.length (data enc))%nat with 0%nat by lia.
        cbn [firstn]. rewrite app_nil_r. exact Hdata.
      - apply Z.leb_gt in Qg. split; [exact Hlen|]. split; [lia|exact Hdata]. }
    destruct grown as [dat len]. cbn [fst snd] in Hg.
    destruct Hg as (Hg1 & Hg2 & Hg3).
    destruct (b =? 0) eqn:Qb; cbn [negb snd set_buf data datalen offset bit
                                   last fixed_bits].
    + rewrite HK. rewrite array_set_twice.
      rewrite array_get_set by exact Hg2.
      change (nth (Z.to_nat 0) cbit_mask 0) with 128.
      change (CInt.u8 (Z.land 255 (Z.lnot 128))) with 127.
      rewrite array_set_length.
      repeat split; try lia.
      change (2 + S q)%nat with (S K).
      rewrite array_set_firstn_at by exact Hg2.
      rewrite Hg3. rewrite <- !app_comm_cons. reflexivity.
    + rewrite HK. rewrite array_set_length.
      repeat split; try lia.
      change (2 + S q)%nat with (S K).
      rewrite array_set_firstn_at by exact Hg2.
      rewrite Hg3. rewrite <- !app_comm_cons. reflexivity.
  - (* the byte in use *)
    apply Nat.eqb_neq in Qr.
    assert (Hb1 : CInt.u32 (bit enc + 1) = Z.of_nat r).
    { unfold CInt.u32. rewrite Z.mod_small; lia. }
    rewrite Hb1.
    replace (8 <=? Z.of_nat r) with false by (symmetry; apply Z.leb_gt; lia).
    destruct (pack_snoc_same bits (negb (b =? 0)) q r Hn ltac:(lia))
      as (Hp & Hp').
    rewrite Hp'. rewrite Hp in Hdata.
    assert (Hnb : nbytes n = S q)
      by (rewrite Hn; apply nbytes_part; lia).
    assert (Hnb1 : nbytes (n + 1) = S q).
    { rewrite Hn. replace (8 * q + r + 1)%nat with (8 * q + S r)%nat by lia.
      apply nbytes_part; lia. }
    rewrite Hnb in *. rewrite Hnb1.
    set (K := (2 + q)%nat).
    assert (HK : Z.to_nat (offset enc) = K) by (unfold K; lia).
    assert (HKlen : (K < List.length (data enc))%nat) by lia.
    assert (Hpre : firstn K (data enc)
                   = h0 :: h1 :: map (byte_at bits) (seq 0 q)).
    { replace (firstn K (data enc))
        with (firstn K (firstn (2 + S q) (data enc)))
        by (rewrite firstn_firstn; f_equal; lia).
      rewrite Hdata.
      unfold K. cbn [Nat.add firstn]. f_equal. f_equal.
      rewrite firstn_app, length_map, length_seq, Nat.sub_diag.
      cbn [firstn]. rewrite app_nil_r.
      apply firstn_all2. rewrite length_map, length_seq. lia. }
    assert (Hlast : array_get (data enc) K = byte_at bits q).
    { rewrite (array_get_firstn _ K (2 + S q)) by (unfold K; lia).
      rewrite Hdata. unfold array_get, K. cbn [Nat.add nth].
      rewrite app_nth2; rewrite length_map, length_seq; [|lia].
      rewrite Nat.sub_diag. reflexivity. }
    destruct (b =? 0) eqn:Qb; cbn [negb snd set_buf data datalen offset bit
                                   last fixed_bits].
    + rewrite HK, Nat2Z.id, Hlast. rewrite array_set_length.
      repeat split; try lia.
      change (2 + S q)%nat with (S K).
      rewrite array_set_firstn_at by exact HKlen.
      rewrite Hpre. rewrite <- !app_comm_cons. reflexivity.
    + repeat split; try lia. exact Hdata.
Qed.

End EncoderProps.

(* ===================================================================== *)
(** ** The encoder writes the Golomb-Rice stream *)

Module StreamProps.
Import Diary Gset GolombRice PackProps EncoderState EncoderProps.

Lemma encode_flex_holds h0 h1 k : forall bits enc,
  holds h0 h1 bits enc ->
  fst (encode_flex k enc) = APR_SUCCESS
  /\ holds h0 h1 (bits ++ repeat true k) (snd (encode_flex k enc))
  /\ last (snd (encode_flex k enc)) = last enc
  /\ fixed_bits (snd (encode_flex k enc)) = fixed_bits enc.
Proof.
  induction k as [|k IH]; intros bits enc Hh; cbn [encode_flex repeat].
  - rewrite app_nil_r. auto.
  - destruct (encode_bit_holds h0 h1 bits enc 1 Hh) as (S1 & H1 & L1 & F1).
    destruct (gset_encode_bit enc 1) as [st enc1]. cbn [fst snd] in *.
    rewrite S1. change (APR_SUCCESS =? APR_SUCCESS) with true. cbv iota.
    change (negb (1 =? 0)) with true in H1.
    destruct (IH _ _ H1) as (S2 & H2 & L2 & F2).
    rewrite <- app_assoc in H2. cbn [app] in H2.
    split; [exact S2|]. split; [exact H2|]. split; congruence.
Qed.

Lemma encode_fixed_holds h0 h1 delta k : forall bits enc,
  holds h0 h1 bits enc ->
  fst (encode_fixed k delta enc) = APR_SUCCESS
  /\ holds h0 h1
       (bits ++ map (fun j => Z.testbit delta (Z.of_nat j)) (rev (seq 0 k)))
       (snd (encode_fixed k delta enc))
  /\ last (snd (encode_fixed k delta enc)) = last enc
  /\ fixed_bits (snd (encode_fixed k delta enc)) = fixed_bits enc.
Proof.
  induction k as [|k IH]; intros bits enc Hh; cbn [encode_fixed].
  - cbn. rewrite app_nil_r. auto.
  - destruct (encode_bit_holds h0 h1 bits enc
                (Z.land (Z.shiftr delta (Z.of_nat k)) 1) Hh)
      as (S1 & H1 & L1 & F1).
    destruct (gset_encode_bit enc _) as [st enc1]. cbn [fst snd] in *.
    rewrite S1. change (APR_SUCCESS =? APR_SUCCESS) with true. cbv iota.
    rewrite bit_is_testbit in H1.
    destruct (IH _ _ H1) as (S2 & H2 & L2 & F2).
    rewrite <- app_assoc in H2. cbn [app] in H2.
    rewrite seq_S, rev_app_distr. cbn [rev app map Nat.add].
    split; [exact S2|]. split; [exact H2|]. split; congruence.
Qed.

(** One value: the code of its 64-bit difference from the last one. *)
Lemma encode_next_holds h0 h1 bits enc pval :
  holds h0 h1 bits enc ->
  fst (gset_encode_next enc pval) = APR_SUCCESS
  /\ holds h0 h1
       (bits ++ code (fixed_bits enc) (CInt.u64 (pval - last enc)))
       (snd (gset_encode_next enc pval))
  /\ last (snd (gset_encode_next enc pval)) = pval
  /\ fixed_bits (snd (gset_encode_next enc pval)) = fixed_bits enc.
Proof.
  intros Hh. unfold gset_encode_next, code.
  set (delta := CInt.u64 (pval - last enc)).
  set (enc0 := set_last enc pval).
  assert (H0 : holds h0 h1 bits enc0) by exact Hh.
  change (fixed_bits enc0) with (fixed_bits enc).
  destruct (encode_flex_holds h0 h1
              (Z.to_nat (Z.shiftr delta (fixed_bits enc))) bits enc0 H0)
    as (S1 & H1 & L1 & F1).
  change (fixed_bits enc0) with (fixed_bits enc) in F1.
  change (last enc0) with pval in L1.
  destruct (encode_flex _ enc0) as [st1 enc1]. cbn [fst snd] in *.
  rewrite S1. change (negb (APR_SUCCESS =? APR_SUCCESS)) with false. cbv iota.
  destruct (encode_bit_holds h0 h1 _ enc1 0 H1) as (S2 & H2 & L2 & F2).
  destruct (gset_encode_bit enc1 0) as [st2 enc2]. cbn [fst snd] in *.
  rewrite S2. change (negb (APR_SUCCESS =? APR_SUCCESS)) with false. cbv iota.
  change (negb (0 =? 0)) with false in H2.
  destruct (encode_fixed_holds h0 h1 delta (Z.to_nat (fixed_bits enc2)) _ enc2 H2)
    as (S3 & H3 & L3 & F3).
  destruct (encode_fixed _ delta enc2) as [st3 enc3]. cbn [fst snd] in *.
  rewrite S3. change (negb (APR_SUCCESS =? APR_SUCCESS)) with false. cbv iota.
  cbn [fst snd].
  rewrite <- !app_assoc in H3. cbn [app] in H3.
  replace (fixed_bits enc2) with (fixed_bits enc) in H3 by congruence.
  split; [reflexivity|]. split; [exact H3|].
  split; congruence.
Qed.

Lemma encode_hashes_holds h0 h1 l : forall bits enc prev,
  holds h0 h1 bits enc ->
  holds h0 h1 (bits ++ written (fixed_bits enc) (last enc) prev l)
        (encode_hashes enc prev l).
Proof.
  induction l as [|h l IH]; intros bits enc prev Hh;
    cbn [encode_hashes written].
  - now rewrite app_nil_r.
  - destruct (match prev with None => true | Some p => negb (h =? p) end).
    + destruct (encode_next_holds h0 h1 bits enc h Hh) as (_ & H1 & L1 & F1).
      specialize (IH _ _ (Some h) H1). rewrite L1, F1 in IH.
      now rewrite <- app_assoc in IH.
    + apply IH, Hh.
Qed.

(** *** Sorting *)

Lemma cmp_le x y : (cmp_puint64 x y <=? 0) = (x <=? y).
Proof.
  unfold cmp_puint64.
  destruct (y <? x) eqn:Q1; [|destruct (x =? y) eqn:Q2];
    symmetry; [apply Z.leb_gt|apply Z.leb_le|apply Z.leb_le]; lia.
Qed.

Lemma qsort_insert_perm x l : Permutation (qsort_insert x l) (x :: l).
Proof.
  induction l as [|y l IH]; cbn [qsort_insert]; [reflexivity|].
  destruct (cmp_puint64 x y <=? 0); [reflexivity|].
  rewrite IH. apply perm_swap.
Qed.

Lemma qsort_perm l : Permutation (qsort l) l.
Proof.
  induction l as [|x l IH]; cbn [qsort]; [reflexivity|].
  rewrite qsort_insert_perm. now constructor.
Qed.

Lemma qsort_insert_sorted x l :
  Sorted Z.le l -> Sorted Z.le (qsort_insert x l).
Proof.
  induction 1 as [|y l Hs IH Hhd]; cbn [qsort_insert].
  - repeat constructor.
  - rewrite cmp_le. destruct (x <=? y) eqn:Q.
    + apply Z.leb_le in Q. repeat constructor; assumption.
    + apply Z.leb_gt in Q. constructor; [exact IH|].
      destruct l as [|z l]; cbn [qsort_insert].
      * repeat constructor. lia.
      * rewrite cmp_le. inversion Hhd; subst.
        destruct (x <=? z); constructor; lia.
Qed.

Lemma qsort_sorted l : StronglySorted Z.le (qsort l).
Proof.
  apply Sorted_StronglySorted; [intros a b c; apply Z.le_trans|].
  induction l as [|x l IH]; cbn [qsort]; [constructor|].
  now apply qsort_insert_sorted.
Qed.

(** *** From the loop to the words of the specification *)

Lemma dedup_two p h l :
  dedup_adjacent (p :: h :: l)
  = if p =? h then dedup_adjacent (h :: l) else p :: dedup_adjacent (h :: l).
Proof. reflexivity. Qed.

Lemma dedup_head l : forall h,
  dedup_adjacent (h :: l) = h :: tl (dedup_adjacent (h :: l)).
Proof.
  induction l as [|y l IH]; intros h; [reflexivity|].
  rewrite dedup_two. destruct (h =? y) eqn:Q; [|reflexivity].
  apply Z.eqb_eq in Q. subst y. apply IH.
Qed.

(** On an ascending array of 64-bit values the loop writes the codes of
    the first differences of the array without its adjacent duplicates. *)
Lemma written_spec fb l : forall lst prev,
  StronglySorted Z.le l ->
  Forall (fun x => 0 <= x < 2 ^ 64) l ->
  match prev with
  | None => lst = 0
  | Some p => lst = p /\ Forall (fun x => p <= x) l /\ 0 <= p
  end ->
  written fb lst prev l
  = flat_map (code fb)
      (deltas lst match prev with
                  | None => dedup_adjacent l
                  | Some p => tl (dedup_adjacent (p :: l))
                  end).
Proof.
  induction l as [|h l IH]; intros lst prev Hs Hr Hp; cbn [written].
  - destruct prev; reflexivity.
  - inversion Hs as [|? ? Hs' Hle]; subst. inversion Hr as [|? ? Hh Hr']; subst.
    pose proof (dedup_head l h) as Hd.
    destruct prev as [p|].
    + destruct Hp as (-> & Hge & Hp0). inversion Hge as [|? ? Hph Hge']; subst.
      rewrite dedup_two, (Z.eqb_sym h p).
      destruct (p =? h) eqn:Q; cbn [negb].
      * apply Z.eqb_eq in Q. subst h.
        rewrite (IH p (Some p)); auto.
      * rewrite (IH h (Some h)); auto; [|split; [reflexivity|split; [assumption|lia]]].
        cbn [tl]. rewrite Hd. cbn [deltas flat_map].
        unfold CInt.u64. rewrite Z.mod_small by lia. reflexivity.
    + subst lst.
      rewrite (IH h (Some h)); auto; [|split; [reflexivity|split; [assumption|lia]]].
      rewrite Hd. cbn [deltas flat_map].
      unfold CInt.u64. rewrite Z.mod_small by lia. reflexivity.
Qed.

End StreamProps.
(* ===================================================================== *)
(** ** The digest export *)

Module DigestTheorems.
Import Diary Run Gset GolombRice PackProps EncoderState EncoderProps
       StreamProps DiaryUpdate DiaryTheorems Cases.

(** *** Rounding and logarithms *)

(** [ceil_pow2] is a power of two from 2 up that is at least [n], and
    the least such. *)
Lemma ceil_pow2_least n :
  exists k, 1 <= k
    /\ ceil_pow2 n = 2 ^ k
    /\ n <= 2 ^ k
    /\ (forall j, 1 <= j -> n <= 2 ^ j -> 2 ^ k <= 2 ^ j).
Proof.
  unfold ceil_pow2. set (a := Z.max 2 n).
  assert (Ha : 1 < a) by (unfold a; lia).
  destruct (Z.log2_up_spec a Ha) as (Lo & Hi).
  assert (Hk : 1 <= Z.log2_up a).
  { change 1 with (Z.log2_up 2). apply Z.log2_up_le_mono. unfold a. lia. }
  exists (Z.log2_up a). split; [exact Hk|]. split; [reflexivity|].
  split; [unfold a in *; lia|].
  intros j Hj Hn. apply Z.pow_le_mono_r; [lia|].
  destruct (Z.le_gt_cases (Z.log2_up a) j) as [|Hlt]; [assumption|exfalso].
  assert (2 ^ j <= 2 ^ Z.pred (Z.log2_up a))
    by (apply Z.pow_le_mono_r; lia).
  assert (2 <= 2 ^ j).
  { change 2 with (2 ^ 1) at 1. apply Z.pow_le_mono_r; lia. }
  unfold a in *. lia.
Qed.

Lemma header_log2n_small n : n <= 2 -> header_log2n n = 1.
Proof.
  intros Hn. unfold header_log2n, ceil_pow2. rewrite Z.max_l by lia.
  reflexivity.
Qed.

Lemma header_log2n_large n :
  2 < n -> header_log2n n = Z.log2 (n - 1) + 1.
Proof.
  intros Hn. unfold header_log2n, ceil_pow2. rewrite Z.max_r by lia.
  rewrite Z.log2_up_eqn by lia.
  rewrite Z.log2_pow2; [|pose proof (Z.log2_nonneg (Z.pred n)); lia].
  replace (Z.pred n) with (n - 1) by lia. lia.
Qed.

Lemma header_log2n_range n : n < 2 ^ 31 -> 1 <= header_log2n n <= 31.
Proof.
  intros Hn. destruct (Z.le_gt_cases n 2) as [Hs|Hb].
  - rewrite header_log2n_small by exact Hs. lia.
  - rewrite header_log2n_large by lia.
    assert (Z.log2 (n - 1) < 31) by (apply Z.log2_lt_pow2; lia).
    assert (1 <= Z.log2 (n - 1)).
    { change 1 with (Z.log2 2) at 1. apply Z.log2_le_mono. lia. }
    lia.
Qed.

(** The logarithm the export takes of a rounded size is the logarithm of
    the smallest power of two that holds the size, for every [int] size:
    also one above 2^30, where the rounding wraps to [INT_MIN]. *)
Lemma h2_log2_ceil n :
  n < 2 ^ 31 -> h2_log2 (ceil_power_of_2 n) = header_log2n n.
Proof.
  intros Hn. destruct (Z.le_gt_cases n 2) as [Hs|Hb].
  - rewrite header_log2n_small by exact Hs. unfold ceil_power_of_2.
    replace (n <=? 2) with true by (symmetry; apply Z.leb_le; exact Hs).
    reflexivity.
  - pose proof (header_log2n_range n Hn) as R.
    rewrite header_log2n_large in * by lia.
    unfold h2_log2. rewrite ceil_power_of_2_bits by lia.
    rewrite Z.log2_pow2 by lia. unfold CInt.u8. apply Z.mod_small. lia.
Qed.

(** *** The bytes of an export that keeps to its scratch block *)

Lemma digest_get_bytes d maxP auth :
  let log2n := h2_log2 (ceil_power_of_2 (nelts d)) in
  let log2p := CInt.u8 (H2MIN (Diary.mask_bits d - log2n)
                              (h2_log2 (ceil_power_of_2 maxP))) in
  let delta_bits := Diary.mask_bits d - (log2n + log2p) in
  authority_matches d auth = false \/ nelts d <= 1 ->
  option_map digest_bytes (h2_push_diary_digest_get d maxP auth)
  = Some (log2n :: log2p :: pack (export_bits d log2p delta_bits auth)).
Proof.
  intros log2n log2p delta_bits Hin.
  unfold h2_push_diary_digest_get, export_bits.
  fold log2n. fold log2p. cbv zeta.
  set (enc0 := mk_encoder d log2p (log2n + log2p) _ log2p _ _ 512 1 8 0).
  assert (H0 : holds log2n log2p [] enc0).
  { unfold holds, enc0.
    cbn [data datalen offset bit List.length Nat.eqb].
    rewrite !array_set_length, repeat_length.
    repeat split; try reflexivity. }
  change (Gset.delta_bits enc0) with delta_bits.
  assert (Hfin : forall bits enc,
             holds log2n log2p bits enc ->
             firstn (Z.to_nat (offset enc + 1)) (data enc)
             = log2n :: log2p :: pack bits).
  { intros bits enc (_ & Hoff & _ & _ & Hdata).
    rewrite Hoff.
    replace (Z.to_nat (Z.of_nat (1 + nbytes (List.length bits)) + 1))
      with (2 + nbytes (List.length bits))%nat by lia.
    exact Hdata. }
  destruct (authority_matches d auth) eqn:Ha.
  - destruct Hin as [Hf|Hn]; [discriminate|].
    rewrite store_hashes_fits.
    + cbn [option_map digest_bytes]. apply f_equal. apply Hfin.
      exact (encode_hashes_holds log2n log2p _ [] enc0 None H0).
    + rewrite length_map. fold (nelts d).
      assert (H1 : 0 <= nelts d) by (unfold nelts; lia).
      pose proof (pcalloc_holds (nelts d) H1). lia.
  - cbn [option_map digest_bytes]. apply f_equal. apply (Hfin [] enc0 H0).
Qed.



Example bound3_other_digest :
  option_map digest_bytes
    (h2_push_diary_digest_get bound3 256 (Some "other.org"%string))
  = Some [2; 8].
Proof. vm_compute. reflexivity. Qed.

Example bound3_wide_digest :
  option_map digest_bytes
    (h2_push_diary_digest_get bound3 1073741825 (Some "other.org"%string))
  = Some [2; 31].
Proof. vm_compute. reflexivity. Qed.

(** C7: an export for an authority other than the one the diary is
    bound to, and not the wildcard, succeeds with the two header bytes
    alone and hands back the diary as it was. *)
Theorem other_authority_header_only (d : h2_push_diary) (maxP : Z)
        (a da : string) :
  Diary.authority d = Some da -> a <> "*"%string -> a <> da ->
  exists dat,
    h2_push_diary_digest_get d maxP (Some a) = Some (APR_SUCCESS, d, dat, 2)
    /\ option_map digest_bytes (h2_push_diary_digest_get d maxP (Some a))
       = Some [h2_log2 (ceil_power_of_2 (nelts d));
               CInt.u8 (H2MIN (Diary.mask_bits d
                               - h2_log2 (ceil_power_of_2 (nelts d)))
                              (h2_log2 (ceil_power_of_2 maxP)))].
Proof.
  intros Ha Hw Hd.
  assert (Hno : authority_matches d (Some a) = false).
  { unfold authority_matches. rewrite Ha.
    unfold CStr.streq.
    replace (String.eqb "*" a) with false
      by (symmetry; apply String.eqb_neq; congruence).
    replace (String.eqb da a) with false
      by (symmetry; apply String.eqb_neq; congruence).
    reflexivity. }
  pose proof (digest_get_bytes d maxP (Some a) (or_introl Hno)) as Hb.
  cbv zeta in Hb. unfold export_bits in Hb. rewrite Hno in Hb.
  unfold h2_push_diary_digest_get in *. rewrite Hno in *.
  cbn [offset] in *. change (1 + 1) with 2 in *.
  eexists. split; [reflexivity|exact Hb].
Qed.

Lemma other_authority_header_only_witness :
  (Diary.authority bound4 = Some "example.com"%string
   /\ "other.org"%string <> "*"%string
   /\ "other.org"%string <> "example.com"%string)
  /\ exists dat,
      h2_push_diary_digest_get bound4 256 (Some "other.org"%string)
      = Some (APR_SUCCESS, bound4, dat, 2)
      /\ option_map digest_bytes
           (h2_push_diary_digest_get bound4 256 (Some "other.org"%string))
         = Some [h2_log2 (ceil_power_of_2 (nelts bound4));
                 CInt.u8 (H2MIN (Diary.mask_bits bound4
                                 - h2_log2 (ceil_power_of_2 (nelts bound4)))
                                (h2_log2 (ceil_power_of_2 256)))].
Proof.
  assert (H1 : Diary.authority bound4 = Some "example.com"%string)
    by reflexivity.
  assert (H2 : "other.org"%string <> "*"%string) by discriminate.
  assert (H3 : "other.org"%string <> "example.com"%string) by discriminate.
  split; [auto|].
  exact (other_authority_header_only bound4 256 "other.org" "example.com"
           H1 H2 H3).
Defined.

Example bound4_other_digest :
  option_map digest_bytes
    (h2_push_diary_digest_get bound4 256 (Some "other.org"%string))
  = Some [2; 8].
Proof. vm_compute. reflexivity. Qed.

(** *** The scratch array *)

(** C6: for a diary of four entries and a matching authority the export
    asks [apr_pcalloc] for 4 bytes, gets a block of 8, and stores four
    values of 8 bytes each into it: the second store lies outside the
    block and the call has no result. *)
Theorem digest_scratch_overrun :
  authority_matches full4 None = true
  /\ nelts full4 = 4
  /\ apr_pcalloc_size (nelts full4) = 8
  /\ store_hashes 8 0 (map (fun e => Z.shiftr (hash e) 54) (entries full4))
     = None
  /\ h2_push_diary_digest_get full4 256 None = None.
Proof.
  split; [reflexivity|]. split; [reflexivity|]. split; [reflexivity|].
  split; [reflexivity|].
  apply digest_get_overrun; [reflexivity|]. vm_compute. discriminate.
Qed.

Lemma shiftr_range h k :
  0 <= k -> 0 <= h < 2 ^ 64 -> 0 <= Z.shiftr h k < 2 ^ 64.
Proof.
  intros Hk Hh. rewrite Z.shiftr_div_pow2 by exact Hk.
  assert (0 < 2 ^ k) by (apply Z.pow_pos_nonneg; lia).
  split; [apply Z.div_pos; lia|].
  apply Z.le_lt_trans with h; [|lia].
  apply Z.div_le_upper_bound; nia.
Qed.

End DigestTheorems.

(* ===================================================================== *)
(** ** Further properties of the diary *)

Module DiaryExtra.
Import Diary Run DiaryProps DiaryUpdate Cases Notions.

(** *** Rounding to a power of two *)

Lemma ceil_power_of_2_log n :
  2 < n <= 2 ^ 30 -> ceil_power_of_2 n = 2 ^ (Z.log2 (n - 1) + 1).
Proof.
  intros Hn. unfold ceil_power_of_2.
  destruct (n <=? 2) eqn:Q; [apply Z.leb_le in Q; lia|]. cbv zeta.
  set (m := n - 1). assert (Hm : 0 < m) by (unfold m; lia).
  set (t := Z.log2 m).
  assert (Ht : 0 <= t < 30).
  { split; [apply Z.log2_nonneg|]. apply Z.log2_lt_pow2; unfold m; lia. }
  assert (H1 : smeared t 1 m).
  { intros j Hj. split; intros Hr.
    - replace j with t by lia. apply Z.bit_log2. exact Hm.
    - apply Z.bits_above_log2; [lia|exact Hr]. }
  pose proof (smear_step t 1 _ ltac:(lia) H1) as H2.
  pose proof (smear_step t 2 _ ltac:(lia) H2) as H4.
  pose proof (smear_step t 4 _ ltac:(lia) H4) as H8.
  pose proof (smear_step t 8 _ ltac:(lia) H8) as H16.
  pose proof (smear_step t 16 _ ltac:(lia) H16) as H32.
  cbn [Z.mul Pos.mul] in *.
  rewrite (smeared_all t _ ltac:(lia) H32).
  rewrite Z.ones_equiv.
  assert (Hp : 2 ^ (t + 1) <= 2 ^ 30) by (apply Z.pow_le_mono_r; lia).
  assert (0 < 2 ^ (t + 1)) by (apply Z.pow_pos_nonneg; lia).
  unfold CInt.s32. replace (Z.pred (2 ^ (t + 1)) + 1) with (2 ^ (t + 1)) by lia.
  rewrite Z.mod_small by lia. lia.
Qed.

(** X1: for a size between 1 and 2^30, [ceil_power_of_2] gives the
    smallest power of two that is at least the size and at least 2. *)
Theorem ceil_power_of_2_least (n : Z) :
  0 < n <= 2 ^ 30 ->
  exists k, 1 <= k <= 30
    /\ ceil_power_of_2 n = 2 ^ k
    /\ n <= 2 ^ k
    /\ (forall j, 1 <= j -> n <= 2 ^ j -> 2 ^ k <= 2 ^ j).
Proof.
  intros Hn. destruct (Z.le_gt_cases n 2) as [Hs|Hb].
  - exists 1. split; [lia|]. split.
    + unfold ceil_power_of_2.
      destruct (n <=? 2) eqn:Q; [reflexivity|apply Z.leb_gt in Q; lia].
    + split; [simpl; lia|]. intros j Hj _. apply Z.pow_le_mono_r; lia.
  - set (t := Z.log2 (n - 1)).
    assert (Ht : 1 <= t < 30).
    { split.
      - change 1 with (Z.log2 2). apply Z.log2_le_mono. lia.
      - apply Z.log2_lt_pow2; lia. }
    destruct (Z.log2_spec (n - 1) ltac:(lia)) as [Lo Hi]. fold t in Lo, Hi.
    replace (Z.succ t) with (t + 1) in Hi by lia.
    exists (t + 1). split; [lia|]. split; [apply ceil_power_of_2_log; lia|].
    split; [lia|].
    intros j Hj Hle. apply Z.pow_le_mono_r; [lia|].
    destruct (Z.le_gt_cases (t + 1) j) as [|Hlt]; [assumption|].
    assert (2 ^ j <= 2 ^ t) by (apply Z.pow_le_mono_r; lia). lia.
Qed.

Lemma ceil_power_of_2_least_witness :
  0 < 1000 <= 2 ^ 30
  /\ exists k, 1 <= k <= 30
      /\ ceil_power_of_2 1000 = 2 ^ k
      /\ 1000 <= 2 ^ k
      /\ (forall j, 1 <= j -> 1000 <= 2 ^ j -> 2 ^ k <= 2 ^ j).
Proof.
  assert (H1 : 0 < 1000 <= 2 ^ 30) by lia.
  split; [exact H1|]. exact (ceil_power_of_2_least 1000 H1).
Defined.

(** *** Lookup *)

Lemma find_down_last es h : forall k,
  let idx := find_down es k h in
  0 <= idx ->
  exists e, nth_error es (Z.to_nat idx) = Some e /\ hash e = h
    /\ forall j e', (Z.to_nat idx < j < k)%nat ->
                    nth_error es j = Some e' -> hash e' <> h.
Proof.
  induction k as [|k IH]; cbn [find_down]; cbv zeta; [lia|].
  destruct (nth_error es k) as [e|] eqn:E.
  - destruct (hash e =? h) eqn:Q.
    + intros _. rewrite Nat2Z.id. exists e. apply Z.eqb_eq in Q.
      split; [exact E|]. split; [exact Q|]. intros; lia.
    + intros Hi. destruct (IH Hi) as (e0 & E0 & H0 & L0).
      exists e0. split; [exact E0|]. split; [exact H0|].
      intros j e' Hj Ej. destruct (Nat.eq_dec j k) as [->|Hne].
      * rewrite E in Ej. inversion Ej; subst. now apply Z.eqb_neq.
      * apply (L0 j e'); [lia|exact Ej].
  - intros Hi. destruct (IH Hi) as (e0 & E0 & H0 & L0).
    exists e0. split; [exact E0|]. split; [exact H0|].
    intros j e' Hj Ej. destruct (Nat.eq_dec j k) as [->|Hne].
    + congruence.
    + apply (L0 j e'); [lia|exact Ej].
Qed.

Lemma find_last_spec (d : h2_push_diary) (h : Z) :
  let idx := h2_push_diary_find (Some d) h in
  (idx = -1 <-> ~ In h (map hash (entries d)))
  /\ (idx <> -1 ->
      0 <= idx < nelts d
      /\ exists e, nth_error (entries d) (Z.to_nat idx) = Some e
           /\ hash e = h
           /\ forall j e', (Z.to_nat idx < j)%nat ->
                nth_error (entries d) j = Some e' -> hash e' <> h).
Proof.
  cbv zeta.
  pose proof (find_down_range (entries d) (List.length (entries d)) h) as R.
  change (find_down (entries d) (List.length (entries d)) h)
    with (h2_push_diary_find (Some d) h) in R.
  split; [split|].
  - intros E Hin. pose proof (find_hit d h Hin). lia.
  - apply find_miss.
  - intros Hne. assert (Hi : 0 <= h2_push_diary_find (Some d) h) by lia.
    split; [unfold nelts; lia|].
    destruct (find_down_last (entries d) h (List.length (entries d)) Hi)
      as (e & E & He & L).
    exists e. split; [exact E|]. split; [exact He|].
    intros j e' Hj Ej. apply (L j e'); [|exact Ej].
    split; [exact Hj|]. apply nth_error_Some. congruence.
Qed.

(** X2: [h2_push_diary_find] gives -1 exactly when no entry has the
    hash, and otherwise the index of the last entry that has it. *)
Theorem find_is_last_match (d : h2_push_diary) (h : Z) :
  let idx := h2_push_diary_find (Some d) h in
  (idx = -1 <-> ~ In h (map hash (entries d)))
  /\ (idx <> -1 ->
      0 <= idx < nelts d
      /\ exists e, nth_error (entries d) (Z.to_nat idx) = Some e
           /\ hash e = h
           /\ forall j e', (Z.to_nat idx < j)%nat ->
                nth_error (entries d) j = Some e' -> hash e' <> h).
Proof. exact (find_last_spec d h). Qed.

(** *** Hits *)

Lemma nth_error_split {A} (l : list A) : forall k e,
  nth_error l k = Some e -> l = firstn k l ++ e :: skipn (S k) l.
Proof.
  induction l as [|x l IH]; intros [|k] e E; simpl in *; try discriminate.
  - now inversion E.
  - f_equal. now apply IH.
Qed.

Lemma move_to_last_entries d idx e :
  0 <= idx -> nth_error (entries d) (Z.to_nat idx) = Some e ->
  entries (move_to_last d idx)
  = firstn (Z.to_nat idx) (entries d)
      ++ skipn (S (Z.to_nat idx)) (entries d) ++ [e].
Proof.
  intros Hi E. unfold move_to_last.
  assert (Hlt : (Z.to_nat idx < List.length (entries d))%nat)
    by (apply nth_error_Some; congruence).
  unfold nelts.
  destruct (Z.of_nat (List.length (entries d)) <=? 0) eqn:Q0;
    [apply Z.leb_le in Q0; lia|].
  destruct (idx <? Z.of_nat (List.length (entries d)) - 1) eqn:Q.
  - rewrite E. reflexivity.
  - apply Z.ltb_ge in Q.
    assert (Hk : S (Z.to_nat idx) = List.length (entries d)) by lia.
    rewrite Hk, skipn_all. cbn [app].
    rewrite (nth_error_split _ _ _ E) at 1.
    rewrite Hk, skipn_all. reflexivity.
Qed.

Lemma move_to_last_as_set d idx :
  move_to_last d idx = set_entries d (entries (move_to_last d idx)).
Proof.
  unfold move_to_last.
  destruct (_ <=? 0); [now rewrite set_entries_same|].
  destruct (_ <? _); [|now rewrite set_entries_same].
  destruct (nth_error _ _); [reflexivity|now rewrite set_entries_same].
Qed.

Section WithHash.
Context {H : AprHash}.

(** X3: a candidate whose hash is in the diary is not returned; its
    entry, the last one with that hash, moves to the end and the other
    entries keep their order. *)
Theorem update_hit_moves_to_end (d : h2_push_diary) (c : h2_push.t) :
  In (dcalc d c) (map hash (entries d)) ->
  exists k e,
    nth_error (entries d) k = Some e
    /\ hash e = dcalc d c
    /\ h2_push_diary_update (mk_session (Some d)) (Some [c])
       = Some (mk_session
                 (Some (set_entries d
                          (firstn k (entries d) ++ skipn (S k) (entries d)
                             ++ [e]))),
               None).
Proof.
  intros Hin.
  pose proof (find_last_spec d (dcalc d c)) as F. cbv zeta in F.
  destruct F as [_ Hl].
  pose proof (find_hit d _ Hin) as Hr.
  destruct (Hl ltac:(lia)) as (_ & e & E & He & _).
  exists (Z.to_nat (h2_push_diary_find (Some d) (dcalc d c))), e.
  split; [exact E|]. split; [exact He|].
  unfold h2_push_diary_update. cbn [push_diary update_loop hash].
  replace (0 <=? h2_push_diary_find (Some d) (dcalc d c)) with true
    by (symmetry; apply Z.leb_le; lia).
  do 3 f_equal.
  rewrite <- (move_to_last_entries d _ e (proj1 Hr) E).
  f_equal. apply move_to_last_as_set.
Qed.

End WithHash.

Lemma update_hit_moves_to_end_witness :
  In (@dcalc Sample.hash33 full4 (Sample.candidate "/b"))
     (map hash (entries full4))
  /\ exists k e,
      nth_error (entries full4) k = Some e
      /\ hash e = @dcalc Sample.hash33 full4 (Sample.candidate "/b")
      /\ @h2_push_diary_update Sample.hash33 (mk_session (Some full4))
           (Some [Sample.candidate "/b"])
         = Some (mk_session
                   (Some (set_entries full4
                            (firstn k (entries full4)
                               ++ skipn (S k) (entries full4) ++ [e]))),
                 None).
Proof.
  assert (H1 : In (@dcalc Sample.hash33 full4 (Sample.candidate "/b"))
                  (map hash (entries full4)))
    by (vm_compute; right; left; reflexivity).
  split; [exact H1|].
  exact (@update_hit_moves_to_end Sample.hash33 full4 (Sample.candidate "/b") H1).
Defined.

(** *** What update keeps *)

Section Keeps.
Context {H : AprHash}.

Lemma find_neg_absent d h :
  (0 <=? h2_push_diary_find (Some d) h) = false ->
  ~ In h (map hash (entries d)).
Proof.
  intros Q Hin. apply Z.leb_gt in Q. pose proof (find_hit d h Hin). lia.
Qed.

Lemma update_loop_nodup ps : forall d np d' np',
  2 <= N d ->
  NoDup (map hash (entries d)) ->
  update_loop d np ps = Some (d', np') ->
  NoDup (map hash (entries d')).
Proof.
  induction ps as [|p ps IH]; intros d np d' np' HN Hnd E;
    cbn [update_loop hash] in E.
  - now inversion E; subst.
  - destruct (0 <=? h2_push_diary_find (Some d) (dcalc d p)) eqn:Q.
    + destruct (move_to_last_fields d (h2_push_diary_find (Some d) (dcalc d p)))
        as (F1 & _ & _ & _ & F5).
      eapply IH; [|  |exact E]; [lia|].
      eapply Permutation_NoDup; [|exact Hnd].
      apply Permutation_map. symmetry. exact F5.
    + rewrite append_keeps in E by assumption.
      eapply IH; [| |exact E]; [exact HN|].
      cbn [entries set_entries]. rewrite map_app. cbn [map hash].
      pose proof (find_neg_absent d _ Q) as Hab.
      set (k := (List.length (entries d) - Z.to_nat (N d - 1))%nat) in *.
      assert (Hsplit : map hash (entries d)
                       = map hash (firstn k (entries d))
                           ++ map hash (skipn k (entries d)))
        by (rewrite <- map_app, firstn_skipn; reflexivity).
      rewrite Hsplit in Hnd, Hab.
      apply NoDup_app_remove_l in Hnd.
      apply NoDup_app; [exact Hnd|repeat constructor; intros []|].
      intros x Hx [Hy|[]]. subst. apply Hab, in_or_app. now right.
Qed.

(** X4: a diary built by [diary_create] and changed by updates never
    holds the same hash twice. *)
Theorem reachable_no_duplicates (d : h2_push_diary) :
  reachable d -> NoDup (map hash (entries d)).
Proof.
  induction 1 as [dt n d Hn Hc | d pushes d' r Hr IH Hu
                  | d maxP auth st d' dat len _ IH Hg].
  - unfold diary_create in Hc. destruct (0 <? n); [|discriminate].
    inversion Hc; subst. constructor.
  - destruct (DiaryTheorems.reachable_inv d Hr) as (HN & _).
    unfold h2_push_diary_update in Hu. cbn [push_diary] in Hu.
    destruct pushes as [ps|]; [|now inversion Hu; subst].
    destruct (update_loop d None ps) as [[d2 np2]|] eqn:E; [|discriminate].
    inversion Hu; subst.
    eapply update_loop_nodup; [| |exact E]; [lia|exact IH].
  - apply DiaryTheorems.digest_get_diary in Hg. now subst.
Qed.

Lemma update_loop_subseq ps : forall d np d' np',
  update_loop d np ps = Some (d', np') ->
  exists l,
    subseq l ps
    /\ np' = match l with
             | [] => np
             | _ => Some (returned np ++ l)
             end.
Proof.
  induction ps as [|p ps IH]; intros d np d' np' E; cbn [update_loop] in E.
  - inversion E; subst. exists []. split; [constructor|reflexivity].
  - destruct (0 <=? _).
    + destruct (IH _ _ _ _ E) as (l & Hs & Hn).
      exists l. split; [now constructor|exact Hn].
    + destruct (h2_push_diary_append d _); [|discriminate].
      destruct (IH _ _ _ _ E) as (l & Hs & Hn).
      exists (p :: l). split; [now constructor|].
      rewrite Hn. unfold returned.
      destruct l; [reflexivity|].
      rewrite <- app_assoc. reflexivity.
Qed.

(** X5: what an update returns is the input with some candidates left
    out, in the input's order, and it is NULL rather than an empty
    array when every candidate is left out. *)
Theorem update_returns_subsequence (d : h2_push_diary) (ps : list h2_push.t)
        (s' : h2_session) (r : option (list h2_push.t)) :
  h2_push_diary_update (mk_session (Some d)) (Some ps) = Some (s', r) ->
  subseq (returned r) ps /\ r <> Some [].
Proof.
  unfold h2_push_diary_update. cbn [push_diary].
  destruct (update_loop d None ps) as [[d2 np2]|] eqn:E; [|discriminate].
  intros Hu. inversion Hu; subst.
  destruct (update_loop_subseq _ _ _ _ _ E) as (l & Hs & Hn).
  subst r. destruct l as [|x l]; cbn [returned app].
  - split; [exact Hs|discriminate].
  - split; [exact Hs|discriminate].
Qed.

(** X6: after an update the hash of the last candidate is in the last
    entry of the diary, whether it was found or added. *)
Theorem last_candidate_at_end (d d' : h2_push_diary) (ps : list h2_push.t)
        (c : h2_push.t) (r : option (list h2_push.t)) :
  2 <= N d ->
  h2_push_diary_update (mk_session (Some d)) (Some (ps ++ [c]))
    = Some (mk_session (Some d'), r) ->
  exists rest, map hash (entries d') = rest ++ [dcalc d c].
Proof.
  intros HN. unfold h2_push_diary_update. cbn [push_diary].
  rewrite DiaryTheorems.update_loop_app.
  destruct (update_loop_total ps d None HN) as (d1 & np1 & E1 & C1 & _).
  rewrite E1. cbn [update_loop hash].
  rewrite (same_config_dcalc d d1 c C1).
  destruct (0 <=? h2_push_diary_find (Some d1) (dcalc d c)) eqn:Q.
  - apply Z.leb_le in Q.
    pose proof (find_last_spec d1 (dcalc d c)) as F. cbv zeta in F.
    destruct F as [_ Hl]. destruct (Hl ltac:(lia)) as (_ & e & E & He & _).
    pose proof (move_to_last_entries d1 _ e Q E) as Hent.
    set (idx := h2_push_diary_find (Some d1) (dcalc d c)) in *.
    clearbody idx.
    intros Hu. inversion Hu; subst. rewrite Hent.
    rewrite !map_app. cbn [map]. rewrite He, app_assoc. eauto.
  - destruct C1 as (CN & _).
    rewrite append_keeps by lia.
    intros Hu. inversion Hu; subst. cbn [entries set_entries].
    rewrite map_app. cbn [map hash]. eauto.
Qed.

(** X7: the hash of a candidate is a 64-bit value, and with the SHA-256
    algorithm it fits the [mask_bits] of the diary. *)
Theorem dcalc_fits_width (d : h2_push_diary) (push : h2_push.t) :
  0 < Diary.mask_bits d <= 64 ->
  0 <= dcalc d push < 2 ^ 64
  /\ (dtype d = H2_PUSH_DIGEST_SHA256 ->
      dcalc d push < 2 ^ Diary.mask_bits d).
Proof.
  intros Hm.
  assert (Hsha : 0 <= calc_sha256_hash d push < 2 ^ Diary.mask_bits d).
  { unfold calc_sha256_hash.
    pose proof (sha256_fold_range
                  (SHA256.EVP_DigestFinal (sha256_input push)) 0 ltac:(lia))
      as Hr.
    set (v := fold_left _ _ 0) in *.
    rewrite Z.shiftr_div_pow2 by lia.
    assert (Hp : 2 ^ 64 = 2 ^ (64 - Diary.mask_bits d) * 2 ^ Diary.mask_bits d)
      by (rewrite <- Z.pow_add_r by lia; f_equal; lia).
    assert (0 < 2 ^ (64 - Diary.mask_bits d)) by (apply Z.pow_pos_nonneg; lia).
    split; [apply Z.div_pos; lia|].
    apply Z.div_lt_upper_bound; lia. }
  assert (Hle : 2 ^ Diary.mask_bits d <= 2 ^ 64)
    by (apply Z.pow_le_mono_r; lia).
  unfold dcalc. destruct (dtype d).
  - split; [|discriminate].
    unfold calc_apr_hash, val_apr_hash, CInt.u64, CInt.u32.
    pose proof (Z.mod_pos_bound (apr_hashfunc_default
                  (h2_request.path (h2_push.req push))) (2 ^ 32)).
    repeat apply lxor_range; try lia;
      try (apply Z.mod_pos_bound; lia).
  - split; [lia|]. intros _. lia.
Qed.

End Keeps.

Lemma last_candidate_at_end_witness :
  2 <= N full4
  /\ @h2_push_diary_update Sample.hash33 (mk_session (Some full4))
       (Some ([Sample.candidate "/e"] ++ [Sample.candidate "/b"]))
     = Some (mk_session
               (Some (set_entries full4
                        [mk_entry 548140559631976050;
                         mk_entry 548140559631976051;
                         mk_entry 548140559631976052;
                         mk_entry 548140559631976049])),
             Some [Sample.candidate "/e"])
  /\ exists rest,
      map hash [mk_entry 548140559631976050; mk_entry 548140559631976051;
                mk_entry 548140559631976052; mk_entry 548140559631976049]
      = rest ++ [@dcalc Sample.hash33 full4 (Sample.candidate "/b")].
Proof.
  assert (H1 : 2 <= N full4) by (vm_compute; discriminate).
  assert (H2 : @h2_push_diary_update Sample.hash33 (mk_session (Some full4))
                 (Some ([Sample.candidate "/e"] ++ [Sample.candidate "/b"]))
               = Some (mk_session
                         (Some (set_entries full4
                                  [mk_entry 548140559631976050;
                                   mk_entry 548140559631976051;
                                   mk_entry 548140559631976052;
                                   mk_entry 548140559631976049])),
                       Some [Sample.candidate "/e"]))
    by (vm_compute; reflexivity).
  split; [exact H1|]. split; [exact H2|].
  exact (@last_candidate_at_end Sample.hash33 full4 _ _ _ _ H1 H2).
Defined.

Lemma reachable_no_duplicates_witness :
  @reachable Sample.hash33 full4 /\ NoDup (map hash (entries full4)).
Proof.
  split; [exact DiaryTheorems.full4_reachable|].
  exact (@reachable_no_duplicates Sample.hash33 full4
           DiaryTheorems.full4_reachable).
Defined.

Lemma update_returns_subsequence_witness :
  let ps := [Sample.candidate "/e"; Sample.candidate "/b"] in
  let s' := mk_session
              (Some (set_entries full4
                       [mk_entry 548140559631976050;
                        mk_entry 548140559631976051;
                        mk_entry 548140559631976052;
                        mk_entry 548140559631976049])) in
  let r := Some [Sample.candidate "/e"] in
  @h2_push_diary_update Sample.hash33 (mk_session (Some full4)) (Some ps)
    = Some (s', r)
  /\ (subseq (returned r) ps /\ r <> Some []).
Proof.
  intros ps s' r.
  assert (H1 : @h2_push_diary_update Sample.hash33 (mk_session (Some full4))
                 (Some ps) = Some (s', r)) by (vm_compute; reflexivity).
  split; [exact H1|].
  exact (@update_returns_subsequence Sample.hash33 full4 ps s' r H1).
Defined.

Lemma dcalc_fits_width_witness :
  let d := sha_diary 20 in
  let push := Sample.candidate "/style.css" in
  0 < Diary.mask_bits d <= 64
  /\ (0 <= @dcalc Sample.hash33 d push < 2 ^ 64
      /\ (dtype d = H2_PUSH_DIGEST_SHA256 ->
          @dcalc Sample.hash33 d push < 2 ^ Diary.mask_bits d)).
Proof.
  intros d push.
  assert (H1 : 0 < Diary.mask_bits d <= 64) by (unfold d; simpl; lia).
  split; [exact H1|].
  exact (@dcalc_fits_width Sample.hash33 d push H1).
Defined.

End DiaryExtra.

(* ===================================================================== *)
(** ** Further properties of the link parser *)

Module LinkExtra.
Import AprTable Link Cases Notions LinkProps.
Local Open Scope string_scope.

(** *** Scanning *)

Lemma scan_while_spec test str n : forall fuel k,
  (n - k <= fuel)%nat ->
  let k' := scan_while test str n fuel k in
  (k <= k')%nat
  /\ (k <= n -> k' <= n)%nat
  /\ (forall j, (k <= j < k')%nat -> test (chr str j) = true)
  /\ ((k' < n)%nat -> test (chr str k') = false).
Proof.
  induction fuel as [|fuel IH]; intros k Hf; cbn [scan_while]; cbv zeta.
  - repeat split; intros; lia.
  - destruct (k <? n)%nat eqn:Q; cbn [andb].
    + apply Nat.ltb_lt in Q. destruct (test (chr str k)) eqn:T.
      * specialize (IH (S k) ltac:(lia)). cbv zeta in IH.
        destruct IH as (A & B & C & D).
        repeat split; try lia; [|exact D].
        intros j Hj. destruct (Nat.eq_dec j k) as [->|]; [exact T|].
        apply C. lia.
      * repeat split; intros; try lia. exact T.
    + apply Nat.ltb_ge in Q. repeat split; intros; lia.
Qed.

Lemma skip_ws_spec (ctx : link_ctx) :
  let ctx' := snd (skip_ws ctx) in
  ctx' = set_i ctx (i ctx')
  /\ (i ctx <= i ctx')%nat
  /\ (i ctx <= slen ctx -> i ctx' <= slen ctx)%nat
  /\ (forall j, (i ctx <= j < i ctx')%nat -> is_wsp (chr (s ctx) j) = true)
  /\ fst (skip_ws ctx) = (i ctx' <? slen ctx)%nat
  /\ (fst (skip_ws ctx) = true -> is_wsp (chr (s ctx) (i ctx')) = false).
Proof.
  cbv zeta. unfold skip_ws. cbn [fst snd i].
  destruct (scan_while_spec is_wsp (s ctx) (slen ctx) (slen ctx - i ctx) (i ctx)
              (le_n _)) as (A & B & C & D).
  repeat split; try assumption.
  intros Hm. apply Nat.ltb_lt in Hm. exact (D Hm).
Qed.

(** X8: [skip_ws] moves the cursor over blanks and tabs only, stops at
    the first other character or at the end of the text, and answers
    whether text is left. *)
Theorem skip_ws_stops_at_text (ctx : link_ctx) :
  let ctx' := snd (skip_ws ctx) in
  ctx' = set_i ctx (i ctx')
  /\ (i ctx <= i ctx')%nat
  /\ (i ctx <= slen ctx -> i ctx' <= slen ctx)%nat
  /\ (forall j, (i ctx <= j < i ctx')%nat -> is_wsp (chr (s ctx) j) = true)
  /\ fst (skip_ws ctx) = (i ctx' <? slen ctx)%nat
  /\ (fst (skip_ws ctx) = true -> is_wsp (chr (s ctx) (i ctx')) = false).
Proof. exact (skip_ws_spec ctx). Qed.

Lemma find_chr_from_spec str n c : forall fuel j,
  (n - j <= fuel)%nat ->
  match find_chr_from str n c fuel j with
  | Some e => (j <= e < n)%nat /\ chr str e = c
              /\ forall k, (j <= k < e)%nat -> chr str k <> c
  | None => forall k, (j <= k < n)%nat -> chr str k <> c
  end.
Proof.
  induction fuel as [|fuel IH]; intros j Hf; cbn [find_chr_from].
  - intros; lia.
  - destruct (j <? n)%nat eqn:Q.
    + apply Nat.ltb_lt in Q. destruct (Ascii.eqb (chr str j) c) eqn:T.
      * apply Ascii.eqb_eq in T. repeat split; try lia. exact T.
      * apply Ascii.eqb_neq in T. specialize (IH (S j) ltac:(lia)).
        destruct (find_chr_from str n c fuel (S j)) as [e|].
        -- destruct IH as (A & B & C). repeat split; try lia; [exact B|].
           intros k Hk. destruct (Nat.eq_dec k j) as [->|]; [exact T|].
           apply C. lia.
        -- intros k Hk. destruct (Nat.eq_dec k j) as [->|]; [exact T|].
           apply IH. lia.
    + apply Nat.ltb_ge in Q. intros; lia.
Qed.

Lemma find_chr_spec (ctx : link_ctx) (c : ascii) :
  match find_chr ctx c with
  | Some e => (i ctx <= e < slen ctx)%nat /\ chr (s ctx) e = c
              /\ forall k, (i ctx <= k < e)%nat -> chr (s ctx) k <> c
  | None => forall k, (i ctx <= k < slen ctx)%nat -> chr (s ctx) k <> c
  end.
Proof.
  unfold find_chr. apply find_chr_from_spec. lia.
Qed.

(** X9: [find_chr] gives the first place at or after the cursor, and
    before the end of the text, that holds the character, and fails
    exactly when there is none. *)
Theorem find_chr_first (ctx : link_ctx) (c : ascii) :
  match find_chr ctx c with
  | Some e => (i ctx <= e < slen ctx)%nat /\ chr (s ctx) e = c
              /\ forall k, (i ctx <= k < e)%nat -> chr (s ctx) k <> c
  | None => forall k, (i ctx <= k < slen ctx)%nat -> chr (s ctx) k <> c
  end.
Proof. exact (find_chr_spec ctx c). Qed.

(** X10: every character of a parameter name may also stand in an
    unquoted value, and neither may hold a blank, a tab, a semicolon, a
    comma or a double quote, at which the readers therefore stop. *)
Theorem token_chars (c : ascii) :
  (attr_char c = true -> ptoken_char c = true)
  /\ (In c [" "; "009"; ";"; ","; CStr.dquote]%char ->
      attr_char c = false /\ ptoken_char c = false)
  /\ (attr_char "="%char = false /\ ptoken_char "="%char = true).
Proof.
  split; [|split].
  - destruct c as [[] [] [] [] [] [] [] []]; vm_compute; auto.
  - intros [<-|[<-|[<-|[<-|[<-|[]]]]]]; vm_compute; auto.
  - vm_compute. auto.
Qed.

(** *** What the readers leave alone *)

Lemma moves_on_refl ctx : moves_on ctx ctx.
Proof. unfold moves_on. repeat split; auto. Qed.

Lemma moves_on_trans a b c : moves_on a b -> moves_on b c -> moves_on a c.
Proof.
  unfold moves_on. intros (A1 & A2 & A3 & A4 & A5 & A6 & A7)
                          (B1 & B2 & B3 & B4 & B5 & B6 & B7).
  rewrite A5 in *. repeat split; try congruence; lia.
Qed.

Lemma set_i_moves ctx k :
  (i ctx <= k)%nat -> (i ctx <= slen ctx -> k <= slen ctx)%nat ->
  moves_on ctx (set_i ctx k).
Proof. unfold moves_on. cbn. intros. repeat split; auto. Qed.

Lemma skip_ws_moves ctx : moves_on ctx (snd (skip_ws ctx)).
Proof.
  destruct (skip_ws_spec ctx) as (E & A & B & _). cbv zeta in *.
  rewrite E. apply set_i_moves; assumption.
Qed.

Lemma read_chr_moves ctx c :
  moves_on ctx (snd (read_chr ctx c))
  /\ (fst (read_chr ctx c) = true ->
      i (snd (read_chr ctx c)) = S (i ctx) /\ (i ctx < slen ctx)%nat).
Proof.
  unfold read_chr. destruct (i ctx <? slen ctx)%nat eqn:Q; cbn [andb].
  - apply Nat.ltb_lt in Q. destruct (Ascii.eqb _ c); cbn [fst snd].
    + split; [apply set_i_moves; lia|]. auto.
    + split; [apply moves_on_refl|discriminate].
  - cbn [fst snd]. split; [apply moves_on_refl|discriminate].
Qed.

Lemma scan_moves test ctx :
  let k := scan_while test (s ctx) (slen ctx) (slen ctx - i ctx) (i ctx) in
  moves_on ctx (set_i ctx k).
Proof.
  cbv zeta.
  destruct (scan_while_spec test (s ctx) (slen ctx) (slen ctx - i ctx) (i ctx)
              (le_n _)) as (A & B & _).
  apply set_i_moves; assumption.
Qed.

Lemma read_qstring_moves ctx ps : moves_on ctx (snd (fst (read_qstring ctx ps))).
Proof.
  unfold read_qstring. pose proof (skip_ws_moves ctx) as M1.
  destruct (skip_ws ctx) as [more c1]. cbn [snd] in M1.
  destruct more; [|exact M1].
  destruct (read_chr_moves c1 CStr.dquote) as (M2 & _).
  destruct (read_chr c1 CStr.dquote) as [got c2]. cbn [snd] in M2.
  destruct got; [|exact (moves_on_trans _ _ _ M1 M2)].
  pose proof (find_chr_spec c2 CStr.dquote) as F.
  destruct (find_chr c2 CStr.dquote) as [e|]; cbn [fst snd].
  - eapply moves_on_trans; [exact (moves_on_trans _ _ _ M1 M2)|].
    apply set_i_moves; lia.
  - exact (moves_on_trans _ _ _ M1 M2).
Qed.

Lemma read_token_moves test ctx ps :
  moves_on ctx
    (snd (fst (let '(more, ctx1) := skip_ws ctx in
               if more then
                 let k := scan_while test (s ctx1) (slen ctx1)
                                     (slen ctx1 - i ctx1) (i ctx1) in
                 if (i ctx1 <? k)%nat then (true, set_i ctx1 k, mk_str ctx1 k)
                 else (false, ctx1, ps)
               else (false, ctx1, ps)))).
Proof.
  pose proof (skip_ws_moves ctx) as M1.
  destruct (skip_ws ctx) as [more c1]. cbn [snd] in M1.
  destruct more; [|exact M1]. cbv zeta.
  destruct (_ <? _)%nat; cbn [fst snd]; [|exact M1].
  eapply moves_on_trans; [exact M1|apply scan_moves].
Qed.

Lemma read_ptoken_moves ctx ps : moves_on ctx (snd (fst (read_ptoken ctx ps))).
Proof. apply (read_token_moves ptoken_char). Qed.

Lemma read_pname_moves ctx ps : moves_on ctx (snd (fst (read_pname ctx ps))).
Proof. apply (read_token_moves attr_char). Qed.

Lemma read_pvalue_moves ctx ps : moves_on ctx (snd (fst (read_pvalue ctx ps))).
Proof.
  unfold read_pvalue. pose proof (skip_ws_moves ctx) as M1.
  destruct (skip_ws ctx) as [more c1]. cbn [snd] in M1.
  destruct more; [|exact M1].
  destruct (read_chr_moves c1 "="%char) as (M2 & _).
  destruct (read_chr c1 "="%char) as [got c2]. cbn [snd] in M2.
  pose proof (moves_on_trans _ _ _ M1 M2) as M12.
  destruct got; [|exact M12].
  pose proof (read_qstring_moves c2 ps) as M3.
  destruct (read_qstring c2 ps) as [[okq c3] v3]. cbn [fst snd] in M3.
  pose proof (moves_on_trans _ _ _ M12 M3) as M13.
  destruct okq; [exact M13|].
  pose proof (read_ptoken_moves c3 v3) as M4.
  destruct (read_ptoken c3 v3) as [[okt c4] v4]. cbn [fst snd] in M4.
  destruct okt; exact (moves_on_trans _ _ _ M13 M4).
Qed.

Lemma set_link_moves ctx v : moves_on ctx (set_link ctx v).
Proof. unfold moves_on. cbn. repeat split; auto. Qed.

Lemma set_params_moves ctx v : moves_on ctx (set_params ctx v).
Proof. unfold moves_on. cbn. repeat split; auto. Qed.

Lemma read_link_moves ctx :
  moves_on ctx (snd (read_link ctx))
  /\ (fst (read_link ctx) = true ->
      (i ctx < i (snd (read_link ctx)))%nat /\ (i ctx < slen ctx)%nat).
Proof.
  unfold read_link. pose proof (skip_ws_moves ctx) as M1.
  destruct (skip_ws ctx) as [more c1]. cbn [snd] in M1.
  destruct more; [|split; [exact M1|discriminate]].
  destruct (read_chr_moves c1 "<"%char) as (M2 & S2).
  destruct (read_chr c1 "<"%char) as [got c2]. cbn [fst snd] in M2, S2.
  pose proof (moves_on_trans _ _ _ M1 M2) as M12.
  destruct got; [|split; [exact M12|discriminate]].
  destruct (S2 eq_refl) as (Si & Sl).
  pose proof (find_chr_spec c2 ">"%char) as F.
  destruct (find_chr c2 ">"%char) as [e|]; cbn [fst snd].
  - destruct F as (Fr & _).
    destruct M1 as (_ & _ & _ & _ & L1 & I1 & _).
    split.
    + eapply moves_on_trans; [exact M12|].
      eapply moves_on_trans; [apply set_link_moves|].
      apply set_i_moves; cbn; lia.
    + intros _. cbn. lia.
  - split; [exact M12|discriminate].
Qed.

Lemma read_param_moves ctx :
  moves_on ctx (snd (read_param ctx))
  /\ (fst (read_param ctx) = true ->
      (i ctx < i (snd (read_param ctx)))%nat /\ (i ctx < slen ctx)%nat).
Proof.
  unfold read_param. pose proof (skip_ws_moves ctx) as M1.
  destruct (skip_ws ctx) as [more c1]. cbn [snd] in M1.
  destruct more; [|split; [exact M1|discriminate]].
  destruct (read_chr_moves c1 ";"%char) as (M2 & S2).
  destruct (read_chr c1 ";"%char) as [got c2]. cbn [fst snd] in M2, S2.
  pose proof (moves_on_trans _ _ _ M1 M2) as M12.
  destruct got; [|split; [exact M12|discriminate]].
  destruct (S2 eq_refl) as (Si & Sl).
  pose proof (read_pname_moves c2 "") as M3.
  destruct (read_pname c2 "") as [[okn c3] name]. cbn [fst snd] in M3.
  pose proof (moves_on_trans _ _ _ M12 M3) as M13.
  destruct okn; [|split; [exact M13|discriminate]].
  pose proof (read_pvalue_moves c3 "") as M4.
  destruct (read_pvalue c3 "") as [[okv c4] value]. cbn [fst snd] in M4.
  pose proof (moves_on_trans _ _ _ M13 M4) as M14.
  cbn [fst snd]. split.
  - eapply moves_on_trans; [exact M14|apply set_params_moves].
  - intros _. cbn.
    destruct M1 as (_ & _ & _ & _ & L1 & I1 & _).
    destruct M3 as (_ & _ & _ & _ & _ & I3 & _).
    destruct M4 as (_ & _ & _ & _ & _ & I4 & _). lia.
Qed.

Lemma read_sep_moves ctx :
  moves_on ctx (snd (read_sep ctx))
  /\ (fst (read_sep ctx) = true -> (i ctx < i (snd (read_sep ctx)))%nat).
Proof.
  unfold read_sep. pose proof (skip_ws_moves ctx) as M1.
  destruct (skip_ws ctx) as [more c1]. cbn [snd] in M1.
  destruct more; [|split; [exact M1|discriminate]].
  destruct (read_chr_moves c1 ","%char) as (M2 & S2).
  split; [exact (moves_on_trans _ _ _ M1 M2)|].
  intros Hs. destruct (S2 Hs) as (Si & _).
  destruct M1 as (_ & _ & _ & _ & _ & I1 & _). lia.
Qed.

Lemma init_params_moves ctx : moves_on ctx (init_params ctx).
Proof. unfold init_params. destruct (params ctx); apply set_params_moves. Qed.

Lemma read_params_moves fuel : forall ctx, moves_on ctx (read_params fuel ctx).
Proof.
  induction fuel as [|fuel IH]; intros ctx; cbn [read_params];
    destruct (read_param_moves ctx) as (M & _);
    destruct (read_param ctx) as [ok c1]; cbn [snd] in M;
    destruct ok; try exact M.
  eapply moves_on_trans; [exact M|apply IH].
Qed.

Lemma read_params_stops k : forall ctx,
  (slen ctx - i ctx <= k)%nat ->
  exists n last,
    (n <= slen ctx - i ctx)%nat
    /\ turns read_param n ctx last
    /\ fst (read_param last) = false
    /\ forall fuel, (n <= fuel)%nat ->
         read_params fuel ctx = snd (read_param last).
Proof.
  induction k as [|k IH]; intros ctx Hk;
    destruct (read_param_moves ctx) as (M & S);
    destruct (read_param ctx) as [ok c1] eqn:E; cbn [fst snd] in M, S;
    destruct ok.
  - destruct (S eq_refl). lia.
  - exists 0%nat, ctx. rewrite E. split; [lia|]. split; [constructor|].
    split; [reflexivity|].
    intros fuel _. destruct fuel; cbn [read_params]; rewrite E; reflexivity.
  - destruct (S eq_refl) as (Sa & Sb).
    destruct M as (_ & _ & _ & _ & L & _ & _).
    destruct (IH c1 ltac:(rewrite L; lia)) as (n & last & Hn & T & F & R).
    exists (Datatypes.S n), last. split; [rewrite L in Hn; lia|].
    split; [econstructor; [exact E|exact T]|]. split; [exact F|].
    intros fuel Hf. destruct fuel as [|fuel]; [lia|].
    cbn [read_params]. rewrite E. apply R. lia.
  - exists 0%nat, ctx. rewrite E. split; [lia|]. split; [constructor|].
    split; [reflexivity|].
    intros fuel _. destruct fuel; cbn [read_params]; rewrite E; reflexivity.
Qed.

(** X11: the loop that reads the parameters of a link ends: after no
    more successful turns of [read_param] than characters are left
    behind the cursor, [read_param] fails, and the loop leaves the
    context of that failed call. *)
Theorem read_params_ends (ctx : link_ctx) :
  exists n last,
    (n <= slen ctx - i ctx)%nat
    /\ turns read_param n ctx last
    /\ fst (read_param last) = false
    /\ forall fuel, (n <= fuel)%nat ->
         read_params fuel ctx = snd (read_param last).
Proof. exact (read_params_stops (slen ctx - i ctx) ctx (le_n _)). Qed.

(** *** The headers a push inherits *)

Lemma push_header_name_case k k' :
  CStr.strcaseeq k k' = true -> push_header_name k = push_header_name k'.
Proof.
  intros E. unfold push_header_name, push_header_names. cbn [existsb].
  rewrite !(strcaseeq_sym _ k), !(strcaseeq_sym _ k').
  rewrite !(strcaseeq_trans k k' _ E). reflexivity.
Qed.

Lemma set_push_header_allowed hd key value :
  set_push_header hd key value
  = (true, if push_header_name key then apr_table_setn hd key value else hd).
Proof.
  unfold set_push_header, push_header_name, push_header_names, H2_HD_MATCH_LIT.
  cbn [existsb]. rewrite orb_false_r, !orb_assoc.
  destruct (_ || _); reflexivity.
Qed.

Lemma push_headers_get hdrs : forall acc k,
  apr_table_get (apr_table_do set_push_header acc hdrs) k
  = match (if push_header_name k then last_value hdrs k else None) with
    | Some v => Some v
    | None => apr_table_get acc k
    end.
Proof.
  induction hdrs as [|[k0 v0] hdrs IH]; intros acc k;
    cbn [apr_table_do last_value].
  - destruct (push_header_name k); reflexivity.
  - rewrite set_push_header_allowed. rewrite IH.
    destruct (push_header_name k) eqn:Pk.
    + destruct (last_value hdrs k); [reflexivity|].
      destruct (CStr.strcaseeq k0 k) eqn:E.
      * rewrite (push_header_name_case _ _ E), Pk, get_setn, E. reflexivity.
      * destruct (push_header_name k0); [|reflexivity].
        rewrite get_setn, E. reflexivity.
    + destruct (push_header_name k0) eqn:P0; [|reflexivity].
      rewrite get_setn.
      destruct (CStr.strcaseeq k0 k) eqn:E; [|reflexivity].
      rewrite (push_header_name_case _ _ E) in P0. congruence.
Qed.

Lemma push_headers_spec (hdrs : apr_table_t) (k : string) :
  apr_table_get (apr_table_do set_push_header apr_table_make hdrs) k
  = if push_header_name k then last_value hdrs k else None.
Proof.
  rewrite push_headers_get. cbn [apr_table_make apr_table_get].
  destruct (push_header_name k); [destruct (last_value hdrs k)|]; reflexivity.
Qed.

(** X12: of the request headers a push inherits User-Agent, Accept,
    Accept-Encoding, Accept-Language and Cache-Control, in any letter
    case, each with the value of its last occurrence, and nothing else. *)
Theorem push_headers_allow_list (hdrs : apr_table_t) (k : string) :
  apr_table_get (apr_table_do set_push_header apr_table_make hdrs) k
  = if push_header_name k then last_value hdrs k else None.
Proof. exact (push_headers_spec hdrs k). Qed.

(** *** What gets pushed *)

Section WithUri.
Context {U : AprUri}.

Lemma add_push_frame ctx :
  req (snd (add_push ctx)) = req ctx
  /\ push_policy (snd (add_push ctx)) = push_policy ctx
  /\ s (snd (add_push ctx)) = s ctx
  /\ slen (snd (add_push ctx)) = slen ctx
  /\ i (snd (add_push ctx)) = i ctx.
Proof.
  unfold add_push. destruct (_ && _); [|cbn; auto].
  destruct (apr_uri_parse (link ctx)) as [uri|]; [|cbn; auto].
  destruct (apr_uri_t.path uri); [|cbn; auto].
  destruct (same_authority (req ctx) uri); cbn; auto.
Qed.

Lemma add_push_pushes ctx :
  pushes (snd (add_push ctx)) = pushes ctx
  \/ exists p,
       pushes (snd (add_push ctx))
       = Some ((Run.returned (pushes ctx) ++ [p])%list)
       /\ push_of (req ctx) (push_policy ctx) p.
Proof.
  unfold add_push. destruct (_ && _); [|now left].
  destruct (apr_uri_parse (link ctx)) as [uri|]; [|now left].
  destruct (apr_uri_t.path uri); [|now left].
  destruct (same_authority (req ctx) uri); [|now left].
  right. eexists. split; [reflexivity|].
  unfold push_of, h2_request_end_headers, h2_request_create.
  cbn [h2_push.req h2_request.scheme h2_request.authority
       h2_request.method h2_request.push h2_request.headers].
  split; [reflexivity|]. split; [reflexivity|].
  split; [destruct (push_policy ctx); reflexivity|].
  split; [reflexivity|].
  split; intros k Hk; rewrite push_headers_spec, Hk; reflexivity.
Qed.

Lemma add_push_ok ctx : pushes_ok ctx -> pushes_ok (snd (add_push ctx)).
Proof.
  intros (Hne & Hall). unfold pushes_ok.
  destruct (add_push_frame ctx) as (F1 & F2 & _). rewrite F1, F2.
  destruct (add_push_pushes ctx) as [E|(p & E & Hp)]; rewrite E.
  - auto.
  - split; [destruct (Run.returned (pushes ctx)); discriminate|].
    cbn [Run.returned]. apply Forall_app. split; [exact Hall|].
    constructor; [exact Hp|constructor].
Qed.

Lemma moves_on_ok ctx ctx' : moves_on ctx ctx' -> pushes_ok ctx -> pushes_ok ctx'.
Proof.
  intros (A1 & A2 & A3 & _) (Hne & Hall). unfold pushes_ok.
  rewrite A1, A2, A3. auto.
Qed.

(** One turn of the [read_link] loop, as [inspect_links] runs it. *)
Lemma inspect_turn ctx :
  let c1 := snd (read_link ctx) in
  let c3 := read_params (slen (init_params c1)) (init_params c1) in
  let c4 := snd (add_push c3) in
  let c5 := snd (read_sep c4) in
  fst (read_link ctx) = true ->
  (pushes_ok ctx -> pushes_ok c5)
  /\ req c5 = req ctx /\ push_policy c5 = push_policy ctx
  /\ s c5 = s ctx /\ slen c5 = slen ctx
  /\ (i ctx < i c5)%nat.
Proof.
  cbv zeta. intros Hok.
  destruct (read_link_moves ctx) as (M1 & S1). specialize (S1 Hok).
  set (c1 := snd (read_link ctx)) in *.
  pose proof (init_params_moves c1) as M2.
  pose proof (read_params_moves (slen (init_params c1)) (init_params c1)) as M3.
  set (c3 := read_params _ _) in *.
  pose proof (moves_on_trans _ _ _ M1 (moves_on_trans _ _ _ M2 M3)) as M13.
  destruct (read_sep_moves (snd (add_push c3))) as (M5 & _).
  destruct (add_push_frame c3) as (F1 & F2 & F3 & F4 & F5).
  set (c5 := snd (read_sep _)) in *.
  split.
  - intros Hp. eapply moves_on_ok; [exact M5|].
    apply add_push_ok. eapply moves_on_ok; [exact M13|exact Hp].
  - destruct (moves_on_trans _ _ _ M2 M3) as (_ & _ & _ & _ & _ & I13 & _).
    destruct M13 as (A1 & A2 & A3 & A4 & A5 & A6 & A7).
    destruct M5 as (B1 & B2 & B3 & B4 & B5 & B6 & B7).
    destruct S1 as (Sa & Sb).
    repeat split; try congruence. lia.
Qed.

Lemma inspect_links_ok fuel : forall ctx,
  pushes_ok ctx ->
  pushes_ok (inspect_links fuel ctx)
  /\ req (inspect_links fuel ctx) = req ctx
  /\ push_policy (inspect_links fuel ctx) = push_policy ctx.
Proof.
  induction fuel as [|fuel IH]; intros ctx Hp; cbn [inspect_links];
    pose proof (inspect_turn ctx) as T; cbv zeta in T;
    destruct (read_link_moves ctx) as (M1 & _);
    destruct (read_link ctx) as [ok c1]; cbn [fst snd] in *;
    (destruct ok;
     [destruct (T eq_refl) as (P & R1 & R2 & _);
      destruct (add_push _) as [z c4]; cbn [snd] in *;
      destruct (read_sep c4) as [sep c5]; cbn [snd] in *
     |destruct M1 as (A1 & A2 & A3 & _); unfold pushes_ok in *;
      rewrite A1, A2, A3; auto]).
  - destruct sep; auto.
  - destruct sep; [|auto].
    destruct (IH c5 (P Hp)) as (Q1 & Q2 & Q3).
    split; [exact Q1|]. split; congruence.
Qed.

Lemma inspect_links_turn fuel ctx :
  inspect_links fuel ctx
  = (let '(go, c) := link_turn ctx in
     if go then match fuel with
                | O => c
                | S fuel' => inspect_links fuel' c
                end
     else c).
Proof.
  unfold link_turn. destruct fuel; cbn [inspect_links];
    destruct (read_link ctx) as [ok c1]; destruct ok; try reflexivity;
    destruct (add_push _) as [z c4]; destruct (read_sep c4) as [sep c5];
    reflexivity.
Qed.

Lemma link_turn_moves ctx c :
  link_turn ctx = (true, c) -> slen c = slen ctx /\ (i ctx < i c)%nat.
Proof.
  unfold link_turn. intros E.
  pose proof (inspect_turn ctx) as T. cbv zeta in T.
  destruct (read_link ctx) as [ok c1]; cbn [fst snd] in *.
  destruct ok; [|discriminate].
  destruct (T eq_refl) as (_ & _ & _ & _ & L & I5).
  destruct (add_push _) as [z c4]; cbn [snd] in *.
  rewrite E in L, I5. cbn [snd] in L, I5. auto.
Qed.

Lemma inspect_links_stops k : forall ctx,
  (slen ctx - i ctx <= k)%nat ->
  exists n last,
    (n <= slen ctx - i ctx)%nat
    /\ turns link_turn n ctx last
    /\ fst (link_turn last) = false
    /\ forall fuel, (n <= fuel)%nat ->
         inspect_links fuel ctx = snd (link_turn last).
Proof.
  induction k as [|k IH]; intros ctx Hk;
    destruct (link_turn ctx) as [go c1] eqn:E; destruct go.
  - destruct (link_turn_moves ctx c1 E) as (L & I1).
    destruct (read_link_moves ctx) as (_ & S1).
    assert (fst (read_link ctx) = true).
    { unfold link_turn in E. destruct (read_link ctx) as [ok c0].
      destruct ok; [reflexivity|discriminate]. }
    destruct (S1 H). lia.
  - exists 0%nat, ctx. rewrite E. split; [lia|]. split; [constructor|].
    split; [reflexivity|].
    intros fuel _. rewrite inspect_links_turn, E. reflexivity.
  - destruct (link_turn_moves ctx c1 E) as (L & I1).
    destruct (read_link_moves ctx) as (_ & S1).
    assert (H : fst (read_link ctx) = true).
    { unfold link_turn in E. destruct (read_link ctx) as [ok c0].
      destruct ok; [reflexivity|discriminate]. }
    destruct (S1 H) as (_ & Sb).
    destruct (IH c1 ltac:(rewrite L; lia)) as (n & last & Hn & T & F & R).
    exists (S n), last. split; [rewrite L in Hn; lia|].
    split; [econstructor; [exact E|exact T]|]. split; [exact F|].
    intros fuel Hf. destruct fuel as [|fuel]; [lia|].
    rewrite inspect_links_turn, E. apply R. lia.
  - exists 0%nat, ctx. rewrite E. split; [lia|]. split; [constructor|].
    split; [reflexivity|].
    intros fuel _. rewrite inspect_links_turn, E. reflexivity.
Qed.

(** X13: the loop of [inspect_link] over the link-values of a header
    ends: after no more turns that find a link and a separating comma
    than characters are left behind the cursor, a turn finds no link or
    no comma, and the loop leaves the context of that turn. *)
Theorem inspect_links_ends (ctx : link_ctx) :
  exists n last,
    (n <= slen ctx - i ctx)%nat
    /\ turns link_turn n ctx last
    /\ fst (link_turn last) = false
    /\ forall fuel, (n <= fuel)%nat ->
         inspect_links fuel ctx = snd (link_turn last).
Proof. exact (inspect_links_stops (slen ctx - i ctx) ctx (le_n _)). Qed.

Lemma head_iter_ok ctx key value :
  pushes_ok ctx ->
  fst (head_iter ctx key value) = true
  /\ pushes_ok (snd (head_iter ctx key value))
  /\ req (snd (head_iter ctx key value)) = req ctx
  /\ push_policy (snd (head_iter ctx key value)) = push_policy ctx.
Proof.
  intros Hp. unfold head_iter. destruct (CStr.strcaseeq "link" key);
    cbn [fst snd]; [|auto].
  split; [reflexivity|]. unfold inspect_link.
  apply (inspect_links_ok (String.length value)
           (set_input ctx value (String.length value))).
  exact Hp.
Qed.

Lemma collect_loop_ok hd : forall ctx,
  pushes_ok ctx ->
  pushes_ok (apr_table_do head_iter ctx hd)
  /\ req (apr_table_do head_iter ctx hd) = req ctx
  /\ push_policy (apr_table_do head_iter ctx hd) = push_policy ctx.
Proof.
  induction hd as [|[k v] hd IH]; intros ctx Hp; cbn [apr_table_do]; [auto|].
  destruct (head_iter_ok ctx k v Hp) as (G & P & R1 & R2).
  destruct (head_iter ctx k v) as [go c1]. cbn [fst snd] in *. subst go.
  destruct (IH c1 P) as (Q1 & Q2 & Q3).
  split; [exact Q1|]. split; congruence.
Qed.

Lemma collect_spec (r : option h2_request.t)
        (policy : h2_push_policy) (hdrs : option apr_table_t) :
  match fst (h2_push_collect r policy hdrs) with
  | None => snd (h2_push_collect r policy hdrs) = hdrs
  | Some l =>
      l <> []
      /\ policy <> H2_PUSH_NONE
      /\ exists rq hd,
           r = Some rq /\ hdrs = Some hd
           /\ snd (h2_push_collect r policy hdrs)
              = Some (apr_table_setn hd "push-policy" (policy_str policy))
           /\ Forall (push_of rq policy) l
  end.
Proof.
  unfold h2_push_collect.
  destruct r as [rq|]; [|destruct policy; reflexivity].
  assert (Hmain :
    forall hd,
      match
        fst (match pushes (apr_table_do head_iter
                     (mk_link_ctx rq policy None "" 0 0 "" None) hd) with
             | Some l =>
                 (Some l,
                  Some (apr_table_setn hd "push-policy" (policy_str policy)))
             | None => (None, Some hd)
             end)
      with
      | None => True
      | Some l =>
          l <> []
          /\ Forall (push_of rq policy) l
      end).
  { intros hd.
    destruct (collect_loop_ok hd (mk_link_ctx rq policy None "" 0 0 "" None))
      as ((Hne & Hall) & R1 & R2).
    { unfold pushes_ok. cbn. split; [discriminate|constructor]. }
    rewrite R1, R2 in Hall. cbn [req push_policy] in Hall.
    destruct (pushes _) as [l|]; cbn [fst]; [|exact I].
    split; [congruence|exact Hall]. }
  destruct policy; cbn [fst snd]; try reflexivity;
    (destruct hdrs as [hd|]; [|reflexivity]);
    specialize (Hmain hd);
    (destruct (pushes _) as [l|]; cbn [fst snd] in *; [|reflexivity]);
    destruct Hmain as (A & B);
    (split; [exact A|]); (split; [discriminate|]);
    exists rq, hd; auto.
Qed.

(** X14: [h2_push_collect] either returns NULL and leaves the response
    headers alone, or returns a non-empty array and sets [push-policy];
    every push in it is for the scheme and authority of the request,
    uses GET, or HEAD under the head policy, cannot itself trigger pushes
    and carries no header outside the inherited names. *)
Theorem collect_pushes_same_origin (r : option h2_request.t)
        (policy : h2_push_policy) (hdrs : option apr_table_t) :
  match fst (h2_push_collect r policy hdrs) with
  | None => snd (h2_push_collect r policy hdrs) = hdrs
  | Some l =>
      l <> []
      /\ policy <> H2_PUSH_NONE
      /\ exists rq hd,
           r = Some rq /\ hdrs = Some hd
           /\ snd (h2_push_collect r policy hdrs)
              = Some (apr_table_setn hd "push-policy" (policy_str policy))
           /\ Forall (push_of rq policy) l
  end.
Proof. exact (collect_spec r policy hdrs). Qed.

End WithUri.


End LinkExtra.

(* ===================================================================== *)
(** ** The relation test and the text the readers take *)

Module TextExtra.
Import AprTable Link Cases Notions LinkProps LinkExtra RelTokens.
Local Open Scope string_scope.

(** *** Strings *)

Lemma prefix_app a : forall b,
  String.prefix a b = true -> exists post, b = a ++ post.
Proof.
  induction a as [|c a IH]; intros b Hp.
  - exists b. reflexivity.
  - destruct b as [|c' b]; cbn [String.prefix] in Hp; [discriminate|].
    destruct (ascii_dec c c') as [->|]; [|discriminate].
    destruct (IH b Hp) as (post & ->). exists post. reflexivity.
Qed.

Lemma prefix_of_app a post : String.prefix a (a ++ post) = true.
Proof.
  induction a as [|c a IH]; cbn; [now destruct post|].
  destruct (ascii_dec c c); [exact IH|congruence].
Qed.

Lemma strstr_split hay needle : forall k,
  CStr.strstr hay needle = Some k ->
  exists pre post, hay = pre ++ needle ++ post /\ String.length pre = k.
Proof.
  induction hay as [|c hay IH]; intros k E; cbn [CStr.strstr] in E.
  - destruct (String.prefix needle "") eqn:P; [|discriminate].
    inversion E; subst. destruct (prefix_app _ _ P) as (post & Hp).
    exists "", post. split; [exact Hp|reflexivity].
  - destruct (String.prefix needle (String c hay)) eqn:P.
    + inversion E; subst. destruct (prefix_app _ _ P) as (post & Hp).
      exists "", post. split; [exact Hp|reflexivity].
    + destruct (CStr.strstr hay needle) as [j|]; [|discriminate].
      cbn in E. inversion E; subst.
      destruct (IH j eq_refl) as (pre & post & -> & Hl).
      exists (String c pre), post. split; [reflexivity|]. cbn. now rewrite Hl.
Qed.

Lemma chr_app_r a b k : chr (a ++ b) (String.length a + k) = chr b k.
Proof.
  unfold chr, CStr.at_. rewrite (Nat.add_comm (String.length a) k).
  rewrite <- append_correct2. reflexivity.
Qed.

Lemma chr_app_l a b k :
  (k < String.length a)%nat -> chr (a ++ b) k = chr a k.
Proof.
  intros Hk. unfold chr, CStr.at_. rewrite <- append_correct1 by exact Hk.
  reflexivity.
Qed.

Lemma length_app_str a b :
  String.length (a ++ b) = (String.length a + String.length b)%nat.
Proof. induction a; cbn; congruence. Qed.

Lemma string_snoc a : forall n,
  String.length a = S n ->
  exists p c, a = p ++ String c "" /\ String.length p = n.
Proof.
  induction a as [|c a IH]; intros n Hl; [discriminate|].
  destruct a as [|c' a'].
  - exists "", c. cbn in Hl. split; [reflexivity|]. cbn. lia.
  - destruct n; [discriminate|].
    destruct (IH n ltac:(cbn in *; lia)) as (p & c0 & E & Hp).
    exists (String c p), c0. rewrite E. split; [reflexivity|]. cbn. lia.
Qed.

Lemma append_nil_r_str a : a ++ "" = a.
Proof. induction a; cbn; congruence. Qed.

Lemma app_assoc_str a b c : (a ++ b) ++ c = a ++ b ++ c.
Proof. induction a; cbn; congruence. Qed.

(** X15: [has_relation] accepts only a value in which the relation is a
    whole token: at the start of the value or after a blank, and at its
    end or before a blank. *)
Theorem has_relation_whole_token (ctx : link_ctx) (rel val : string) :
  apr_table_get (table_of ctx) "rel" = Some val ->
  nul_free val ->
  has_relation ctx rel = true ->
  whole_token rel val.
Proof.
  intros Hv Hnul. unfold has_relation. rewrite Hv.
  destruct (CStr.streq rel val) eqn:Q.
  - intros _. apply String.eqb_eq in Q. subst val.
    exists "", "". split; [now rewrite append_nil_r_str|]. auto.
  - destruct (CStr.strstr val rel) as [k|] eqn:Es; [|discriminate].
    destruct (strstr_split _ _ _ Es) as (pre & post & -> & Hl).
    destruct ((k =? 0)%nat || Ascii.eqb _ " ") eqn:Hb; [|discriminate].
    intros He. exists pre, post. split; [reflexivity|]. split.
    + destruct k as [|n].
      * left. destruct pre; [reflexivity|discriminate].
      * right. cbn [Nat.eqb orb] in Hb. apply Ascii.eqb_eq in Hb.
        destruct (string_snoc pre n Hl) as (p & c & -> & Hp).
        exists p. f_equal. f_equal.
        replace (S n - 1)%nat with (String.length p + 0)%nat in Hb by lia.
        rewrite !app_assoc_str in Hb. rewrite chr_app_r in Hb.
        exact Hb.
    + rewrite <- Hl in He.
      assert (C1 : chr (pre ++ rel ++ post)
                     (String.length pre + String.length rel) = chr post 0).
      { rewrite (chr_app_r pre). pose proof (chr_app_r rel post 0) as C2.
        rewrite Nat.add_0_r in C2. exact C2. }
      rewrite C1 in He.
      destruct post as [|c q]; [now left|right].
      unfold chr, CStr.at_ in He. cbn in He.
      apply orb_true_iff in He. destruct He as [Hz|Hsp].
      * exfalso. apply Ascii.eqb_eq in Hz. subst c.
        apply (Hnul (String.length pre + (String.length rel + 0))%nat).
        unfold CStr.at_.
        rewrite (Nat.add_comm (String.length pre)), <- append_correct2.
        rewrite (Nat.add_comm (String.length rel)), <- append_correct2.
        reflexivity.
      * apply Ascii.eqb_eq in Hsp. subst c. exists q. reflexivity.
Qed.

Lemma has_relation_whole_token_witness :
  whole_token "preload" "prefetch preload".
Proof.
  apply (has_relation_whole_token
           (params_read ("; rel=" ++ quoted "prefetch preload")) "preload"
           "prefetch preload").
  - vm_compute. reflexivity.
  - intros k. do 17 (destruct k as [|k]; [discriminate|]). discriminate.
  - vm_compute. reflexivity.
Defined.

(** X16: when the first place at which the relation occurs in the value
    makes it a whole token, [has_relation] accepts. *)
Theorem has_relation_first_place (ctx : link_ctx) (rel pre post : string) :
  apr_table_get (table_of ctx) "rel" = Some (pre ++ rel ++ post) ->
  CStr.strstr (pre ++ rel ++ post) rel = Some (String.length pre) ->
  (pre = "" \/ exists p, pre = p ++ " ") ->
  (post = "" \/ exists q, post = " " ++ q) ->
  has_relation ctx rel = true.
Proof.
  intros Hv Hs Hpre Hpost. unfold has_relation. rewrite Hv.
  destruct (CStr.streq rel (pre ++ rel ++ post)); [reflexivity|].
  rewrite Hs.
  assert (C1 : chr (pre ++ rel ++ post)
                 (String.length pre + String.length rel) = chr post 0).
  { rewrite (chr_app_r pre). pose proof (chr_app_r rel post 0) as C2.
    rewrite Nat.add_0_r in C2. exact C2. }
  assert (A : ((String.length pre =? 0)%nat
               || Ascii.eqb (chr (pre ++ rel ++ post) (String.length pre - 1))
                    " ") = true).
  { destruct Hpre as [->|(p & ->)]; [reflexivity|].
    apply orb_true_iff. right. rewrite length_app_str. cbn [String.length].
    replace (String.length p + 1 - 1)%nat with (String.length p + 0)%nat by lia.
    rewrite app_assoc_str, chr_app_r. reflexivity. }
  rewrite A. cbv zeta. rewrite C1.
  destruct Hpost as [->|(q & ->)]; reflexivity.
Qed.

Lemma has_relation_first_place_witness :
  has_relation (params_read ("; rel=" ++ quoted "prefetch preload next"))
               "preload" = true.
Proof.
  apply (has_relation_first_place _ "preload" "prefetch " " next").
  - vm_compute. reflexivity.
  - vm_compute. reflexivity.
  - right. exists "prefetch". reflexivity.
  - right. exists "next". reflexivity.
Defined.

(** *** Runs of characters *)

Lemma all_chars_chr test run : forall j,
  all_chars test run = true -> (j < String.length run)%nat ->
  test (chr run j) = true.
Proof.
  unfold all_chars. induction run as [|c run IH]; intros j H Hj.
  - cbn in Hj. lia.
  - cbn [list_ascii_of_string forallb] in H. apply andb_true_iff in H.
    destruct H as [Hc Hr]. destruct j as [|j]; [exact Hc|].
    change (chr (String c run) (S j)) with (chr run j).
    apply (IH j Hr). cbn in Hj. lia.
Qed.

Lemma chr_app_0 a b : chr (a ++ b) (String.length a) = chr b 0.
Proof.
  pose proof (chr_app_r a b 0) as C. rewrite Nat.add_0_r in C. exact C.
Qed.

Lemma scan_run test a run b fuel :
  all_chars test run = true -> stops test b = true ->
  (String.length (run ++ b) <= fuel)%nat ->
  scan_while test (a ++ run ++ b) (String.length (a ++ run ++ b)) fuel
             (String.length a)
  = String.length (a ++ run).
Proof.
  intros Hr Hb Hf.
  pose proof (scan_while_spec test (a ++ run ++ b)
                (String.length (a ++ run ++ b)) fuel (String.length a)) as S.
  remember (scan_while test (a ++ run ++ b) (String.length (a ++ run ++ b))
                       fuel (String.length a)) as k' eqn:Ek. clear Ek.
  rewrite !length_app_str in *. specialize (S ltac:(lia)). cbv zeta in S.
  destruct S as (A & B & C & D).
  destruct (lt_eq_lt_dec k' (String.length a + String.length run))
    as [[L|E]|G]; [|exact E|]; exfalso.
  - specialize (D ltac:(lia)).
    replace k' with (String.length a + (k' - String.length a))%nat in D
      by lia.
    rewrite chr_app_r, chr_app_l in D by lia.
    rewrite all_chars_chr in D; [discriminate|exact Hr|lia].
  - specialize (C (String.length a + String.length run)%nat ltac:(lia)).
    rewrite chr_app_r, chr_app_0 in C.
    destruct b as [|c b]; [cbn [String.length] in B; lia|].
    cbn in Hb. change (chr (String c b) 0) with c in C. rewrite C in Hb.
    discriminate.
Qed.

Lemma find_run c a mid b fuel :
  all_chars (other_than c) mid = true ->
  (String.length (mid ++ String c b) <= fuel)%nat ->
  find_chr_from (a ++ mid ++ String c b)
                (String.length (a ++ mid ++ String c b)) c fuel
                (String.length a)
  = Some (String.length (a ++ mid)).
Proof.
  intros Hm Hf.
  pose proof (find_chr_from_spec (a ++ mid ++ String c b)
                (String.length (a ++ mid ++ String c b)) c fuel
                (String.length a)) as S.
  assert (Hc : chr (a ++ mid ++ String c b)
                 (String.length a + String.length mid) = c).
  { rewrite chr_app_r, chr_app_0. reflexivity. }
  rewrite !length_app_str in *. cbn [String.length] in *.
  specialize (S ltac:(lia)).
  destruct (find_chr_from _ _ c fuel (String.length a)) as [e|].
  - destruct S as (A & B & C). f_equal.
    destruct (lt_eq_lt_dec e (String.length a + String.length mid))
      as [[L|E]|G]; [|exact E|]; exfalso.
    + replace e with (String.length a + (e - String.length a))%nat in B
        by lia.
      rewrite chr_app_r, chr_app_l in B by lia.
      pose proof (all_chars_chr _ mid (e - String.length a) Hm ltac:(lia))
        as N.
      unfold other_than in N. rewrite B, Ascii.eqb_refl in N. discriminate.
    + apply (C (String.length a + String.length mid)%nat); [lia|exact Hc].
  - exfalso.
    apply (S (String.length a + String.length mid)%nat); [lia|exact Hc].
Qed.

Lemma substring_mid a m b :
  String.substring (String.length a) (String.length m) (a ++ m ++ b) = m.
Proof.
  induction a as [|c a IH]; [|exact IH].
  cbn [String.length append]. revert b.
  induction m as [|c m IH]; intros b.
  - destruct b; reflexivity.
  - cbn. f_equal. apply IH.
Qed.

(** *** The readers on a text of known shape *)

Lemma cursor_set ctx a b a' b' :
  cursor_at ctx a b -> a' ++ b' = a ++ b ->
  cursor_at (set_i ctx (String.length a')) a' b'.
Proof.
  intros (Hs & Hn & Hi) E. unfold cursor_at. cbn [s slen i set_i].
  rewrite E. auto.
Qed.

Lemma set_i_twice ctx x y : set_i (set_i ctx x) y = set_i ctx y.
Proof. reflexivity. Qed.

Lemma scan_at test ctx a run b :
  cursor_at ctx a (run ++ b) ->
  all_chars test run = true -> stops test b = true ->
  scan_while test (s ctx) (slen ctx) (slen ctx - i ctx) (i ctx)
  = String.length (a ++ run).
Proof.
  intros (Hs & Hn & Hi) Hr Hb. rewrite Hs, Hn, Hi.
  apply scan_run; [exact Hr|exact Hb|]. rewrite !length_app_str. lia.
Qed.

Lemma find_at c ctx a mid b :
  cursor_at ctx a (mid ++ String c b) ->
  all_chars (other_than c) mid = true ->
  find_chr ctx c = Some (String.length (a ++ mid)).
Proof.
  intros (Hs & Hn & Hi) Hm. unfold find_chr. rewrite Hs, Hn, Hi.
  apply find_run; [exact Hm|]. rewrite !length_app_str. lia.
Qed.

Lemma mk_str_at ctx a m b :
  cursor_at ctx a (m ++ b) -> mk_str ctx (String.length (a ++ m)) = m.
Proof.
  intros (Hs & Hn & Hi). unfold mk_str. rewrite Hs, Hi, length_app_str.
  destruct m as [|c m].
  - cbn [String.length]. rewrite Nat.add_0_r, Nat.ltb_irrefl. reflexivity.
  - replace (String.length a <? String.length a + String.length (String c m))%nat
      with true by (symmetry; apply Nat.ltb_lt; cbn; lia).
    replace (String.length a + String.length (String c m) - String.length a)%nat
      with (String.length (String c m)) by lia.
    apply substring_mid.
Qed.

Lemma skip_ws_at ctx a ws b :
  cursor_at ctx a (ws ++ b) ->
  all_chars is_wsp ws = true -> stops is_wsp b = true ->
  skip_ws ctx = (match b with EmptyString => false | _ => true end,
                 set_i ctx (String.length (a ++ ws)))
  /\ cursor_at (set_i ctx (String.length (a ++ ws))) (a ++ ws) b.
Proof.
  intros Hc Hw Hb. split.
  - unfold skip_ws. rewrite (scan_at is_wsp ctx a ws b Hc Hw Hb).
    destruct Hc as (Hs & Hn & Hi). rewrite Hn. f_equal.
    rewrite !length_app_str. destruct b; cbn [String.length].
    + apply Nat.ltb_ge. lia.
    + apply Nat.ltb_lt. lia.
  - apply (cursor_set ctx a (ws ++ b)); [exact Hc|apply app_assoc_str].
Qed.

Lemma read_chr_hit ctx a c b :
  cursor_at ctx a (String c b) ->
  read_chr ctx c = (true, set_i ctx (String.length (a ++ String c "")))
  /\ cursor_at (set_i ctx (String.length (a ++ String c "")))
               (a ++ String c "") b.
Proof.
  intros Hc. split.
  - destruct Hc as (Hs & Hn & Hi). unfold read_chr. rewrite Hs, Hn, Hi.
    rewrite chr_app_0. change (chr (String c b) 0) with c.
    rewrite Ascii.eqb_refl, !length_app_str. cbn [String.length].
    replace (String.length a <? String.length a + S (String.length b))%nat
      with true by (symmetry; apply Nat.ltb_lt; lia).
    cbn [andb]. do 2 f_equal. lia.
  - apply (cursor_set ctx a (String c b)); [exact Hc|].
    rewrite app_assoc_str. reflexivity.
Qed.

Lemma read_chr_miss ctx a c b :
  cursor_at ctx a b -> stops (fun x => Ascii.eqb x c) b = true ->
  read_chr ctx c = (false, ctx).
Proof.
  intros (Hs & Hn & Hi) Hb. unfold read_chr. rewrite Hs, Hn, Hi.
  destruct b as [|x b].
  - rewrite length_app_str. cbn [String.length].
    rewrite Nat.add_0_r, Nat.ltb_irrefl. reflexivity.
  - rewrite chr_app_0. change (chr (String x b) 0) with x.
    cbn in Hb. apply negb_true_iff in Hb. rewrite Hb, andb_false_r.
    reflexivity.
Qed.

Lemma wsp_no_token c :
  is_wsp c = true -> attr_char c = false /\ ptoken_char c = false.
Proof.
  unfold is_wsp. intros H. apply orb_true_iff in H.
  destruct H as [H|H]; apply Ascii.eqb_eq in H; subst c; vm_compute; auto.
Qed.

Lemma token_no_wsp c :
  attr_char c = true \/ ptoken_char c = true -> is_wsp c = false.
Proof.
  intros H. destruct (is_wsp c) eqn:W; [|reflexivity].
  destruct (wsp_no_token c W) as (A & B). destruct H; congruence.
Qed.

Lemma all_chars_app test a b :
  all_chars test (a ++ b) = true ->
  all_chars test a = true /\ all_chars test b = true.
Proof.
  unfold all_chars. induction a as [|c a IH]; cbn; [auto|].
  intros H. apply andb_true_iff in H. destruct H as (Hc & Hr).
  destruct (IH Hr) as (A & B). rewrite Hc, A. auto.
Qed.

Lemma stops_before_eq w rest :
  all_chars is_wsp w = true -> stops attr_char (w ++ String "=" rest) = true.
Proof.
  destruct w as [|c w]; [reflexivity|]. intros H.
  pose proof (all_chars_chr is_wsp (String c w) 0 H ltac:(cbn; lia)) as W.
  change (chr (String c w) 0) with c in W.
  destruct (wsp_no_token c W) as (A & _). cbn. now rewrite A.
Qed.

Lemma read_pname_at ctx a ws name b ps :
  cursor_at ctx a (ws ++ name ++ b) ->
  all_chars is_wsp ws = true ->
  name <> "" -> all_chars attr_char name = true ->
  stops attr_char b = true ->
  read_pname ctx ps = (true, set_i ctx (String.length (a ++ ws ++ name)), name)
  /\ cursor_at (set_i ctx (String.length (a ++ ws ++ name)))
               (a ++ ws ++ name) b.
Proof.
  intros Hc Hw Hne Hn Hb.
  destruct name as [|c name]; [congruence|].
  assert (Hcw : is_wsp c = false).
  { apply token_no_wsp. left.
    exact (all_chars_chr attr_char (String c name) 0 Hn ltac:(cbn; lia)). }
  destruct (skip_ws_at ctx a ws (String c name ++ b) Hc Hw) as (E1 & C1).
  { cbn. now rewrite Hcw. }
  cbn [append] in E1. split.
  - unfold read_pname. rewrite E1.
    rewrite (scan_at attr_char _ (a ++ ws) (String c name) b C1 Hn Hb).
    rewrite (mk_str_at _ (a ++ ws) (String c name) b C1).
    destruct C1 as (_ & _ & Hi1). rewrite Hi1.
    replace (String.length (a ++ ws)
             <? String.length ((a ++ ws) ++ String c name))%nat
      with true
      by (symmetry; apply Nat.ltb_lt; rewrite !length_app_str; cbn; lia).
    rewrite set_i_twice, app_assoc_str. reflexivity.
  - apply (cursor_set ctx a (ws ++ String c name ++ b)); [exact Hc|].
    rewrite !app_assoc_str. reflexivity.
Qed.

Lemma read_ptoken_at ctx a ws tok b ps :
  cursor_at ctx a (ws ++ tok ++ b) ->
  all_chars is_wsp ws = true ->
  tok <> "" -> all_chars ptoken_char tok = true ->
  stops ptoken_char b = true ->
  read_ptoken ctx ps = (true, set_i ctx (String.length (a ++ ws ++ tok)), tok).
Proof.
  intros Hc Hw Hne Hn Hb.
  destruct tok as [|c tok]; [congruence|].
  assert (Hcw : is_wsp c = false).
  { apply token_no_wsp. right.
    exact (all_chars_chr ptoken_char (String c tok) 0 Hn ltac:(cbn; lia)). }
  destruct (skip_ws_at ctx a ws (String c tok ++ b) Hc Hw) as (E1 & C1).
  { cbn. now rewrite Hcw. }
  cbn [append] in E1.
  unfold read_ptoken. rewrite E1.
  rewrite (scan_at ptoken_char _ (a ++ ws) (String c tok) b C1 Hn Hb).
  rewrite (mk_str_at _ (a ++ ws) (String c tok) b C1).
  destruct C1 as (_ & _ & Hi1). rewrite Hi1.
  replace (String.length (a ++ ws)
           <? String.length ((a ++ ws) ++ String c tok))%nat
    with true
    by (symmetry; apply Nat.ltb_lt; rewrite !length_app_str; cbn; lia).
  rewrite set_i_twice, app_assoc_str. reflexivity.
Qed.

Lemma read_qstring_miss ctx a ws b ps :
  cursor_at ctx a (ws ++ b) ->
  all_chars is_wsp ws = true -> stops is_wsp b = true ->
  stops (fun x => Ascii.eqb x CStr.dquote) b = true ->
  read_qstring ctx ps = (false, set_i ctx (String.length (a ++ ws)), ps)
  /\ cursor_at (set_i ctx (String.length (a ++ ws))) (a ++ ws) b.
Proof.
  intros Hc Hw Hb Hq.
  destruct (skip_ws_at ctx a ws b Hc Hw Hb) as (E1 & C1).
  split; [|exact C1]. unfold read_qstring. rewrite E1.
  destruct b as [|c b]; [reflexivity|].
  rewrite (read_chr_miss _ (a ++ ws) CStr.dquote (String c b) C1 Hq).
  reflexivity.
Qed.

Lemma read_qstring_hit ctx a ws v b ps :
  cursor_at ctx a (ws ++ String CStr.dquote (v ++ String CStr.dquote b)) ->
  all_chars is_wsp ws = true ->
  all_chars (other_than CStr.dquote) v = true ->
  read_qstring ctx ps
  = (true, set_i ctx (String.length (a ++ ws ++ quoted v)), v).
Proof.
  intros Hc Hw Hv.
  destruct (skip_ws_at ctx a ws _ Hc Hw eq_refl) as (E1 & C1).
  destruct (read_chr_hit _ _ _ _ C1) as (E2 & C2).
  unfold read_qstring. rewrite E1, E2.
  rewrite (find_at CStr.dquote _ _ v b C2 Hv).
  rewrite (mk_str_at _ _ v (String CStr.dquote b) C2).
  rewrite !set_i_twice. do 2 f_equal. f_equal. unfold quoted.
  rewrite !length_app_str. cbn [String.length].
  rewrite !length_app_str. cbn [String.length]. lia.
Qed.

Lemma read_pvalue_token ctx a w3 w4 value b ps :
  cursor_at ctx a (w3 ++ String "=" (w4 ++ value ++ b)) ->
  all_chars is_wsp w3 = true -> all_chars is_wsp w4 = true ->
  value <> "" -> all_chars ptoken_char value = true ->
  stops ptoken_char b = true ->
  read_pvalue ctx ps
  = (true, set_i ctx (String.length (a ++ w3 ++ String "=" (w4 ++ value))),
     value).
Proof.
  intros Hc H3 H4 Hne Hv Hb.
  destruct (skip_ws_at ctx a w3 _ Hc H3 eq_refl) as (E1 & C1).
  destruct (read_chr_hit _ _ _ _ C1) as (E2 & C2).
  assert (Hh : exists c rest, value = String c rest /\ ptoken_char c = true).
  { destruct value as [|c rest]; [congruence|]. exists c, rest.
    split; [reflexivity|].
    exact (all_chars_chr ptoken_char (String c rest) 0 Hv ltac:(cbn; lia)). }
  destruct Hh as (c & rest & Ev & Hcp).
  assert (Hw : is_wsp c = false) by (apply token_no_wsp; now right).
  assert (Hq : Ascii.eqb c CStr.dquote = false).
  { destruct (Ascii.eqb c CStr.dquote) eqn:Q; [|reflexivity].
    apply Ascii.eqb_eq in Q. subst c. vm_compute in Hcp. discriminate. }
  destruct (read_qstring_miss _ _ w4 (value ++ b) ps C2 H4) as (E3 & C3).
  { subst value. cbn. now rewrite Hw. }
  { subst value. cbn. now rewrite Hq. }
  pose proof (read_ptoken_at _ _ "" value b ps C3 eq_refl Hne Hv Hb) as E4.
  unfold read_pvalue. rewrite E1, E2, E3, E4.
  rewrite !set_i_twice. do 2 f_equal. f_equal.
  cbn [append]. rewrite !app_assoc_str. reflexivity.
Qed.

Lemma read_pvalue_quoted ctx a w3 w4 value b ps :
  cursor_at ctx a (w3 ++ String "=" (w4 ++ quoted value ++ b)) ->
  all_chars is_wsp w3 = true -> all_chars is_wsp w4 = true ->
  all_chars (other_than CStr.dquote) value = true ->
  read_pvalue ctx ps
  = (true,
     set_i ctx (String.length (a ++ w3 ++ String "=" (w4 ++ quoted value))),
     value).
Proof.
  intros Hc H3 H4 Hv.
  destruct (skip_ws_at ctx a w3 _ Hc H3 eq_refl) as (E1 & C1).
  destruct (read_chr_hit _ _ _ _ C1) as (E2 & C2).
  assert (Eq : quoted value ++ b
               = String CStr.dquote (value ++ String CStr.dquote b)).
  { unfold quoted. cbn [append]. rewrite app_assoc_str. reflexivity. }
  rewrite Eq in C2.
  pose proof (read_qstring_hit _ _ w4 value b ps C2 H4 Hv) as E3.
  unfold read_pvalue. rewrite E1, E2, E3.
  rewrite !set_i_twice. do 2 f_equal. f_equal.
  rewrite !app_assoc_str. reflexivity.
Qed.

Lemma read_pvalue_none ctx a w b ps :
  cursor_at ctx a (w ++ b) ->
  all_chars is_wsp w = true ->
  stops (fun c => is_wsp c || Ascii.eqb c "=") b = true ->
  read_pvalue ctx ps = (false, set_i ctx (String.length (a ++ w)), ps).
Proof.
  intros Hc Hw0 Hb.
  assert (Hw : stops is_wsp b = true /\ stops (fun x => Ascii.eqb x "=") b = true).
  { destruct b as [|c b]; [auto|]. cbn in *.
    apply negb_true_iff, orb_false_iff in Hb. destruct Hb as (-> & ->). auto. }
  destruct Hw as (Hw & He).
  destruct (skip_ws_at ctx a w b Hc Hw0 Hw) as (E1 & C1).
  unfold read_pvalue. rewrite E1.
  destruct b as [|c b]; [reflexivity|].
  rewrite (read_chr_miss _ _ "=" (String c b) C1 He). reflexivity.
Qed.

Lemma stops_before_end w b :
  all_chars is_wsp w = true ->
  stops (fun c => is_wsp c || attr_char c || Ascii.eqb c "=") b = true ->
  stops attr_char (w ++ b) = true
  /\ stops (fun c => is_wsp c || Ascii.eqb c "=") b = true.
Proof.
  intros Hw Hb. split.
  - destruct w as [|c w].
    + destruct b as [|c b]; [reflexivity|]. cbn in *.
      apply negb_true_iff, orb_false_iff in Hb. destruct Hb as (Hb & _).
      apply orb_false_iff in Hb. destruct Hb as (_ & ->). reflexivity.
    + pose proof (all_chars_chr is_wsp (String c w) 0 Hw ltac:(cbn; lia)) as W.
      change (chr (String c w) 0) with c in W.
      destruct (wsp_no_token c W) as (A & _). cbn. now rewrite A.
  - destruct b as [|c b]; [reflexivity|]. cbn in *.
    apply negb_true_iff, orb_false_iff in Hb. destruct Hb as (Hb & ->).
    apply orb_false_iff in Hb. destruct Hb as (-> & _). reflexivity.
Qed.

Lemma read_link_at (ctx : link_ctx) (a ws uri b : string) :
  cursor_at ctx a (ws ++ "<" ++ uri ++ ">" ++ b) ->
  all_chars is_wsp ws = true ->
  all_chars (other_than ">") uri = true ->
  read_link ctx
  = (true, set_i (set_link ctx uri)
                 (String.length (a ++ ws ++ "<" ++ uri ++ ">"))).
Proof.
  intros Hc Hw Hu. cbn [append] in Hc.
  destruct (skip_ws_at ctx a ws _ Hc Hw eq_refl) as (E1 & C1).
  destruct (read_chr_hit _ _ _ _ C1) as (E2 & C2).
  unfold read_link. rewrite E1, E2.
  rewrite (find_at ">" _ _ uri b C2 Hu).
  rewrite (mk_str_at _ _ uri (String ">" b) C2).
  unfold set_link, set_i. cbn [req push_policy pushes s slen i link params].
  do 2 f_equal. cbn [append].
  rewrite !length_app_str. cbn [String.length].
  rewrite !length_app_str. cbn [String.length]. lia.
Qed.

(** X17: on a text that holds, after blanks, a target between angle
    brackets, [read_link] takes the target as the link and leaves the
    cursor behind the closing bracket. *)
Theorem read_link_takes_target (ctx : link_ctx) (a ws uri b : string) :
  cursor_at ctx a (ws ++ "<" ++ uri ++ ">" ++ b) ->
  all_chars is_wsp ws = true ->
  all_chars (other_than ">") uri = true ->
  read_link ctx
  = (true, set_i (set_link ctx uri)
                 (String.length (a ++ ws ++ "<" ++ uri ++ ">"))).
Proof. exact (read_link_at ctx a ws uri b). Qed.

Lemma read_link_takes_target_witness :
  let ctx := Sample.link_ctx0 " </style.css>; rel=preload" in
  read_link ctx = (true, set_i (set_link ctx "/style.css") 13).
Proof.
  intros ctx.
  apply (read_link_takes_target ctx "" " " "/style.css" "; rel=preload").
  - vm_compute. auto.
  - reflexivity.
  - vm_compute. reflexivity.
Defined.

Lemma read_param_pair_at (ctx : link_ctx)
        (a w1 w2 name w3 w4 value b : string) :
  cursor_at ctx a (w1 ++ ";" ++ w2 ++ name ++ w3 ++ "=" ++ w4 ++ value ++ b) ->
  all_chars is_wsp (w1 ++ w2 ++ w3 ++ w4) = true ->
  name <> "" -> all_chars attr_char name = true ->
  value <> "" -> all_chars ptoken_char value = true ->
  stops ptoken_char b = true ->
  read_param ctx
  = (true,
     set_params
       (set_i ctx (String.length
                     (a ++ w1 ++ ";" ++ w2 ++ name ++ w3 ++ "=" ++ w4 ++ value)))
       (Some (apr_table_setn (table_of ctx) name value))).
Proof.
  intros Hc Hw Hn1 Hn2 Hv1 Hv2 Hb. cbn [append] in *.
  apply all_chars_app in Hw. destruct Hw as (H1 & Hw).
  apply all_chars_app in Hw. destruct Hw as (H2 & Hw).
  apply all_chars_app in Hw. destruct Hw as (H3 & H4).
  destruct (skip_ws_at ctx a w1 _ Hc H1 eq_refl) as (E1 & C1).
  destruct (read_chr_hit _ _ _ _ C1) as (E2 & C2).
  destruct (read_pname_at _ _ w2 name _ "" C2 H2 Hn1 Hn2) as (E3 & C3).
  { apply stops_before_eq. exact H3. }
  pose proof (read_pvalue_token _ _ w3 w4 value b "" C3 H3 H4 Hv1 Hv2 Hb)
    as E4.
  unfold read_param. rewrite E1, E2, E3, E4.
  unfold set_params, set_i, table_of.
  cbn [req push_policy pushes s slen i link params].
  do 2 f_equal. rewrite !app_assoc_str. cbn [append].
  rewrite ?app_assoc_str. reflexivity.
Qed.

(** X18: a parameter written as a name, an equals sign and an unquoted
    value, with blanks allowed around each, is stored under that name
    with that value, and the cursor is left behind the value. *)
Theorem read_param_takes_pair (ctx : link_ctx)
        (a w1 w2 name w3 w4 value b : string) :
  cursor_at ctx a (w1 ++ ";" ++ w2 ++ name ++ w3 ++ "=" ++ w4 ++ value ++ b) ->
  all_chars is_wsp (w1 ++ w2 ++ w3 ++ w4) = true ->
  name <> "" -> all_chars attr_char name = true ->
  value <> "" -> all_chars ptoken_char value = true ->
  stops ptoken_char b = true ->
  read_param ctx
  = (true,
     set_params
       (set_i ctx (String.length
                     (a ++ w1 ++ ";" ++ w2 ++ name ++ w3 ++ "=" ++ w4 ++ value)))
       (Some (apr_table_setn (table_of ctx) name value))).
Proof. exact (read_param_pair_at ctx a w1 w2 name w3 w4 value b). Qed.

Lemma read_param_takes_pair_witness :
  let ctx := Sample.link_ctx0 "; rel = preload, </next>" in
  read_param ctx
  = (true, set_params (set_i ctx 15)
                      (Some (apr_table_setn (table_of ctx) "rel" "preload"))).
Proof.
  intros ctx.
  apply (read_param_takes_pair ctx "" "" " " "rel" " " " " "preload"
                               ", </next>").
  - vm_compute. auto.
  - reflexivity.
  - discriminate.
  - vm_compute. reflexivity.
  - discriminate.
  - vm_compute. reflexivity.
  - reflexivity.
Defined.

(** X19: a parameter whose value is written between double quotes is
    stored with the text between the quotes, whatever characters other
    than a double quote it holds, and the cursor is left behind the
    closing quote. *)
Theorem read_param_takes_quoted (ctx : link_ctx)
        (a w1 w2 name w3 w4 value b : string) :
  cursor_at ctx a
    (w1 ++ ";" ++ w2 ++ name ++ w3 ++ "=" ++ w4 ++ quoted value ++ b) ->
  all_chars is_wsp (w1 ++ w2 ++ w3 ++ w4) = true ->
  name <> "" -> all_chars attr_char name = true ->
  all_chars (other_than CStr.dquote) value = true ->
  read_param ctx
  = (true,
     set_params
       (set_i ctx (String.length
                     (a ++ w1 ++ ";" ++ w2 ++ name ++ w3 ++ "=" ++ w4
                        ++ quoted value)))
       (Some (apr_table_setn (table_of ctx) name value))).
Proof.
  intros Hc Hw Hn1 Hn2 Hv. cbn [append] in *.
  apply all_chars_app in Hw. destruct Hw as (H1 & Hw).
  apply all_chars_app in Hw. destruct Hw as (H2 & Hw).
  apply all_chars_app in Hw. destruct Hw as (H3 & H4).
  destruct (skip_ws_at ctx a w1 _ Hc H1 eq_refl) as (E1 & C1).
  destruct (read_chr_hit _ _ _ _ C1) as (E2 & C2).
  destruct (read_pname_at _ _ w2 name _ "" C2 H2 Hn1 Hn2) as (E3 & C3).
  { apply stops_before_eq. exact H3. }
  pose proof (read_pvalue_quoted _ _ w3 w4 value b "" C3 H3 H4 Hv) as E4.
  unfold read_param. rewrite E1, E2, E3, E4.
  unfold set_params, set_i, table_of.
  cbn [req push_policy pushes s slen i link params].
  do 2 f_equal. rewrite !app_assoc_str. cbn [append].
  rewrite ?app_assoc_str. reflexivity.
Qed.

Lemma read_param_takes_quoted_witness :
  let ctx := Sample.link_ctx0 ("; title=" ++ quoted "a, b; c" ++ "; nopush") in
  read_param ctx
  = (true, set_params (set_i ctx 17)
                      (Some (apr_table_setn (table_of ctx) "title" "a, b; c"))).
Proof.
  intros ctx.
  apply (read_param_takes_quoted ctx "" "" " " "title" "" "" "a, b; c"
                                 "; nopush").
  - vm_compute. auto.
  - reflexivity.
  - discriminate.
  - vm_compute. reflexivity.
  - vm_compute. reflexivity.
Defined.

(** X20: a parameter written as a name alone, followed after blanks by
    the end of the text or by a character that is neither an equals sign
    nor part of a name, is stored under that name with the empty value. *)
Theorem read_param_takes_flag (ctx : link_ctx) (a w1 w2 name w3 b : string) :
  cursor_at ctx a (w1 ++ ";" ++ w2 ++ name ++ w3 ++ b) ->
  all_chars is_wsp (w1 ++ w2 ++ w3) = true ->
  name <> "" -> all_chars attr_char name = true ->
  stops (fun c => is_wsp c || attr_char c || Ascii.eqb c "=") b = true ->
  read_param ctx
  = (true,
     set_params
       (set_i ctx (String.length (a ++ w1 ++ ";" ++ w2 ++ name ++ w3)))
       (Some (apr_table_setn (table_of ctx) name ""))).
Proof.
  intros Hc Hw Hn1 Hn2 Hb. cbn [append] in *.
  apply all_chars_app in Hw. destruct Hw as (H1 & Hw).
  apply all_chars_app in Hw. destruct Hw as (H2 & H3).
  destruct (stops_before_end w3 b H3 Hb) as (Sa & Se).
  destruct (skip_ws_at ctx a w1 _ Hc H1 eq_refl) as (E1 & C1).
  destruct (read_chr_hit _ _ _ _ C1) as (E2 & C2).
  destruct (read_pname_at _ _ w2 name _ "" C2 H2 Hn1 Hn2 Sa) as (E3 & C3).
  pose proof (read_pvalue_none _ _ w3 b "" C3 H3 Se) as E4.
  unfold read_param. rewrite E1, E2, E3, E4.
  unfold set_params, set_i, table_of.
  cbn [req push_policy pushes s slen i link params].
  do 2 f_equal. rewrite !app_assoc_str. cbn [append].
  rewrite ?app_assoc_str. reflexivity.
Qed.

Lemma read_param_takes_flag_witness :
  let ctx := Sample.link_ctx0 "; nopush , </next>" in
  read_param ctx
  = (true, set_params (set_i ctx 9)
                      (Some (apr_table_setn (table_of ctx) "nopush" ""))).
Proof.
  intros ctx.
  apply (read_param_takes_flag ctx "" "" " " "nopush" " " ", </next>").
  - vm_compute. auto.
  - reflexivity.
  - discriminate.
  - vm_compute. reflexivity.
  - reflexivity.
Defined.

End TextExtra.

(* ===================================================================== *)
(** ** Eviction, updates with known candidates, the digest of one
       entry, and collecting with a diary *)

Module ComposeExtra.
Import Diary Run Gset GolombRice EncoderState.
Import DiaryProps DiaryUpdate DiaryTheorems StreamProps DigestTheorems.
Import Cases Notions DiaryExtra LinkExtra.

(** *** The eviction loop *)

Lemma remove_first_fields d :
  N (remove_first d) = N d
  /\ (1 <= nelts d -> 1 <= nelts (remove_first d)).
Proof.
  unfold remove_first. destruct (0 <? nelts d - 1) eqn:Q; [|auto].
  apply Z.ltb_lt in Q. split; [reflexivity|]. intros _.
  unfold nelts in *. cbn [entries set_entries].
  destruct (entries d) as [|e [|e' es]]; cbn [List.length tl] in *; lia.
Qed.

Lemma evict_loop_spins fuel : forall d,
  N d <= 1 -> N d <= nelts d -> evict_loop fuel d = None.
Proof.
  induction fuel as [|fuel IH]; intros d H1 H2; cbn [evict_loop];
    (replace (N d <=? nelts d) with true by (symmetry; apply Z.leb_le; lia)).
  - reflexivity.
  - destruct (remove_first_fields d) as (F1 & F2).
    apply IH; [lia|]. rewrite F1.
    destruct (Z_le_gt_dec 1 (nelts d)) as [G|G]; [specialize (F2 G); lia|].
    unfold remove_first.
    replace (0 <? nelts d - 1) with false by (symmetry; apply Z.ltb_ge; lia).
    exact H2.
Qed.

(** X21: [h2_push_diary_append] returns exactly when the diary has room
    or its capacity is at least 2: the loop that makes room never drops
    the only entry, so on a full diary of capacity below 2 it does not
    end. *)
Theorem append_returns_iff (d : h2_push_diary) (e : h2_push_diary_entry) :
  h2_push_diary_append d e = None <-> (N d <= 1 /\ N d <= nelts d).
Proof.
  split.
  - intros E.
    destruct (Z_le_gt_dec 2 (N d)) as [G|G];
      [rewrite append_keeps in E by exact G; discriminate|].
    split; [lia|].
    destruct (Z_le_gt_dec (N d) (nelts d)) as [L|L]; [exact L|exfalso].
    unfold h2_push_diary_append in E. cbn [evict_loop] in E.
    replace (N d <=? nelts d) with false in E
      by (symmetry; apply Z.leb_gt; lia).
    discriminate.
  - intros (H1 & H2). unfold h2_push_diary_append.
    now rewrite evict_loop_spins.
Qed.

(** *** The digest of a single entry *)

(** X26: for a diary of one entry with 64-bit hashes and a matching
    authority the export stays inside its scratch block and returns the
    header bytes 1 and [log2p], followed by the packed Golomb-Rice code
    of the entry's hash shifted right by [delta_bits]. *)
Theorem single_entry_digest (d : h2_push_diary) (e : h2_push_diary_entry)
        (maxP : Z) (auth : option string) :
  entries d = [e] -> Diary.mask_bits d = 64 -> 0 <= hash e < 2 ^ 64 ->
  maxP < 2 ^ 31 -> authority_matches d auth = true ->
  let log2p := header_log2p 64 1 maxP in
  let delta_bits := 64 - (1 + log2p) in
  option_map digest_bytes (h2_push_diary_digest_get d maxP auth)
  = Some ([1; log2p] ++ pack (code log2p (Z.shiftr (hash e) delta_bits))).
Proof.
  intros He Hm Hh Hp Ha log2p delta_bits.
  assert (Hn : nelts d = 1) by (unfold nelts; rewrite He; reflexivity).
  rewrite (digest_get_bytes d maxP auth) by (right; lia).
  rewrite Hn, Hm, !h2_log2_ceil by lia.
  change (header_log2n 1) with 1. unfold H2MIN.
  change (Z.min (64 - 1) (header_log2n maxP)) with log2p.
  pose proof (header_log2n_range maxP Hp) as Rp.
  assert (Rl : 1 <= log2p <= 31).
  { unfold log2p, header_log2p. change (header_log2n 1) with 1.
    fold (header_log2n maxP). lia. }
  assert (Hu : CInt.u8 log2p = log2p)
    by (unfold CInt.u8; apply Z.mod_small; lia).
  rewrite Hu. fold delta_bits. cbn [app]. do 3 f_equal.
  unfold export_bits. rewrite Ha, He.
  cbn [map qsort qsort_insert written]. rewrite app_nil_r.
  f_equal. rewrite Z.sub_0_r. unfold CInt.u64. apply f_equal.
  apply Z.mod_small.
  apply shiftr_range; [unfold delta_bits; lia|exact Hh].
Qed.

Lemma single_entry_digest_witness :
  option_map digest_bytes (h2_push_diary_digest_get single4 256 None)
  = Some ([1; 8]
            ++ pack (code 8 (Z.shiftr 548140559631976049 55))).
Proof.
  apply (single_entry_digest single4 (mk_entry 548140559631976049) 256 None).
  - reflexivity.
  - reflexivity.
  - cbn [hash]. lia.
  - lia.
  - reflexivity.
Defined.

Example single4_digest :
  option_map digest_bytes (h2_push_diary_digest_get single4 256 None)
  = Some [1; 8; 7; 255].
Proof. vm_compute. reflexivity. Qed.

(** *** Updates that only reorder *)

Lemma move_to_last_authority d idx :
  authority (move_to_last d idx) = authority d.
Proof.
  unfold move_to_last.
  destruct (nelts d <=? 0); [reflexivity|].
  destruct (idx <? nelts d - 1); [|reflexivity].
  destruct (nth_error _ _); reflexivity.
Qed.

Section WithHash.
Context {H : AprHash}.

Lemma update_loop_hits ps : forall d np,
  Forall (fun p => In (dcalc d p) (map hash (entries d))) ps ->
  exists d',
    update_loop d np ps = Some (d', np)
    /\ same_config d d'
    /\ authority d' = authority d
    /\ Permutation (entries d) (entries d').
Proof.
  induction ps as [|p ps IH]; intros d np Hall; cbn [update_loop].
  - exists d. unfold same_config. auto.
  - inversion Hall as [|? ? Hp Hps]; subst. cbn [hash].
    pose proof (find_hit d _ Hp) as Hf.
    replace (0 <=? h2_push_diary_find (Some d) (dcalc d p)) with true
      by (symmetry; apply Z.leb_le; lia).
    set (idx := h2_push_diary_find (Some d) (dcalc d p)) in *.
    destruct (move_to_last_fields d idx) as (F1 & F2 & F3 & F4 & F5).
    pose proof (move_to_last_authority d idx) as F6.
    assert (C : same_config d (move_to_last d idx))
      by (unfold same_config; auto).
    destruct (IH (move_to_last d idx) np) as (d' & E & (C1 & C2 & C3) & A & P).
    { rewrite Forall_forall in Hps |- *. intros q Hq.
      rewrite (same_config_dcalc d _ q C).
      eapply Permutation_in;
        [apply Permutation_map; symmetry; exact F5|exact (Hps q Hq)]. }
    exists d'. split; [exact E|].
    split; [unfold same_config; repeat split; congruence|].
    split; [congruence|].
    etransitivity; [symmetry; exact F5|exact P].
Qed.

(** X23: an update whose candidates are all in the diary returns NULL,
    so that nothing is pushed, and keeps the same entries in a new
    order: nothing is added or evicted, and capacity, hash width, digest
    type and authority stay as they were. *)
Theorem known_candidates_only_reorder (d : h2_push_diary)
        (ps : list h2_push.t) :
  Forall (fun p => In (dcalc d p) (map hash (entries d))) ps ->
  exists d',
    h2_push_diary_update (mk_session (Some d)) (Some ps)
    = Some (mk_session (Some d'), None)
    /\ Permutation (entries d) (entries d')
    /\ nelts d' = nelts d
    /\ same_config d d'
    /\ authority d' = authority d.
Proof.
  intros Hall.
  destruct (update_loop_hits ps d None Hall) as (d' & E & C & A & P).
  exists d'. unfold h2_push_diary_update. cbn [push_diary]. rewrite E.
  split; [reflexivity|]. split; [exact P|].
  split; [unfold nelts; now rewrite (Permutation_length P)|].
  split; [exact C|exact A].
Qed.

(** *** Collecting with a diary *)

Lemma subseq_Forall {A} (P : A -> Prop) (a b : list A) :
  subseq a b -> Forall P b -> Forall P a.
Proof.
  induction 1 as [|x a b _ IH|x a b _ IH]; intros Hb.
  - constructor.
  - inversion Hb; subst. auto.
  - inversion Hb; subst. constructor; auto.
Qed.

Lemma subseq_refl {A} (l : list A) : subseq l l.
Proof. induction l; constructor; assumption. Qed.

Section WithUri.
Context {U : AprUri}.

(** X24: with a diary of capacity at least 2, [h2_push_collect_update]
    returns; what it returns is taken, in order, from what
    [h2_push_collect] found, so every push is for the scheme and
    authority of the request, and it is NULL rather than an empty array;
    the response headers are as [h2_push_collect] left them. *)
Theorem collect_update_filters (d : h2_push_diary) (policy : h2_push_policy)
        (r : option h2_request.t) (hdrs : option AprTable.apr_table_t) :
  2 <= N d ->
  exists d' np,
    h2_push_collect_update (mk_session (Some d)) policy r hdrs
    = (Some (mk_session (Some d'), np),
       snd (Link.h2_push_collect r policy hdrs))
    /\ same_config d d'
    /\ np <> Some []
    /\ subseq (returned np) (returned (fst (Link.h2_push_collect r policy hdrs)))
    /\ forall rq, r = Some rq -> Forall (push_of rq policy) (returned np).
Proof.
  intros HN. unfold h2_push_collect_update.
  pose proof (collect_spec r policy hdrs) as S.
  destruct (Link.h2_push_collect r policy hdrs) as [pushes hd].
  cbn [fst snd] in *.
  destruct (update_returns d pushes HN) as (d' & np & E & C & _).
  exists d', np. rewrite E. split; [reflexivity|]. split; [exact C|].
  destruct pushes as [l|].
  - destruct S as (Hne & _ & rq & hd0 & -> & _ & _ & Hall).
    unfold h2_push_diary_update in E. cbn [push_diary] in E.
    destruct (update_loop d None l) as [[d2 np2]|] eqn:El; [|discriminate].
    inversion E; subst d2 np2; clear E.
    destruct (update_loop_subseq _ _ _ _ _ El) as (k & Hs & Hn).
    assert (Hr : returned np = k /\ np <> Some []).
    { subst np. destruct k; cbn [returned app]; split;
        try reflexivity; discriminate. }
    destruct Hr as (Hr & Hne'). rewrite Hr. cbn [returned].
    split; [exact Hne'|]. split; [exact Hs|].
    intros rq' Erq. inversion Erq; subst rq'.
    exact (subseq_Forall _ _ _ Hs Hall).
  - unfold h2_push_diary_update in E. cbn [push_diary] in E.
    inversion E; subst. cbn [returned].
    split; [discriminate|]. split; [constructor|]. intros; constructor.
Qed.

End WithUri.
End WithHash.

Lemma known_candidates_only_reorder_witness :
  let ps := [Sample.candidate "/b"; Sample.candidate "/a"]%string in
  exists d',
    @h2_push_diary_update Sample.hash33 (mk_session (Some full4)) (Some ps)
    = Some (mk_session (Some d'), None)
    /\ Permutation (entries full4) (entries d')
    /\ nelts d' = nelts full4
    /\ same_config full4 d'
    /\ authority d' = authority full4.
Proof.
  intros ps.
  apply (@known_candidates_only_reorder Sample.hash33 full4 ps).
  constructor; [vm_compute; auto 10|].
  constructor; [vm_compute; auto 10|constructor].
Defined.

Lemma collect_update_filters_witness :
  let rq := Sample.request "https" "example.com" "/index.html" in
  let hdrs := Some [("Link", "</a>; rel=preload, </new.css>; rel=preload")]%string in
  exists d' np,
    @h2_push_collect_update Sample.hash33 Sample.uri_split
      (mk_session (Some full4)) H2_PUSH_DEFAULT (Some rq) hdrs
    = (Some (mk_session (Some d'), np),
       snd (@Link.h2_push_collect Sample.uri_split (Some rq) H2_PUSH_DEFAULT hdrs))
    /\ same_config full4 d'
    /\ np <> Some []
    /\ subseq (returned np)
              (returned (fst (@Link.h2_push_collect Sample.uri_split (Some rq)
                                H2_PUSH_DEFAULT hdrs)))
    /\ forall rq', Some rq = Some rq' ->
                   Forall (push_of rq' H2_PUSH_DEFAULT) (returned np).
Proof.
  intros rq hdrs.
  apply (@collect_update_filters Sample.hash33 Sample.uri_split full4
           H2_PUSH_DEFAULT (Some rq) hdrs).
  cbn. lia.
Defined.

End ComposeExtra.

(* ===================================================================== *)
(** ** A preload link from header to push *)

Module EndToEnd.
Import AprTable Link Cases Notions LinkProps LinkExtra TextExtra.
Local Open Scope string_scope.

Lemma read_param_at_end ctx a :
  cursor_at ctx a "" -> read_param ctx = (false, set_i ctx (String.length a)).
Proof.
  intros Hc.
  destruct (skip_ws_at ctx a "" "" Hc eq_refl eq_refl) as (E & _).
  rewrite append_nil_r_str in E. unfold read_param. rewrite E. reflexivity.
Qed.

Lemma read_sep_at_end ctx a :
  cursor_at ctx a "" -> read_sep ctx = (false, set_i ctx (String.length a)).
Proof.
  intros Hc.
  destruct (skip_ws_at ctx a "" "" Hc eq_refl eq_refl) as (E & _).
  rewrite append_nil_r_str in E. unfold read_sep. rewrite E. reflexivity.
Qed.

Lemma cursor_at_end ctx str :
  s ctx = str -> slen ctx = String.length str ->
  cursor_at (set_i ctx (String.length str)) str "".
Proof.
  intros Hs Hn. unfold cursor_at. cbn [s slen i set_i].
  rewrite append_nil_r_str. auto.
Qed.

Lemma cursor_set_params ctx v a b :
  cursor_at ctx a b -> cursor_at (set_params ctx v) a b.
Proof. intros H. exact H. Qed.

Lemma cursor_set_pushes ctx v a b :
  cursor_at ctx a b -> cursor_at (set_pushes ctx v) a b.
Proof. intros H. exact H. Qed.

Lemma cursor_set_link ctx v a b :
  cursor_at ctx a b -> cursor_at (set_link ctx v) a b.
Proof. intros H. exact H. Qed.

Lemma cursor_init_params ctx a b :
  cursor_at ctx a b -> cursor_at (init_params ctx) a b.
Proof. intros H. unfold init_params. destruct (params ctx); exact H. Qed.

Lemma init_params_fields ctx :
  table_of (init_params ctx) = []
  /\ link (init_params ctx) = link ctx
  /\ req (init_params ctx) = req ctx
  /\ push_policy (init_params ctx) = push_policy ctx
  /\ pushes (init_params ctx) = pushes ctx.
Proof. unfold init_params. destruct (params ctx); cbn; auto. Qed.

Section WithUri.
Context {U : AprUri}.

Lemma read_params_once fuel ctx c' :
  read_param ctx = (true, c') -> read_param c' = (false, c') ->
  read_params fuel ctx = c'.
Proof.
  intros H1 H2. destruct fuel as [|fuel]; cbn [read_params]; rewrite H1;
    [reflexivity|].
  destruct fuel; cbn [read_params]; rewrite H2; reflexivity.
Qed.

Lemma add_push_preload ctx uri p :
  table_of ctx = [("rel", "preload")] ->
  apr_uri_parse (link ctx) = Some uri ->
  apr_uri_t.path uri = Some p ->
  same_authority (req ctx) uri = true ->
  exists push,
    pushes (snd (add_push ctx))
    = Some ((Run.returned (pushes ctx) ++ [push])%list)
    /\ h2_request.path (h2_push.req push)
       = apr_uri_unparse uri APR_URI_UNP_OMITSITEPART
    /\ h2_push.priority push = None
    /\ snd (add_push ctx) = set_pushes ctx (pushes (snd (add_push ctx))).
Proof.
  intros Ht Hu Hp Hs. unfold add_push, has_relation, has_param.
  rewrite Ht, Hu, Hp, Hs.
  replace (apr_table_get [("rel", "preload")] "rel") with (Some "preload")
    by (vm_compute; reflexivity).
  replace (apr_table_get [("rel", "preload")] "nopush") with (@None string)
    by (vm_compute; reflexivity).
  replace (apr_table_get [("rel", "preload")] "critical") with (@None string)
    by (vm_compute; reflexivity).
  replace (CStr.streq "preload" "preload") with true
    by (vm_compute; reflexivity).
  cbn [andb negb snd]. eexists. split; [reflexivity|].
  split; [reflexivity|]. split; reflexivity.
Qed.

Lemma inspect_single ctx target uri p fuel :
  cursor_at ctx "" ("<" ++ target ++ ">; rel=preload") ->
  all_chars (other_than ">") target = true ->
  apr_uri_parse target = Some uri ->
  apr_uri_t.path uri = Some p ->
  same_authority (req ctx) uri = true ->
  exists push,
    pushes (inspect_links fuel ctx)
    = Some ((Run.returned (pushes ctx) ++ [push])%list)
    /\ h2_request.path (h2_push.req push)
       = apr_uri_unparse uri APR_URI_UNP_OMITSITEPART
    /\ h2_push.priority push = None
    /\ req (inspect_links fuel ctx) = req ctx
    /\ push_policy (inspect_links fuel ctx) = push_policy ctx.
Proof.
  intros Hc Ht Hu Hp Hs.
  pose proof (read_link_at ctx "" "" target "; rel=preload" Hc eq_refl Ht)
    as E1.
  set (k1 := String.length ("" ++ "" ++ "<" ++ target ++ ">")) in E1.
  set (c1 := set_i (set_link ctx target) k1) in E1.
  set (c2 := init_params c1).
  destruct (init_params_fields c1) as (T2 & L2 & R2 & P2 & Q2). fold c2 in T2, L2, R2, P2, Q2.
  assert (C2 : cursor_at c2 ("<" ++ target ++ ">")
                 ("" ++ ";" ++ " " ++ "rel" ++ "" ++ "=" ++ "" ++ "preload"
                     ++ "")).
  { apply cursor_init_params.
    apply (cursor_set (set_link ctx target) ""
             ("<" ++ target ++ ">; rel=preload")
             ("" ++ "" ++ "<" ++ target ++ ">")).
    - apply cursor_set_link. exact Hc.
    - cbn [append]. rewrite app_assoc_str. reflexivity. }
  pose proof (read_param_pair_at c2 _ "" " " "rel" "" "" "preload" "" C2
                eq_refl ltac:(discriminate) eq_refl ltac:(discriminate)
                eq_refl eq_refl) as E3.
  rewrite T2 in E3.
  set (X := ("<" ++ target ++ ">") ++ "" ++ ";" ++ " " ++ "rel" ++ "" ++ "="
              ++ "" ++ "preload") in E3.
  assert (EX : X ++ "" = ("<" ++ target ++ ">")
                 ++ "" ++ ";" ++ " " ++ "rel" ++ "" ++ "=" ++ "" ++ "preload"
                     ++ "").
  { unfold X. cbn [append]. rewrite !app_assoc_str. reflexivity. }
  set (c3 := set_params (set_i c2 (String.length X))
               (Some (apr_table_setn [] "rel" "preload"))) in E3.
  assert (C3 : cursor_at c3 X "").
  { apply cursor_set_params.
    apply (cursor_set c2 _ _ X "" C2). exact EX. }
  assert (E4 : read_param c3 = (false, c3)).
  { rewrite (read_param_at_end c3 X C3). reflexivity. }
  destruct (add_push_preload c3 uri p) as (push & A1 & A2 & A3 & A4).
  { reflexivity. }
  { change (link c3) with (link c2). rewrite L2. exact Hu. }
  { exact Hp. }
  { change (req c3) with (req c2). rewrite R2. exact Hs. }
  set (c4 := snd (add_push c3)) in *.
  assert (C4 : cursor_at c4 X "").
  { rewrite A4. apply cursor_set_pushes. exact C3. }
  pose proof (read_sep_at_end c4 X C4) as E5.
  assert (Hfin : inspect_links fuel ctx = set_i c4 (String.length X)).
  { destruct fuel; cbn [inspect_links]; rewrite E1; fold c2;
      rewrite (read_params_once _ c2 c3 E3 E4);
      rewrite (surjective_pairing (add_push c3)); fold c4;
      rewrite E5; reflexivity. }
  exists push. rewrite Hfin. cbn [pushes req push_policy set_i].
  split; [rewrite A1; change (pushes c3) with (pushes c2); now rewrite Q2|].
  split; [exact A2|]. split; [exact A3|].
  rewrite A4. cbn [req push_policy set_pushes].
  change (req c3) with (req c2). change (push_policy c3) with (push_policy c2).
  rewrite R2, P2. auto.
Qed.

(** X25: a response whose only header is a Link header of the form
    [<target>; rel=preload], with a target that parses to a URI with a
    path on the authority of the request, makes [h2_push_collect] return
    exactly one push: for that path, without a priority, for the scheme
    and authority of the request; [push-policy] is set on the response. *)
Theorem single_preload_is_pushed (rq : h2_request.t) (policy : h2_push_policy)
        (key target p : string) (uri : apr_uri_t.t) :
  policy <> H2_PUSH_NONE ->
  CStr.strcaseeq "link" key = true ->
  all_chars (other_than ">") target = true ->
  apr_uri_parse target = Some uri ->
  apr_uri_t.path uri = Some p ->
  same_authority rq uri = true ->
  let hd := [(key, "<" ++ target ++ ">; rel=preload")] in
  exists push,
    h2_push_collect (Some rq) policy (Some hd)
    = (Some [push],
       Some (apr_table_setn hd "push-policy" (policy_str policy)))
    /\ h2_request.path (h2_push.req push)
       = apr_uri_unparse uri APR_URI_UNP_OMITSITEPART
    /\ h2_push.priority push = None
    /\ push_of rq policy push.
Proof.
  intros Hpol Hkey Ht Hu Hp Hs hd.
  set (value := "<" ++ target ++ ">; rel=preload") in *.
  set (ctx0 := mk_link_ctx rq policy None "" 0 0 "" None).
  destruct (inspect_single (set_input ctx0 value (String.length value))
              target uri p (String.length value))
    as (push & A1 & A2 & A3 & _); try assumption.
  { unfold cursor_at. cbn [s slen i set_input append]. auto. }
  cbn [pushes set_input ctx0 Run.returned app] in A1.
  assert (E : pushes (apr_table_do head_iter ctx0 hd) = Some [push]).
  { unfold hd. cbn [apr_table_do]. unfold head_iter. rewrite Hkey.
    unfold inspect_link. exact A1. }
  assert (R : h2_push_collect (Some rq) policy (Some hd)
              = (Some [push],
                 Some (apr_table_setn hd "push-policy" (policy_str policy)))).
  { unfold h2_push_collect. fold ctx0.
    destruct policy; try congruence; rewrite E; reflexivity. }
  exists push. split; [exact R|]. split; [exact A2|]. split; [exact A3|].
  pose proof (collect_spec (Some rq) policy (Some hd)) as S.
  rewrite R in S. cbn [fst snd] in S.
  destruct S as (_ & _ & rq' & hd' & Erq & _ & _ & Hall).
  inversion Erq; subst rq'. inversion Hall; subst. assumption.
Qed.

End WithUri.

Lemma single_preload_is_pushed_witness :
  let rq := Sample.request "https" "example.com" "/index.html" in
  let hd := [("Link", "</style.css>; rel=preload")] in
  exists push,
    @h2_push_collect Sample.uri_split (Some rq) H2_PUSH_DEFAULT (Some hd)
    = (Some [push],
       Some (apr_table_setn hd "push-policy" (policy_str H2_PUSH_DEFAULT)))
    /\ h2_request.path (h2_push.req push) = "/style.css"
    /\ h2_push.priority push = None
    /\ push_of rq H2_PUSH_DEFAULT push.
Proof.
  intros rq hd.
  apply (@single_preload_is_pushed Sample.uri_split rq H2_PUSH_DEFAULT
           "Link" "/style.css" "/style.css"
           (apr_uri_t.mk None None (Some "/style.css") None None)).
  - discriminate.
  - vm_compute. reflexivity.
  - vm_compute. reflexivity.
  - vm_compute. reflexivity.
  - reflexivity.
  - vm_compute. reflexivity.
Defined.

End EndToEnd.
